(** * steamweb: the server-list filter encoder, the HTTP client wrapper and
    the post-fetch filter/sort pass of [gorcon/steamweb], embedded in Rocq.

    Go values are modelled as follows.
    - [int] and [time.Duration] are [Z] (no arithmetic is performed on them by
      the embedded code, only comparisons with constants and with each other).
    - [string] is [string] (a sequence of bytes, as in Go).
    - slices are lists; a [nil] slice and an empty slice are both [[]].
    - [map[string]bool] is [gmap string bool].
    - a pointer receiver that is updated in place ([Config.SetDefaults]) is a
      function returning the updated record.
    - the network is a log of the requests issued, threaded through a small
      state monad, together with an oracle answering each request. *)

From Stdlib Require Import ZArith Ascii String List Permutation Sorted Lia.
From stdpp Require Import base gmap strings list.

Local Open Scope Z_scope.

(** ** strconv and strings *)

(** The decimal digit for [n < 10]. *)
Definition digit_char (n : N) : ascii :=
  ascii_of_N (48 + n).

(** Decimal digits of [n], most significant first, in front of [acc]. *)
Fixpoint digits (fuel : nat) (n : N) (acc : string) : string :=
  match fuel with
  | O => acc
  | S fuel' =>
      let acc' := String (digit_char (n mod 10)) acc in
      if (n / 10 =? 0)%N then acc' else digits fuel' (n / 10)%N acc'
  end.

(** [strconv.Itoa]: base-10 rendering of an [int], with a leading [-] for
    negative values.  The binary size of the number bounds the number of its
    decimal digits. *)
Definition Itoa (i : Z) : string :=
  match i with
  | Z0 => "0"
  | Zpos p => digits (Pos.size_nat p) (Npos p) ""
  | Zneg p => "-" +:+ digits (Pos.size_nat p) (Npos p) ""
  end.

(** [strings.Join]. *)
Fixpoint Join (elems : list string) (sep : string) : string :=
  match elems with
  | [] => ""
  | [e] => e
  | e :: rest => e +:+ sep +:+ Join rest sep
  end.

(** [strings.HasPrefix]. *)
Fixpoint HasPrefix (s prefix : string) {struct prefix} : bool :=
  match prefix, s with
  | EmptyString, _ => true
  | String _ _, EmptyString => false
  | String p prefix', String c s' => Ascii.eqb c p && HasPrefix s' prefix'
  end.

(** [strings.Contains]: [substr] occurs at some offset of [s]. *)
Fixpoint Contains (s substr : string) : bool :=
  HasPrefix s substr ||
  match s with
  | EmptyString => false
  | String _ s' => Contains s' substr
  end.

(** ** Errors *)

(** The error values of the package.  [fmt.Errorf("%w: ...", Err, ...)] wraps a
    sentinel together with the formatted arguments; an error of [net/http],
    [io] or [encoding/json] is opaque, stands for itself ([ErrForeign] of its
    identity) and is returned as it is. *)
Inductive error : Type :=
| ErrRequiredParam (param : string)
| ErrConfigUndefinedParam (param : string)
| ErrWrongStatusCode (code : Z) (status : string)
| ErrEmptyResponse
| ErrForeign (msg : string).

(** ** filter.go *)

Record GetServerListFilter : Type := {
  NotOr : list string;
  NotAnd : list string;
  Dedicated : bool;
  Secure : bool;
  GameDir : string;
  Map : string;
  Linux : bool;
  NoPassword : bool;
  NotEmpty : bool;
  NotFull : bool;
  Proxy : bool;
  AppID : Z;
  NotAppID : Z;
  NoPlayers : bool;
  Whitelisted : bool;
  GameTypeTags : list string;
  GameDataTags : list string;
  GameDataOrTags : list string;
  NameMatch : string;
  VersionMatch : string;
  CollapseAddrHash : bool;
  GameAddr : string;
  NoHidden : bool;
  NoDefaultServers : bool;
  Limit : Z
}.

(** The zero value [GetServerListFilter{}]. *)
Definition emptyFilter : GetServerListFilter := {|
  NotOr := []; NotAnd := []; Dedicated := false; Secure := false;
  GameDir := ""; Map := ""; Linux := false; NoPassword := false;
  NotEmpty := false; NotFull := false; Proxy := false; AppID := 0;
  NotAppID := 0; NoPlayers := false; Whitelisted := false;
  GameTypeTags := []; GameDataTags := []; GameDataOrTags := [];
  NameMatch := ""; VersionMatch := ""; CollapseAddrHash := false;
  GameAddr := ""; NoHidden := false; NoDefaultServers := false; Limit := 0
|}.

(** [if cond { query += seg }]. *)
Definition add_if (cond : bool) (seg : string) (query : string) : string :=
  if cond then query +:+ seg else query.

Definition nonempty (s : string) : bool :=
  negb (String.eqb s "").

Definition nonnil (l : list string) : bool :=
  negb (Nat.eqb (List.length l) 0).

(** [GetServerListFilter.String]. *)
Definition String_ (g : GetServerListFilter) : string :=
  let query := "\appid\" +:+ Itoa (AppID g) in
  let query := add_if (Dedicated g) "\dedicated\1" query in
  let query := add_if (Secure g) "\secure\1" query in
  let query := add_if (nonempty (GameDir g)) ("\gamedir\" +:+ GameDir g) query in
  let query := add_if (nonempty (Map g)) ("\map\" +:+ Map g) query in
  let query := add_if (Linux g) "\linux\1" query in
  let query := add_if (NoPassword g) "\password\0" query in
  let query := add_if (NotEmpty g) "\empty\1" query in
  let query := add_if (NotFull g) "\full\1" query in
  let query := add_if (Proxy g) "\proxy\1" query in
  let query := add_if (negb (NotAppID g =? 0)%Z) ("\napp\" +:+ Itoa (NotAppID g)) query in
  let query := add_if (NoPlayers g) "\noplayers\1" query in
  let query := add_if (Whitelisted g) "\white\1" query in
  let query := add_if (nonnil (GameTypeTags g))
                 ("\gametype\" +:+ Join (GameTypeTags g) ";") query in
  let query := add_if (nonnil (GameDataTags g))
                 ("\gamedata\" +:+ Join (GameDataTags g) ",") query in
  let query := add_if (nonnil (GameDataOrTags g))
                 ("\gamedataor\" +:+ Join (GameDataOrTags g) ",") query in
  let query := add_if (nonempty (NameMatch g))
                 ("\name_match\*" +:+ NameMatch g +:+ "*") query in
  query.

(** [GetServerListFilter.Validate]; [None] is the [nil] error. *)
Definition Validate (g : GetServerListFilter) : option error :=
  if (AppID g =? 0)%Z then Some (ErrRequiredParam "appid") else None.

(** ** config.go *)

Definition DefaultSteamURL : string := "https://api.steampowered.com".
(** [time.Duration] counts nanoseconds. *)
Definition Second : Z := 1000000000.
Definition DefaultTimeout : Z := 10 * Second.
Definition DefaultTLSHandshakeTimeout : Z := 5 * Second.
Definition DefaultDialerTimeout : Z := 5 * Second.
Definition DefaultLimit : Z := 50000.

Module Dialer.
(** [Deadline] is a [time.Time]; it is only copied, so an instant is enough. *)
Record t : Type := mk {
  Timeout : Z;
  Deadline : Z;
  FallbackDelay : Z;
  KeepAlive : Z
}.
End Dialer.

Module Transport.
Record t : Type := mk {
  Dialer : Dialer.t;
  TLSHandshakeTimeout : Z
}.
End Transport.

Module Config.
Record t : Type := mk {
  Disabled : bool;
  Key : string;
  URL : string;
  Timeout : Z;
  Transport : Transport.t;
  Limit : Z;
  DefaultServerNames : list string
}.

(** [Config.Validate]. *)
Definition Validate (cfg : t) : option error :=
  if Disabled cfg then None
  else if String.eqb (Key cfg) "" then Some (ErrConfigUndefinedParam "key")
  else if String.eqb (URL cfg) "" then Some (ErrConfigUndefinedParam "url")
  else None.

(** [Config.SetDefaults]: the five assignments, in the order of the source,
    each on the configuration left by the previous one. *)
Definition SetDefaults (cfg : t) : t :=
  let cfg :=
    if String.eqb (URL cfg) ""
    then mk (Disabled cfg) (Key cfg) DefaultSteamURL (Timeout cfg)
            (Transport cfg) (Limit cfg) (DefaultServerNames cfg)
    else cfg in
  let cfg :=
    if (Timeout cfg =? 0)%Z
    then mk (Disabled cfg) (Key cfg) (URL cfg) DefaultTimeout
            (Transport cfg) (Limit cfg) (DefaultServerNames cfg)
    else cfg in
  let cfg :=
    if (Transport.TLSHandshakeTimeout (Transport cfg) =? 0)%Z
    then mk (Disabled cfg) (Key cfg) (URL cfg) (Timeout cfg)
            (Transport.mk (Transport.Dialer (Transport cfg))
                          DefaultTLSHandshakeTimeout)
            (Limit cfg) (DefaultServerNames cfg)
    else cfg in
  let cfg :=
    if (Dialer.Timeout (Transport.Dialer (Transport cfg)) =? 0)%Z
    then mk (Disabled cfg) (Key cfg) (URL cfg) (Timeout cfg)
            (Transport.mk
               (Dialer.mk DefaultDialerTimeout
                  (Dialer.Deadline (Transport.Dialer (Transport cfg)))
                  (Dialer.FallbackDelay (Transport.Dialer (Transport cfg)))
                  (Dialer.KeepAlive (Transport.Dialer (Transport cfg))))
               (Transport.TLSHandshakeTimeout (Transport cfg)))
            (Limit cfg) (DefaultServerNames cfg)
    else cfg in
  let cfg :=
    if (Limit cfg =? 0)%Z
    then mk (Disabled cfg) (Key cfg) (URL cfg) (Timeout cfg)
            (Transport cfg) DefaultLimit (DefaultServerNames cfg)
    else cfg in
  cfg.
End Config.

(** ** models.go *)

Module PlayerBans.
Record t : Type := mk {
  SteamID : string;
  CommunityBanned : bool;
  VACBanned : bool;
  NumberOfVACBans : Z;
  DaysSinceLastBan : Z;
  NumberOfGameBans : Z;
  EconomyBan : string
}.
End PlayerBans.

Module Server.
Record t : Type := mk {
  Addr : string;
  GamePort : Z;
  SteamID : string;
  Name : string;
  AppID : Z;
  GameDir : string;
  Version : string;
  Product : string;
  Region : Z;
  Players : Z;
  MaxPlayers : Z;
  Bots : Z;
  Map : string;
  Secure : bool;
  Dedicated : bool;
  OS : string;
  GameType : string
}.
End Server.

(** ** The [sort] package of the Go standard library ([sort.Slice])

    [sort.Slice(x, less)] runs the pattern-defeating quicksort of
    [zsortfunc.go] on the index range [0, len(x)), through [less(i, j)] and an
    in-place swap of two positions.  The slice is a list; positions are [nat]
    (every subtraction below is on values where the Go [int] expression is
    non-negative, or is noted).  Every loop is given the exact number of steps
    after which its own exit condition holds. *)
Module sort.

(** [xorshift.Next] on a [uint64] (the shift triple of the 64-bit xorshift
    generator).  It only decides which three elements [breakPatterns_func]
    exchanges after an unbalanced partition of more than twelve elements. *)
Definition mask64 (x : N) : N := N.land x (2 ^ 64 - 1)%N.

Definition xorshift_Next (r : N) : N :=
  let r := N.lxor r (mask64 (N.shiftl r 13)) in
  let r := N.lxor r (N.shiftr r 7) in
  let r := N.lxor r (mask64 (N.shiftl r 17)) in
  r.

(** [bits.Len]: the number of bits needed to represent [n]; 0 for 0. *)
Definition bits_Len (n : nat) : nat := N.to_nat (N.size (N.of_nat n)).

(** [nextPowerOfTwo]. *)
Definition nextPowerOfTwo (length : nat) : N :=
  N.shiftl 1 (N.of_nat (bits_Len length)).

Inductive sortedHint : Type :=
| unknownHint
| increasingHint
| decreasingHint.

Definition is_increasing (h : sortedHint) : bool :=
  match h with increasingHint => true | _ => false end.

Definition is_decreasing (h : sortedHint) : bool :=
  match h with decreasingHint => true | _ => false end.

Section lessSwap.
Context {A : Type}.
(** The comparison of two elements; [less(i, j)] of the caller compares the
    elements at positions [i] and [j] of the slice being sorted. *)
Variable less : A -> A -> bool.

(** [data.Less(i, j)].  Out of range Go panics; the algorithm never is. *)
Definition Less (data : list A) (i j : nat) : bool :=
  match data !! i, data !! j with
  | Some x, Some y => less x y
  | _, _ => false
  end.

(** [data.Swap(i, j)]. *)
Definition Swap (data : list A) (i j : nat) : list A :=
  match data !! i, data !! j with
  | Some x, Some y => <[j := x]> (<[i := y]> data)
  | _, _ => data
  end.

(** The inner loop of [insertionSort_func]:
    [for j := i; j > a && data.Less(j, j-1); j-- { data.Swap(j, j-1) }]. *)
Fixpoint insertionSort_inner (data : list A) (a j : nat) : list A :=
  match j with
  | O => data
  | S j' =>
      if (a <? j)%nat && Less data j j'
      then insertionSort_inner (Swap data j j') a j'
      else data
  end.

(** The outer loop, [for i := ...; i < b; i++], with [n = b - i] rounds left. *)
Fixpoint insertionSort_outer (n : nat) (data : list A) (a i : nat) : list A :=
  match n with
  | O => data
  | S n' => insertionSort_outer n' (insertionSort_inner data a i) a (i + 1)
  end.

(** [insertionSort_func] sorts [data[a:b]] using insertion sort. *)
Definition insertionSort_func (data : list A) (a b : nat) : list A :=
  insertionSort_outer (b - (a + 1)) data a (a + 1).

(** [siftDown_func]: the loop on [root]; [root] grows at every round, so
    after [n = hi - root] rounds [child >= hi] and the loop returns. *)
Fixpoint siftDown_loop (n : nat) (data : list A) (root hi first : nat) : list A :=
  let child := (2 * root + 1)%nat in
  if (hi <=? child)%nat then data
  else
    let child :=
      if (child + 1 <? hi)%nat && Less data (first + child) (first + child + 1)
      then (child + 1)%nat else child in
    if negb (Less data (first + root) (first + child)) then data
    else
      match n with
      | O => data
      | S n' => siftDown_loop n' (Swap data (first + root) (first + child)) child hi first
      end.

Definition siftDown_func (data : list A) (lo hi first : nat) : list A :=
  siftDown_loop (hi - lo) data lo hi first.

(** [for i := (hi - 1) / 2; i >= 0; i-- { siftDown_func(data, i, hi, first) }],
    from [i] down to 0 inclusive. *)
Fixpoint heapSort_build (i : nat) (data : list A) (hi first : nat) : list A :=
  let data := siftDown_func data i hi first in
  match i with
  | O => data
  | S i' => heapSort_build i' data hi first
  end.

(** [for i := hi - 1; i >= 0; i-- { data.Swap(first, first+i);
    siftDown_func(data, lo, i, first) }], from [i] down to 0 inclusive. *)
Fixpoint heapSort_pop (i : nat) (data : list A) (lo first : nat) : list A :=
  let data := Swap data first (first + i) in
  let data := siftDown_func data lo i first in
  match i with
  | O => data
  | S i' => heapSort_pop i' data lo first
  end.

(** [heapSort_func]; it is only called on ranges of more than 12 elements,
    so [hi - 1] below is the Go value. *)
Definition heapSort_func (data : list A) (a b : nat) : list A :=
  let first := a in
  let lo := O in
  let hi := (b - a)%nat in
  let data := heapSort_build ((hi - 1) / 2) data hi first in
  heapSort_pop (hi - 1) data lo first.

(** [for i <= j && data.Less(i, a) { i++ }], at most [n = j + 1 - i] rounds. *)
Fixpoint scan_less (n : nat) (data : list A) (a i j : nat) : nat :=
  match n with
  | O => i
  | S n' =>
      if (i <=? j)%nat && Less data i a
      then scan_less n' data a (i + 1) j
      else i
  end.

(** [for i <= j && !data.Less(j, a) { j-- }]; [j >= i > a] when [j--] runs. *)
Fixpoint scan_not_less (n : nat) (data : list A) (a i j : nat) : nat :=
  match n with
  | O => j
  | S n' =>
      if (i <=? j)%nat && negb (Less data j a)
      then scan_not_less n' data a i (j - 1)
      else j
  end.

(** The [for { ... }] loop of [partition_func]; a round that does not break
    moves [i] and [j] towards each other, so [n = j + 1 - i] rounds suffice. *)
Fixpoint partition_loop (n : nat) (data : list A) (a i j : nat) : list A * nat :=
  let i := scan_less (j + 1 - i) data a i j in
  let j := scan_not_less (j + 1 - i) data a i j in
  if (j <? i)%nat then (data, j)
  else
    match n with
    | O => (data, j)
    | S n' => partition_loop n' (Swap data i j) a (i + 1) (j - 1)
    end.

(** [partition_func] does one quicksort partition; it returns the slice, the
    new position of the pivot and whether the range was already partitioned. *)
Definition partition_func (data : list A) (a b pivot : nat) : list A * nat * bool :=
  let data := Swap data a pivot in
  let i := (a + 1)%nat in
  let j := (b - 1)%nat in
  let i := scan_less (j + 1 - i) data a i j in
  let j := scan_not_less (j + 1 - i) data a i j in
  if (j <? i)%nat then (Swap data j a, j, true)
  else
    let data := Swap data i j in
    let '(data, j) := partition_loop (j - i) data a (i + 1) (j - 1) in
    (Swap data j a, j, false).

(** [for i <= j && !data.Less(a, i) { i++ }]. *)
Fixpoint scan_not_greater (n : nat) (data : list A) (a i j : nat) : nat :=
  match n with
  | O => i
  | S n' =>
      if (i <=? j)%nat && negb (Less data a i)
      then scan_not_greater n' data a (i + 1) j
      else i
  end.

(** [for i <= j && data.Less(a, j) { j-- }]. *)
Fixpoint scan_greater (n : nat) (data : list A) (a i j : nat) : nat :=
  match n with
  | O => j
  | S n' =>
      if (i <=? j)%nat && Less data a j
      then scan_greater n' data a i (j - 1)
      else j
  end.

Fixpoint partitionEqual_loop (n : nat) (data : list A) (a i j : nat) : list A * nat :=
  let i := scan_not_greater (j + 1 - i) data a i j in
  let j := scan_greater (j + 1 - i) data a i j in
  if (j <? i)%nat then (data, i)
  else
    match n with
    | O => (data, i)
    | S n' => partitionEqual_loop n' (Swap data i j) a (i + 1) (j - 1)
    end.

(** [partitionEqual_func] partitions [data[a:b]] into the elements equal to
    the pivot followed by the elements greater than it. *)
Definition partitionEqual_func (data : list A) (a b pivot : nat) : list A * nat :=
  let data := Swap data a pivot in
  partitionEqual_loop (b - a) data a (a + 1) (b - 1).

(** [for i < b && !data.Less(i, i-1) { i++ }]. *)
Fixpoint scan_sorted (n : nat) (data : list A) (i b : nat) : nat :=
  match n with
  | O => i
  | S n' =>
      if (i <? b)%nat && negb (Less data i (i - 1))
      then scan_sorted n' data (i + 1) b
      else i
  end.

(** [for j := i - 1; j >= 1; j-- { if !data.Less(j, j-1) { break };
    data.Swap(j, j-1) }]. *)
Fixpoint shift_left (data : list A) (j : nat) : list A :=
  match j with
  | O => data
  | S j' =>
      if negb (Less data j j') then data
      else shift_left (Swap data j j') j'
  end.

(** [for j := i + 1; j < b; j++ { if !data.Less(j, j-1) { break };
    data.Swap(j, j-1) }], with [n = b - j] rounds left. *)
Fixpoint shift_right (n : nat) (data : list A) (j : nat) : list A :=
  match n with
  | O => data
  | S n' =>
      if negb (Less data j (j - 1)) then data
      else shift_right n' (Swap data j (j - 1)) (j + 1)
  end.

Definition maxSteps : nat := 5.
Definition shortestShifting : nat := 50.

(** The [for j := 0; j < maxSteps; j++] loop of
    [partialInsertionSort_func], with [steps] rounds left. *)
Fixpoint partialInsertionSort_loop (steps : nat) (data : list A) (a b i : nat)
  : list A * bool :=
  match steps with
  | O => (data, false)
  | S steps' =>
      let i := scan_sorted (b - i) data i b in
      if (i =? b)%nat then (data, true)
      else if (b - a <? shortestShifting)%nat then (data, false)
      else
        let data := Swap data i (i - 1) in
        let data := if (2 <=? i - a)%nat then shift_left data (i - 1) else data in
        let data :=
          if (2 <=? b - i)%nat then shift_right (b - (i + 1)) data (i + 1) else data in
        partialInsertionSort_loop steps' data a b i
  end.

(** [partialInsertionSort_func] partially sorts a slice and returns [true]
    if the slice is sorted at the end. *)
Definition partialInsertionSort_func (data : list A) (a b : nat) : list A * bool :=
  partialInsertionSort_loop maxSteps data a b (a + 1).

(** One round of the loop of [breakPatterns_func]: the element at position
    [idx + i] is exchanged with the one at a position drawn from the range. *)
Definition breakPatterns_step (data : list A) (a length idx i : nat)
    (random modulus : N) : list A * N :=
  let random := xorshift_Next random in
  let other := N.to_nat (N.land random (modulus - 1)) in
  let other := if (length <=? other)%nat then (other - length)%nat else other in
  (Swap data (idx + i) (a + other), random).

(** [breakPatterns_func] scatters three elements around the middle: those at
    the positions [a + (length/4)*2 - 1], and the next two, which are the
    pivot candidates of [choosePivot_func]. *)
Definition breakPatterns_func (data : list A) (a b : nat) : list A :=
  let length := (b - a)%nat in
  if (8 <=? length)%nat then
    let random := N.of_nat length in
    let modulus := nextPowerOfTwo length in
    let idx := (a + (length / 4) * 2 - 1)%nat in
    let '(data, random) := breakPatterns_step data a length idx 0 random modulus in
    let '(data, random) := breakPatterns_step data a length idx 1 random modulus in
    let '(data, random) := breakPatterns_step data a length idx 2 random modulus in
    data
  else data.

(** [order2_func] returns [x, y] with [data[x] <= data[y]] and counts a swap. *)
Definition order2_func (data : list A) (a b swaps : nat) : nat * nat * nat :=
  if Less data b a then (b, a, S swaps) else (a, b, swaps).

(** [median_func] returns the position of the median of three. *)
Definition median_func (data : list A) (a b c swaps : nat) : nat * nat :=
  let '(a, b, swaps) := order2_func data a b swaps in
  let '(b, c, swaps) := order2_func data b c swaps in
  let '(a, b, swaps) := order2_func data a b swaps in
  (b, swaps).

Definition medianAdjacent_func (data : list A) (a swaps : nat) : nat * nat :=
  median_func data (a - 1) a (a + 1) swaps.

Definition shortestNinther : nat := 50.
Definition maxSwaps : nat := 4 * 3.

(** [choosePivot_func] chooses a pivot in [data[a:b]]. *)
Definition choosePivot_func (data : list A) (a b : nat) : nat * sortedHint :=
  let l := (b - a)%nat in
  let swaps := O in
  let i := (a + l / 4 * 1)%nat in
  let j := (a + l / 4 * 2)%nat in
  let k := (a + l / 4 * 3)%nat in
  let '(j, swaps) :=
    if (8 <=? l)%nat then
      let '(i, j, k, swaps) :=
        if (shortestNinther <=? l)%nat then
          let '(i, swaps) := medianAdjacent_func data i swaps in
          let '(j, swaps) := medianAdjacent_func data j swaps in
          let '(k, swaps) := medianAdjacent_func data k swaps in
          (i, j, k, swaps)
        else (i, j, k, swaps) in
      median_func data i j k swaps
    else (j, swaps) in
  if (swaps =? 0)%nat then (j, increasingHint)
  else if (swaps =? maxSwaps)%nat then (j, decreasingHint)
  else (j, unknownHint).

(** [for i < j { data.Swap(i, j); i++; j-- }]. *)
Fixpoint reverseRange_loop (n : nat) (data : list A) (i j : nat) : list A :=
  match n with
  | O => data
  | S n' =>
      if (i <? j)%nat then reverseRange_loop n' (Swap data i j) (i + 1) (j - 1)
      else data
  end.

Definition reverseRange_func (data : list A) (a b : nat) : list A :=
  reverseRange_loop (b - a) data a (b - 1).

Definition maxInsertion : nat := 12.

(** [pdqsort_func] sorts [data[a:b]].  The [for { ... }] loop carries
    [wasBalanced] and [wasPartitioned]; a recursive call starts with both
    [true].  Every round on more than [maxInsertion] elements hands strictly
    shorter ranges to the recursive call and to the next round, so
    [fuel >= b - a] rounds are never used up. *)
Fixpoint pdqsort_loop (fuel : nat) (data : list A) (a b limit : nat)
    (wasBalanced wasPartitioned : bool) : list A :=
  let length := (b - a)%nat in
  if (length <=? maxInsertion)%nat then insertionSort_func data a b
  else if (limit =? 0)%nat then heapSort_func data a b
  else
    match fuel with
    | O => data
    | S fuel' =>
        let '(data, limit) :=
          if negb wasBalanced then (breakPatterns_func data a b, (limit - 1)%nat)
          else (data, limit) in
        let '(pivot, hint) := choosePivot_func data a b in
        let '(data, pivot, hint) :=
          if is_decreasing hint
          then (reverseRange_func data a b, (b - 1 - (pivot - a))%nat, increasingHint)
          else (data, pivot, hint) in
        let '(data, sorted) :=
          if wasBalanced && wasPartitioned && is_increasing hint
          then partialInsertionSort_func data a b
          else (data, false) in
        if sorted then data
        else if (0 <? a)%nat && negb (Less data (a - 1) pivot) then
          let '(data, mid) := partitionEqual_func data a b pivot in
          pdqsort_loop fuel' data mid b limit wasBalanced wasPartitioned
        else
          let '(data, mid, alreadyPartitioned) := partition_func data a b pivot in
          let wasPartitioned := alreadyPartitioned in
          let leftLen := (mid - a)%nat in
          let rightLen := (b - mid)%nat in
          let balanceThreshold := (length / 8)%nat in
          if (leftLen <? rightLen)%nat then
            let wasBalanced := (balanceThreshold <=? leftLen)%nat in
            let data := pdqsort_loop fuel' data a mid limit true true in
            pdqsort_loop fuel' data (mid + 1) b limit wasBalanced wasPartitioned
          else
            let wasBalanced := (balanceThreshold <=? rightLen)%nat in
            let data := pdqsort_loop fuel' data (mid + 1) b limit true true in
            pdqsort_loop fuel' data a mid limit wasBalanced wasPartitioned
    end.

Definition pdqsort_func (data : list A) (a b limit : nat) : list A :=
  pdqsort_loop (b - a) data a b limit true true.

(** [sort.Slice(x, less)]. *)
Definition Slice (x : list A) : list A :=
  let length := List.length x in
  let limit := bits_Len length in
  pdqsort_func x 0 length limit.
End lessSwap.

End sort.

Abbreviation Config := Config.t.
Abbreviation Server := Server.t.
Abbreviation PlayerBans := PlayerBans.t.

(** ** client.go *)

Definition GetPlayerBansURL (key steamids : string) : string :=
  "/ISteamUser/GetPlayerBans/v1?key=" +:+ key +:+ "&steamids=" +:+ steamids.

(** [fmt.Sprintf(GetServerListURL, key, limit, filter)]: [%s], [%d], [%s]. *)
Definition GetServerListURL (key : string) (limit : Z) (filter : string) : string :=
  "/IGameServersService/GetServerList/v1?key=" +:+ key
    +:+ "&limit=" +:+ Itoa limit +:+ "&filter=" +:+ filter.

(** An outbound request, as built by [http.NewRequestWithContext] from the
    method and the URL (the body is always [http.NoBody]). *)
Record Request : Type := {
  Method : string;
  RequestURI : string
}.

(** What the code reads of an [*http.Response]: the status, and the outcome of
    [io.ReadAll(res.Body)]. *)
Record Response : Type := {
  StatusCode : Z;
  Status : string;
  ReadAll : string * option string
}.

(** The world outside the process.  [NewRequest_error] is the validation of
    the method and URL by [http.NewRequestWithContext]; [Do] answers a request
    ([c.http.Do]) with Go's pair of a possibly-nil response and a possibly-nil
    error, and may depend on the requests issued before; the two [Unmarshal]
    fields are [json.Unmarshal] at the two response types.  The errors of
    these library calls are foreign to the package. *)
Record World : Type := {
  NewRequest_error : string -> string -> option string;
  Do : list Request -> Request -> option Response * option string;
  Unmarshal_GetPlayerBansResponse : string -> list PlayerBans * option string;
  Unmarshal_GetServerListResponse : string -> list Server * option string
}.

Definition StatusOK : Z := 200.
Definition MethodGet : string := "GET".

(** The [*http.Client] built by [NewClient]: the timeouts it was given. *)
Record HttpClient : Type := {
  http_Timeout : Z;
  http_Dialer : Dialer.t;
  http_TLSHandshakeTimeout : Z
}.

Record Client : Type := {
  config : Config;
  http : HttpClient
}.

(** The methods have a pointer receiver [c *Client]: the client is part of the
    state they run in, next to the log of the requests issued so far (oldest
    first). *)
Record State : Type := {
  self : Client;
  sent : list Request
}.

Definition IO (A : Type) : Type := State -> A * State.

#[global] Instance IO_ret : MRet IO := fun A (a : A) st => (a, st).

#[global] Instance IO_bind : MBind IO :=
  fun A B (f : A -> IO B) (m : IO A) st => let '(a, st') := m st in f a st'.

(** Read the receiver. *)
Definition this : IO Client := fun st => (self st, st).

(** Hand the request to the transport: it is logged and answered. *)
Definition http_Do (w : World) (req : Request) : IO (option Response * option string) :=
  fun st => (Do w (sent st) req, {| self := self st; sent := sent st ++ [req] |}).

(** [NewClient]: [cfg.SetDefaults()] updates the configuration in place, and
    the client keeps the pointer to it. *)
Definition NewClient (cfg : Config) : Client :=
  let cfg := Config.SetDefaults cfg in
  {| config := cfg;
     http := {| http_Timeout := Config.Timeout cfg;
                http_Dialer :=
                  Dialer.mk
                    (Dialer.Timeout (Transport.Dialer (Config.Transport cfg)))
                    (Dialer.Deadline (Transport.Dialer (Config.Transport cfg)))
                    (Dialer.FallbackDelay (Transport.Dialer (Config.Transport cfg)))
                    (Dialer.KeepAlive (Transport.Dialer (Config.Transport cfg)));
                http_TLSHandshakeTimeout :=
                  Transport.TLSHandshakeTimeout (Config.Transport cfg) |} |}.

(** [Client.sendRequest]; the result is Go's pair [([]byte, error)]. *)
Definition sendRequest (w : World) (method uri : string) : IO (string * option error) :=
  match NewRequest_error w method uri with
  | Some err => mret ("", Some (ErrForeign err))
  | None =>
      let req := {| Method := method; RequestURI := uri |} in
      r ← http_Do w req;
      match r with
      | (_, Some err) => mret ("", Some (ErrForeign err))
      | (None, None) => mret ("", Some ErrEmptyResponse)
      | (Some res, None) =>
          if negb (StatusCode res =? StatusOK)%Z
          then mret ("", Some (ErrWrongStatusCode (StatusCode res) (Status res)))
          else
            match ReadAll res with
            | (_, Some err) => mret ("", Some (ErrForeign err))
            | (resBody, None) => mret (resBody, None)
            end
      end
  end.

(** [Client.GetPlayerBans]. *)
Definition GetPlayerBans (w : World) (steamIDs : list string)
  : IO (list PlayerBans * option error) :=
  c ← this;
  if Config.Disabled (config c) then mret ([], None)
  else
    let uri := Config.URL (config c)
                 +:+ GetPlayerBansURL (Config.Key (config c)) (Join steamIDs ",") in
    r ← sendRequest w MethodGet uri;
    match r with
    | (_, Some err) => mret ([], Some err)
    | (body, None) =>
        match Unmarshal_GetPlayerBansResponse w body with
        | (_, Some err) => mret ([], Some (ErrForeign err))
        | (players, None) => mret (players, None)
        end
    end.

(** The inner loop of [filterServers] over the default names: the [continue]
    after a match continues this same loop, so every name is compared. *)
Definition defaultNames_loop (names : list string) (server : Server)
    (removeAddrs : gmap string bool) : gmap string bool :=
  foldl (fun removeAddrs name =>
           if String.eqb (Server.Name server) name
           then <[Server.Addr server := true]> removeAddrs
           else removeAddrs)
        removeAddrs names.

(** One round of [for i := range servers] in [filterServers]. *)
Definition removeAddrs_step (c : Client) (filter : GetServerListFilter)
    (removeAddrs : gmap string bool) (server : Server) : gmap string bool :=
  if NoHidden filter && Contains (Server.GameType server) "hidden"
  then <[Server.Addr server := true]> removeAddrs
  else if NoDefaultServers filter
  then defaultNames_loop (Config.DefaultServerNames (config c)) server removeAddrs
  else removeAddrs.

(** The map [removeAddrs] after the loop over the servers. *)
Definition removeAddrs_of (c : Client) (filter : GetServerListFilter)
    (servers : list Server) : gmap string bool :=
  foldl (removeAddrs_step c filter) ∅ servers.

(** [Client.removeFilteredServers]: [result] grows by [append]. *)
Definition removeFilteredServers (c : Client) (servers : list Server)
    (addrs : gmap string bool) : list Server :=
  foldl (fun result server =>
           match addrs !! Server.Addr server with
           | Some _ => result
           | None => result ++ [server]
           end)
        [] servers.

(** The [less] closure of [filterServers] on the two elements it indexes. *)
Definition morePlayers (x y : Server) : bool :=
  (Server.Players x >? Server.Players y)%Z.

(** [Client.filterServers]. *)
Definition filterServers (c : Client) (servers : list Server)
    (filter : GetServerListFilter) : list Server :=
  let servers :=
    if NoHidden filter || NoDefaultServers filter
    then removeFilteredServers c servers (removeAddrs_of c filter servers)
    else servers in
  sort.Slice morePlayers servers.

(** The request URL of [GetServerList]: the effective limit is the filter's
    own, or [DefaultLimit] when that is zero. *)
Definition GetServerList_uri (c : Client) (filter : GetServerListFilter) : string :=
  let limit := Limit filter in
  let limit := if (limit =? 0)%Z then DefaultLimit else limit in
  Config.URL (config c) +:+ GetServerListURL (Config.Key (config c)) limit (String_ filter).

(** [Client.GetServerList]. *)
Definition GetServerList (w : World) (filter : GetServerListFilter)
  : IO (list Server * option error) :=
  c ← this;
  if Config.Disabled (config c) then mret ([], None)
  else
    let uri := GetServerList_uri c filter in
    r ← sendRequest w MethodGet uri;
    match r with
    | (_, Some err) => mret ([], Some err)
    | (body, None) =>
        match Unmarshal_GetServerListResponse w body with
        | (_, Some err) => mret ([], Some (ErrForeign err))
        | (servers, None) => mret (filterServers c servers filter, None)
        end
    end.

(** ** The simplified custom-filter pass of the specification

    The variant that leaves the loop over the default names at the first
    match, to be compared with [defaultNames_loop]. *)
Fixpoint defaultNames_loop_break (names : list string) (server : Server)
    (removeAddrs : gmap string bool) : gmap string bool :=
  match names with
  | [] => removeAddrs
  | name :: names' =>
      if String.eqb (Server.Name server) name
      then <[Server.Addr server := true]> removeAddrs
      else defaultNames_loop_break names' server removeAddrs
  end.

Definition removeAddrs_step_break (c : Client) (filter : GetServerListFilter)
    (removeAddrs : gmap string bool) (server : Server) : gmap string bool :=
  if NoHidden filter && Contains (Server.GameType server) "hidden"
  then <[Server.Addr server := true]> removeAddrs
  else if NoDefaultServers filter
  then defaultNames_loop_break (Config.DefaultServerNames (config c)) server removeAddrs
  else removeAddrs.

Definition removeAddrs_of_break (c : Client) (filter : GetServerListFilter)
    (servers : list Server) : gmap string bool :=
  foldl (removeAddrs_step_break c filter) ∅ servers.

Definition filterServers_break (c : Client) (servers : list Server)
    (filter : GetServerListFilter) : list Server :=
  let servers :=
    if NoHidden filter || NoDefaultServers filter
    then removeFilteredServers c servers (removeAddrs_of_break c filter servers)
    else servers in
  sort.Slice morePlayers servers.

(** ** Definitions used by the statements below *)

(** [\key\1] (or any fixed segment) when the flag is set. *)
Definition seg_if (cond : bool) (seg : string) : list string :=
  if cond then [seg] else [].

(** The optional segments [String_] appends after the [appid] segment, in the
    order of its [if] statements. *)
Definition optional_segments (g : GetServerListFilter) : list string :=
  seg_if (Dedicated g) "\dedicated\1" ++
  seg_if (Secure g) "\secure\1" ++
  seg_if (nonempty (GameDir g)) ("\gamedir\" +:+ GameDir g) ++
  seg_if (nonempty (Map g)) ("\map\" +:+ Map g) ++
  seg_if (Linux g) "\linux\1" ++
  seg_if (NoPassword g) "\password\0" ++
  seg_if (NotEmpty g) "\empty\1" ++
  seg_if (NotFull g) "\full\1" ++
  seg_if (Proxy g) "\proxy\1" ++
  seg_if (negb (NotAppID g =? 0)%Z) ("\napp\" +:+ Itoa (NotAppID g)) ++
  seg_if (NoPlayers g) "\noplayers\1" ++
  seg_if (Whitelisted g) "\white\1" ++
  seg_if (nonnil (GameTypeTags g)) ("\gametype\" +:+ Join (GameTypeTags g) ";") ++
  seg_if (nonnil (GameDataTags g)) ("\gamedata\" +:+ Join (GameDataTags g) ",") ++
  seg_if (nonnil (GameDataOrTags g)) ("\gamedataor\" +:+ Join (GameDataOrTags g) ",") ++
  seg_if (nonempty (NameMatch g)) ("\name_match\*" +:+ NameMatch g +:+ "*").

(** Concatenation of a list of strings. *)
Fixpoint concat_strings (l : list string) : string :=
  match l with
  | [] => ""
  | s :: l' => s +:+ concat_strings l'
  end.

(** Replace the five upstream fields that [String_] never reads. *)
Definition with_unencoded (g : GetServerListFilter) (notOr notAnd : list string)
    (versionMatch : string) (collapseAddrHash : bool) (gameAddr : string)
  : GetServerListFilter :=
  {| NotOr := notOr; NotAnd := notAnd; Dedicated := Dedicated g; Secure := Secure g;
     GameDir := GameDir g; Map := Map g; Linux := Linux g; NoPassword := NoPassword g;
     NotEmpty := NotEmpty g; NotFull := NotFull g; Proxy := Proxy g; AppID := AppID g;
     NotAppID := NotAppID g; NoPlayers := NoPlayers g; Whitelisted := Whitelisted g;
     GameTypeTags := GameTypeTags g; GameDataTags := GameDataTags g;
     GameDataOrTags := GameDataOrTags g; NameMatch := NameMatch g;
     VersionMatch := versionMatch; CollapseAddrHash := collapseAddrHash;
     GameAddr := gameAddr; NoHidden := NoHidden g;
     NoDefaultServers := NoDefaultServers g; Limit := Limit g |}.

(** Set the two custom filters of a filter. *)
Definition with_custom (g : GetServerListFilter) (noHidden noDefaultServers : bool)
  : GetServerListFilter :=
  {| NotOr := NotOr g; NotAnd := NotAnd g; Dedicated := Dedicated g; Secure := Secure g;
     GameDir := GameDir g; Map := Map g; Linux := Linux g; NoPassword := NoPassword g;
     NotEmpty := NotEmpty g; NotFull := NotFull g; Proxy := Proxy g; AppID := AppID g;
     NotAppID := NotAppID g; NoPlayers := NoPlayers g; Whitelisted := Whitelisted g;
     GameTypeTags := GameTypeTags g; GameDataTags := GameDataTags g;
     GameDataOrTags := GameDataOrTags g; NameMatch := NameMatch g;
     VersionMatch := VersionMatch g; CollapseAddrHash := CollapseAddrHash g;
     GameAddr := GameAddr g; NoHidden := noHidden;
     NoDefaultServers := noDefaultServers; Limit := Limit g |}.

(** *** The fixtures of [client_test.go] *)

Definition zeroDialer : Dialer.t := Dialer.mk 0 0 0 0.
Definition zeroTransport : Transport.t := Transport.mk zeroDialer 0.

(** [newConfig(uri)]. *)
Definition newConfig (uri : string) : Config :=
  Config.mk false "R1jamSsz17LHA9WgDW099YGfCs4fn0m0" uri 0 zeroTransport 0
            ["My PZ Server"].

(** A Project Zomboid server as in the test response; the fields the code
    never reads are those of the test. *)
Definition pzServer (addr : string) (port : Z) (steamid name : string)
    (players maxPlayers : Z) (map : string) (secure : bool) (os gametype : string)
  : Server :=
  Server.mk addr port steamid name 108600 "zomboid" "1.0.0.0" "zomboid" (-1)
            players maxPlayers 0 map secure true os gametype.

Definition srv1 : Server :=
  pzServer "127.0.0.1:16261" 16261 "90268762852129810" "My PZ Server" 2 32
           "" true "w" "hidden;hosted".
Definition srv2 : Server :=
  pzServer "127.0.0.2:16267" 16267 "90268762793969688" "Super Server" 0 10
           "vehicle_interior;SecretZ_v4;InG" false "w" "".
Definition srv3 : Server :=
  pzServer "127.0.0.3:16260" 16260 "90268200350011416" "Best Server" 9 30
           "Muldraugh, KY" true "l" "".
Definition srv4 : Server :=
  pzServer "127.0.0.4:16261" 16261 "90268799310246930" "My PZ Server" 13 32
           "Muldraugh, KY" true "w" "hidden;hosted".
Definition srv5 : Server :=
  pzServer "127.0.0.5:16261" 16261 "90268762155669518" "My PZ Server" 2 2
           "Muldraugh, KY" true "w" "hidden;hosted".

(** The servers of the test response, in the order of the JSON array. *)
Definition testServers : list Server := [srv1; srv2; srv3; srv4; srv5].

(** A remote endpoint that answers every request with the given status and
    body, and whose server-list body decodes to [servers]. *)
Definition fixedWorld (code : Z) (status body : string) (servers : list Server)
  : World :=
  {| NewRequest_error := fun _ _ => None;
     Do := fun _ _ =>
       (Some {| StatusCode := code; Status := status; ReadAll := (body, None) |}, None);
     Unmarshal_GetPlayerBansResponse := fun _ => ([], None);
     Unmarshal_GetServerListResponse := fun _ => (servers, None) |}.

(** The [httptest] server of [TestClient_GetServerList]. *)
Definition testWorld (servers : list Server) : World :=
  fixedWorld 200 "200 OK" "{}" servers.

(** A fresh client on [cfg], with no request issued yet. *)
Definition initState (cfg : Config) : State :=
  {| self := NewClient cfg; sent := [] |}.

(** *** The five servers of the end-to-end example: counts 2, 0, 9, 13, 2, the
    empty one carrying the configured default name. *)
Definition exServer (addr name : string) (players : Z) : Server :=
  pzServer addr 16261 "0" name players 32 "" true "l" "".

Definition exampleServers : list Server :=
  [exServer "10.0.0.1:1" "Alpha" 2; exServer "10.0.0.2:1" "My PZ Server" 0;
   exServer "10.0.0.3:1" "Gamma" 9; exServer "10.0.0.4:1" "Delta" 13;
   exServer "10.0.0.5:1" "Epsilon" 2].

(** *** Thirteen servers: twelve empty ones and a last one with one player. *)
Definition tieServers : list Server :=
  map (fun a => exServer a "Tie" 0)
      ["a00"; "a01"; "a02"; "a03"; "a04"; "a05"; "a06"; "a07"; "a08"; "a09";
       "a10"; "a11"]
  ++ [exServer "a12" "Tie" 1].

(** *** Stable insertion sort, as a function on lists

    [insert_back less x rp] inserts [x], coming from the right, into the
    reversed prefix [rp]: it passes every element it is [less] than and stops
    at the first one it is not. *)
Fixpoint insert_back {A : Type} (less : A -> A -> bool) (x : A) (rp : list A) : list A :=
  match rp with
  | [] => [x]
  | y :: rp' => if less x y then y :: insert_back less x rp' else x :: y :: rp'
  end.

Definition insertion_sorted {A : Type} (less : A -> A -> bool) (l : list A) : list A :=
  rev (foldl (fun rp x => insert_back less x rp) [] l).

(** The servers of a list with exactly [n] players, in list order. *)
Definition with_players (n : Z) (l : list Server) : list Server :=
  List.filter (fun s => (Server.Players s =? n)%Z) l.

(** A server falls under an active custom filter. *)
Definition matches_custom (c : Client) (filter : GetServerListFilter) (s : Server) : Prop :=
  (NoHidden filter = true /\
   exists pre post, Server.GameType s = pre +:+ "hidden" +:+ post) \/
  (NoDefaultServers filter = true /\
   Server.Name s ∈ Config.DefaultServerNames (config c)).

(** The zero filter with the application identifier set. *)
Definition appFilter (appid : Z) : GetServerListFilter := {|
  NotOr := []; NotAnd := []; Dedicated := false; Secure := false;
  GameDir := ""; Map := ""; Linux := false; NoPassword := false;
  NotEmpty := false; NotFull := false; Proxy := false; AppID := appid;
  NotAppID := 0; NoPlayers := false; Whitelisted := false;
  GameTypeTags := []; GameDataTags := []; GameDataOrTags := [];
  NameMatch := ""; VersionMatch := ""; CollapseAddrHash := false;
  GameAddr := ""; NoHidden := false; NoDefaultServers := false; Limit := 0
|}.

(** A client whose configuration has [Disabled] set, before any request. *)
Definition disabledState : State :=
  initState (Config.mk true "" "" 0 zeroTransport 0 []).

(** The state of the tests: a client on [newConfig] of a local test server. *)
Definition testState : State := initState (newConfig "http://127.0.0.1:8080").

(** A server falls under an active custom filter, as the loop tests it. *)
Definition matches_customb (c : Client) (filter : GetServerListFilter) (s : Server) : bool :=
  NoHidden filter && Contains (Server.GameType s) "hidden"
  || NoDefaultServers filter
     && bool_decide (Server.Name s ∈ Config.DefaultServerNames (config c)).

(** The servers left by the exclusion step, before sorting. *)
Definition kept (c : Client) (servers : list Server) (filter : GetServerListFilter)
  : list Server :=
  if NoHidden filter || NoDefaultServers filter
  then removeFilteredServers c servers (removeAddrs_of c filter servers)
  else servers.

(** Sorted by player count, descending. *)
Definition descending (l : list Server) : Prop :=
  StronglySorted (fun x y => (Server.Players y <= Server.Players x)%Z) l.

(** Servers with equal player counts are in the same relative order in both
    lists. *)
Definition ties_in_order (l l' : list Server) : Prop :=
  forall n, with_players n l = with_players n l'.

(** *** Two servers behind one address, one of them with the default name. *)
Definition twinDefault : Server := exServer "10.0.0.9:1" "My PZ Server" 3.
Definition twinNamed : Server := exServer "10.0.0.9:1" "Omega" 7.
Definition twinServers : list Server :=
  [twinDefault; exServer "10.0.0.3:1" "Gamma" 9; twinNamed].

(** The number a string of decimal digits denotes, after the digits [acc]
    already read. *)
Fixpoint decimal_value (s : string) (acc : N) : N :=
  match s with
  | EmptyString => acc
  | String c s' => decimal_value s' (10 * acc + (N_of_ascii c - 48))%N
  end.

(** The integer a decimal string with an optional leading [-] denotes. *)
Definition signed_decimal_value (s : string) : Z :=
  match s with
  | EmptyString => 0
  | String c s' =>
      if Ascii.eqb c "-" then - Z.of_N (decimal_value s' 0)
      else Z.of_N (decimal_value s 0)
  end.

(** The key of the element at a position (0 out of range). *)
Definition kat {A : Type} (key : A -> Z) (data : list A) (i : nat) : Z :=
  match data !! i with
  | Some x => key x
  | None => 0
  end.

(** The positions [a, b) hold keys in non-decreasing order. *)
Definition sorted_range {A : Type} (key : A -> Z) (data : list A) (a b : nat) : Prop :=
  forall i j, (a <= i)%nat -> (i <= j)%nat -> (j < b)%nat ->
              kat key data i <= kat key data j.

(** [data'] is [data] with the positions [a, b) permuted. *)
Definition same_range {A : Type} (data data' : list A) (a b : nat) : Prop :=
  data' ≡ₚ data /\ forall k, (k < a)%nat \/ (b <= k)%nat -> data' !! k = data !! k.

(** Every element at a position of [a, b) satisfies [P]. *)
Definition range_all {A : Type} (data : list A) (a b : nat) (P : A -> Prop) : Prop :=
  forall k x, (a <= k)%nat -> (k < b)%nat -> data !! k = Some x -> P x.

(** The state of a partition around the pivot key [p] kept at position [a]:
    the positions of (a, i) hold smaller keys and those of (j, b) keys that
    are not smaller. *)
Definition part_inv {A : Type} (key : A -> Z) (data : list A) (a b : nat) (p : Z)
    (i j : nat) : Prop :=
  (a < i)%nat /\ (i <= j + 1)%nat /\ (j < b)%nat /\ (b <= length data)%nat /\
  kat key data a = p /\
  (forall k, (a < k)%nat -> (k < i)%nat -> kat key data k < p) /\
  (forall k, (j < k)%nat -> (k < b)%nat -> p <= kat key data k).

(** The partition is complete: (a, j] holds smaller keys, (j, b) the others. *)
Definition part_post {A : Type} (key : A -> Z) (data : list A) (a b : nat) (p : Z)
    (j : nat) : Prop :=
  (a <= j)%nat /\ (j < b)%nat /\ (b <= length data)%nat /\
  kat key data a = p /\
  (forall k, (a < k)%nat -> (k <= j)%nat -> kat key data k < p) /\
  (forall k, (j < k)%nat -> (k < b)%nat -> p <= kat key data k).

(** The state of a partition into the keys equal to the pivot key [p] (kept at
    position [a]) and the larger ones: the positions of (a, i) hold keys that
    are not larger and those of (j, b) larger keys. *)
Definition parteq_inv {A : Type} (key : A -> Z) (data : list A) (a b : nat) (p : Z)
    (i j : nat) : Prop :=
  (a < i)%nat /\ (i <= j + 1)%nat /\ (j < b)%nat /\ (b <= length data)%nat /\
  kat key data a = p /\
  (forall k, (a < k)%nat -> (k < i)%nat -> kat key data k <= p) /\
  (forall k, (j < k)%nat -> (k < b)%nat -> p < kat key data k).

Definition parteq_post {A : Type} (key : A -> Z) (data : list A) (a b : nat) (p : Z)
    (i : nat) : Prop :=
  (a < i)%nat /\ (i <= b)%nat /\ (b <= length data)%nat /\
  kat key data a = p /\
  (forall k, (a < k)%nat -> (k < i)%nat -> kat key data k <= p) /\
  (forall k, (i <= k)%nat -> (k < b)%nat -> p < kat key data k).

(** The element before the range, if any, is not larger than any element of
    the range. *)
Definition lower_bounded {A : Type} (key : A -> Z) (data : list A) (a b : nat) : Prop :=
  (0 < a)%nat ->
  forall k, (a <= k)%nat -> (k < b)%nat -> kat key data (a - 1) <= kat key data k.

(** [c] is a child of the node [i] of the implicit binary heap. *)
Definition heap_child (c i : nat) : Prop :=
  c = (2 * i + 1)%nat \/ c = (2 * i + 2)%nat.

(** The nodes from [lo] on of the heap laid out at [first .. first + hi) are
    not smaller than their children. *)
Definition heap_from {A : Type} (key : A -> Z) (data : list A) (first lo hi : nat)
  : Prop :=
  forall i c, (lo <= i)%nat -> (c < hi)%nat -> heap_child c i ->
              kat key data (first + c) <= kat key data (first + i).

(** A filter with most of the encoded fields set, and some of the others. *)
Definition sampleFilter : GetServerListFilter := {|
  NotOr := []; NotAnd := []; Dedicated := true; Secure := false;
  GameDir := "zomboid"; Map := ""; Linux := false; NoPassword := true;
  NotEmpty := false; NotFull := true; Proxy := false; AppID := 108600;
  NotAppID := 500; NoPlayers := false; Whitelisted := false;
  GameTypeTags := ["a"; "b"]; GameDataTags := ["c"; "d"];
  GameDataOrTags := ["e"]; NameMatch := "PZ"; VersionMatch := "";
  CollapseAddrHash := false; GameAddr := ""; NoHidden := true;
  NoDefaultServers := false; Limit := 7
|}.

(** Every field that [Config.SetDefaults] fills holds a value of its own. *)
Definition fully_specified (cfg : Config) : Prop :=
  Config.URL cfg <> "" /\
  Config.Timeout cfg <> 0 /\
  Transport.TLSHandshakeTimeout (Config.Transport cfg) <> 0 /\
  Dialer.Timeout (Transport.Dialer (Config.Transport cfg)) <> 0 /\
  Config.Limit cfg <> 0.

(** The client of a state with [Config.Limit] replaced. *)
Definition with_config_Limit (st : State) (limit : Z) : State :=
  let cfg := config (self st) in
  {| self := {| config := Config.mk (Config.Disabled cfg) (Config.Key cfg)
                            (Config.URL cfg) (Config.Timeout cfg)
                            (Config.Transport cfg) limit
                            (Config.DefaultServerNames cfg);
                http := http (self st) |};
     sent := sent st |}.

(** A configuration with every defaulted field set by the caller, two of them
    to negative values. *)
Definition customConfig : Config :=
  Config.mk false "k" "http://localhost" (-1)
            (Transport.mk (Dialer.mk 7 0 0 0) (-3)) 10 [].

(** Two ban records, as a response of [GetPlayerBans] decodes to. *)
Definition sampleBans : list PlayerBans :=
  [PlayerBans.mk "76561198000000001" false true 1 250 0 "none";
   PlayerBans.mk "76561198000000002" false false 0 0 0 "none"].

(** A remote endpoint that answers every request with [200 OK] and a body
    that decodes to [players]. *)
Definition bansWorld (players : list PlayerBans) : World :=
  {| NewRequest_error := fun _ _ => None;
     Do := fun _ _ =>
       (Some {| StatusCode := 200; Status := "200 OK"; ReadAll := ("{}", None) |}, None);
     Unmarshal_GetPlayerBansResponse := fun _ => (players, None);
     Unmarshal_GetServerListResponse := fun _ => ([], None) |}.

(** The outcome of a public operation is an error of the transport, of the
    decoder or of the status check: a foreign error, the empty-response error,
    or the wrong-status-code error with a code other than 200. *)
Definition request_error (e : error) : Prop :=
  (exists msg, e = ErrForeign msg) \/
  e = ErrEmptyResponse \/
  (exists code status, e = ErrWrongStatusCode code status /\ code <> 200).

(** Fourteen servers in descending order of player count, with ties; the
    second and the last one carry the default name and two are hidden. *)
Definition rankedServers : list Server :=
  [exServer "r00" "Top" 40; exServer "r01" "My PZ Server" 31;
   exServer "r02" "C" 31; exServer "r03" "D" 20;
   pzServer "r04" 16261 "0" "E" 20 32 "" true "l" "hidden;hosted";
   exServer "r05" "F" 20; exServer "r06" "G" 9; exServer "r07" "H" 9;
   exServer "r08" "I" 5; exServer "r09" "J" 5;
   pzServer "r10" 16261 "0" "K" 5 32 "" true "l" "pvp;hidden";
   exServer "r11" "L" 2; exServer "r12" "M" 0; exServer "r13" "My PZ Server" 0].

(** Set the [GameDir] and [Map] fields of a filter. *)
Definition with_GameDir_Map (g : GetServerListFilter) (gameDir map : string)
  : GetServerListFilter :=
  {| NotOr := NotOr g; NotAnd := NotAnd g; Dedicated := Dedicated g; Secure := Secure g;
     GameDir := gameDir; Map := map; Linux := Linux g; NoPassword := NoPassword g;
     NotEmpty := NotEmpty g; NotFull := NotFull g; Proxy := Proxy g; AppID := AppID g;
     NotAppID := NotAppID g; NoPlayers := NoPlayers g; Whitelisted := Whitelisted g;
     GameTypeTags := GameTypeTags g; GameDataTags := GameDataTags g;
     GameDataOrTags := GameDataOrTags g; NameMatch := NameMatch g;
     VersionMatch := VersionMatch g; CollapseAddrHash := CollapseAddrHash g;
     GameAddr := GameAddr g; NoHidden := NoHidden g;
     NoDefaultServers := NoDefaultServers g; Limit := Limit g |}.

(** No byte of the string is a backslash. *)
Fixpoint no_backslash (s : string) : Prop :=
  match s with
  | EmptyString => True
  | String c s' => c <> "\"%char /\ no_backslash s'
  end.

(** The string is empty or begins with a backslash. *)
Definition segment_start (s : string) : Prop :=
  s = "" \/ exists r, s = String "\"%char r.

(** The servers of [tieServers] in the order a stable sort gives: the one
    with a player first, then the empty ones in their input order. *)
Definition tieServers_stable : list Server :=
  exServer "a12" "Tie" 1 ::
  map (fun a => exServer a "Tie" 0)
      ["a00"; "a01"; "a02"; "a03"; "a04"; "a05"; "a06"; "a07"; "a08"; "a09";
       "a10"; "a11"].

(** * Properties *)

(** ** Strings *)

Lemma append_cons (c : ascii) (s1 s2 : string) :
  String c s1 +:+ s2 = String c (s1 +:+ s2).
Proof. reflexivity. Qed.

Lemma append_empty_l (s : string) : "" +:+ s = s.
Proof. reflexivity. Qed.

Lemma append_assoc (s1 s2 s3 : string) : (s1 +:+ s2) +:+ s3 = s1 +:+ (s2 +:+ s3).
Proof.
  induction s1 as [|c s1 IH]; [reflexivity |].
  rewrite !append_cons. f_equal. exact IH.
Qed.

Lemma append_empty_r (s : string) : s +:+ "" = s.
Proof.
  induction s as [|c s IH]; [reflexivity |].
  rewrite append_cons. f_equal. exact IH.
Qed.

Lemma concat_strings_app (l1 l2 : list string) :
  concat_strings (l1 ++ l2) = concat_strings l1 +:+ concat_strings l2.
Proof.
  induction l1 as [|s l1 IH]; cbn [concat_strings app]; [reflexivity |].
  now rewrite IH, append_assoc.
Qed.

Lemma add_if_seg (cond : bool) (seg query : string) :
  add_if cond seg query = query +:+ concat_strings (seg_if cond seg).
Proof.
  destruct cond; cbn [add_if seg_if concat_strings]; now rewrite !append_empty_r.
Qed.

Lemma HasPrefix_spec (s prefix : string) :
  HasPrefix s prefix = true <-> exists post, s = prefix +:+ post.
Proof.
  revert s. induction prefix as [|p prefix IH]; intros s; cbn [HasPrefix].
  - split; [intros _; now exists s | reflexivity].
  - destruct s as [|c s].
    + split; [discriminate | intros [post H]; discriminate].
    + rewrite andb_true_iff, IH. split.
      * intros [Hc [post ->]]. apply Ascii.eqb_eq in Hc as ->. now exists post.
      * intros [post H]. rewrite append_cons in H. injection H as -> ->.
        split; [apply Ascii.eqb_refl | now exists post].
Qed.

(** [strings.Contains(s, substr)] holds exactly when [substr] occurs in [s]. *)
Lemma Contains_spec (s substr : string) :
  Contains s substr = true <-> exists pre post, s = pre +:+ substr +:+ post.
Proof.
  induction s as [|c s IH]; cbn [Contains].
  - rewrite orb_false_r, HasPrefix_spec. split.
    + intros [post H]. now exists "", post.
    + intros [pre [post H]]. destruct pre; [now exists post | discriminate].
  - rewrite orb_true_iff, HasPrefix_spec, IH. split.
    + intros [[post H] | [pre [post H]]].
      * now exists "", post.
      * exists (String c pre), post. rewrite append_cons. now rewrite H.
    + intros [pre [post H]]. destruct pre as [|d pre].
      * left. now exists post.
      * right. rewrite append_cons in H. injection H as -> ->. now exists pre, post.
Qed.

(** ** Decimal rendering *)

Lemma digit_char_value (n : N) : (n < 10)%N -> (N_of_ascii (digit_char n) - 48 = n)%N.
Proof.
  intros H. unfold digit_char. rewrite N_ascii_embedding; lia.
Qed.

Lemma digit_char_not_minus (n : N) : (n < 10)%N -> digit_char n <> "-"%char.
Proof.
  intros H Heq. apply (f_equal N_of_ascii) in Heq.
  unfold digit_char in Heq. rewrite N_ascii_embedding in Heq by lia.
  cbn in Heq. lia.
Qed.

Lemma decimal_value_digits (fuel : nat) (n : N) (acc : string) (v : N) :
  (n < 2 ^ N.of_nat fuel)%N ->
  decimal_value (digits fuel n acc) 0 = decimal_value acc n.
Proof.
  revert n acc. induction fuel as [|fuel IH]; intros n acc Hn.
  - cbn in Hn. assert (n = 0%N) as -> by lia. reflexivity.
  - cbn [digits]. pose proof (N.mod_lt n 10 ltac:(lia)) as Hmod.
    pose proof (N.div_mod n 10 ltac:(lia)) as Hdiv.
    destruct (N.eqb_spec (n / 10) 0) as [Hz|Hnz].
    + cbn [decimal_value]. rewrite digit_char_value by exact Hmod.
      f_equal. lia.
    + rewrite IH.
      * cbn [decimal_value]. rewrite digit_char_value by exact Hmod. f_equal. lia.
      * rewrite Nat2N.inj_succ, N.pow_succ_r' in Hn.
        apply N.Div0.div_lt_upper_bound. lia.
Qed.

Lemma digits_head_not_minus (fuel : nat) (n : N) (acc : string) :
  (0 < n)%N -> (n < 2 ^ N.of_nat fuel)%N ->
  exists c s, digits fuel n acc = String c s /\ c <> "-"%char.
Proof.
  revert n acc. induction fuel as [|fuel IH]; intros n acc Hpos Hn.
  - cbn in Hn. lia.
  - cbn [digits]. pose proof (N.mod_lt n 10 ltac:(lia)) as Hmod.
    destruct (N.eqb_spec (n / 10) 0) as [Hz|Hnz].
    + eexists _, _. split; [reflexivity | now apply digit_char_not_minus].
    + apply IH; [now apply N.neq_0_lt_0 |].
      rewrite Nat2N.inj_succ, N.pow_succ_r' in Hn.
      apply N.Div0.div_lt_upper_bound. lia.
Qed.

Lemma pos_lt_pow_size (p : positive) : (N.pos p < 2 ^ N.of_nat (Pos.size_nat p))%N.
Proof.
  induction p as [p IH|p IH|]; cbn [Pos.size_nat];
    rewrite ?Nat2N.inj_succ, ?N.pow_succ_r'; [lia | lia | reflexivity].
Qed.

(** [Itoa] renders the decimal numeral of its argument: reading the numeral
    back gives the argument. *)
Lemma Itoa_value (i : Z) : signed_decimal_value (Itoa i) = i.
Proof.
  destruct i as [|p|p]; [reflexivity | |].
  - unfold Itoa.
    destruct (digits_head_not_minus (Pos.size_nat p) (N.pos p) "" ltac:(lia)
                (pos_lt_pow_size p)) as [c [s [Hd Hc]]].
    pose proof (decimal_value_digits (Pos.size_nat p) (N.pos p) "" 0
                  (pos_lt_pow_size p)) as Hv.
    rewrite Hd in *. unfold signed_decimal_value.
    destruct (Ascii.eqb_spec c "-"%char) as [->|_]; [contradiction |].
    now rewrite Hv.
  - unfold Itoa. rewrite append_cons, append_empty_l. unfold signed_decimal_value.
    rewrite (decimal_value_digits _ _ _ 0 (pos_lt_pow_size p)). reflexivity.
Qed.

(** ** The filter encoder *)

Example Itoa_samples :
  Itoa 0 = "0" /\ Itoa 108600 = "108600" /\ Itoa (-42) = "-42" /\ Itoa 50000 = "50000".
Proof. repeat split; reflexivity. Qed.

Example Contains_samples :
  Contains "hidden;hosted" "hidden" = true /\ Contains "hosted;hidden" "hidden" = true /\
  Contains "hosted" "hidden" = false /\ Contains "" "hidden" = false.
Proof. repeat split; reflexivity. Qed.

Example String_sample :
  String_ sampleFilter
  = "\appid\108600\dedicated\1\gamedir\zomboid\password\0\full\1\napp\500\gametype\a;b\gamedata\c,d\gamedataor\e\name_match\*PZ*".
Proof. vm_compute. reflexivity. Qed.

(** The encoding is the [appid] segment followed by the optional segments. *)
Lemma String_segments (g : GetServerListFilter) :
  String_ g = "\appid\" +:+ Itoa (AppID g) +:+ concat_strings (optional_segments g).
Proof.
  unfold String_, optional_segments.
  rewrite !add_if_seg, !concat_strings_app, !append_assoc. reflexivity.
Qed.

(** The custom filters and the limit are never encoded. *)
Lemma String_custom_fields (g : GetServerListFilter) (noHidden noDefault : bool) :
  String_ (with_custom g noHidden noDefault) = String_ g.
Proof. destruct g. reflexivity. Qed.

(** C1: the encoder never emits a segment for the upstream fields [NotOr],
    [NotAnd], [VersionMatch], [CollapseAddrHash] and [GameAddr]: whatever their
    values the encoding is that of the other fields; a filter for application
    108600 with [VersionMatch] set to 1.0.0.0 encodes to the [appid] segment
    alone, without a [version_match] segment. *)
Theorem String_drops_upstream_fields :
  (forall g notOr notAnd versionMatch collapseAddrHash gameAddr,
     String_ (with_unencoded g notOr notAnd versionMatch collapseAddrHash gameAddr)
     = String_ g) /\
  String_ (with_unencoded (appFilter 108600) [] [] "1.0.0.0" false "")
  = "\appid\108600" /\
  String_ (with_unencoded (appFilter 108600) ["x"] ["y"] "1.0.0.0" true "10.0.0.1")
  = "\appid\108600".
Proof.
  split; [| split].
  - intros g notOr notAnd versionMatch collapseAddrHash gameAddr.
    destruct g. reflexivity.
  - vm_compute. reflexivity.
  - vm_compute. reflexivity.
Qed.

(** ** Configuration defaults *)

(** The configuration after [SetDefaults], field by field. *)
Lemma SetDefaults_eq (dis : bool) (key url : string) (tmo dt dd df dk tls lim : Z)
    (names : list string) :
  Config.SetDefaults
    (Config.mk dis key url tmo (Transport.mk (Dialer.mk dt dd df dk) tls) lim names)
  = Config.mk dis key
      (if String.eqb url "" then DefaultSteamURL else url)
      (if (tmo =? 0)%Z then DefaultTimeout else tmo)
      (Transport.mk
         (Dialer.mk (if (dt =? 0)%Z then DefaultDialerTimeout else dt) dd df dk)
         (if (tls =? 0)%Z then DefaultTLSHandshakeTimeout else tls))
      (if (lim =? 0)%Z then DefaultLimit else lim)
      names.
Proof. destruct url, tmo, tls, dt, lim; reflexivity. Qed.

Lemma SetDefaults_idempotent (cfg : Config) :
  Config.SetDefaults (Config.SetDefaults cfg) = Config.SetDefaults cfg.
Proof.
  destruct cfg as [dis key url tmo [[dt dd df dk] tls] lim names].
  rewrite !SetDefaults_eq.
  destruct (String.eqb url "") eqn:Hu, (tmo =? 0)%Z eqn:Ht, (tls =? 0)%Z eqn:Hl,
    (dt =? 0)%Z eqn:Hd, (lim =? 0)%Z eqn:Hm;
    cbn; rewrite ?Hu, ?Ht, ?Hl, ?Hd, ?Hm; reflexivity.
Qed.

(** ** The request operations *)

(** [sendRequest] and [GetServerList] as plain functions of the state. *)
Lemma sendRequest_unfold (w : World) (method uri : string) (st : State) :
  sendRequest w method uri st =
  match NewRequest_error w method uri with
  | Some err => (("", Some (ErrForeign err)), st)
  | None =>
      let req := {| Method := method; RequestURI := uri |} in
      let st' := {| self := self st; sent := sent st ++ [req] |} in
      match Do w (sent st) req with
      | (_, Some err) => (("", Some (ErrForeign err)), st')
      | (None, None) => (("", Some ErrEmptyResponse), st')
      | (Some res, None) =>
          if negb (StatusCode res =? StatusOK)%Z
          then (("", Some (ErrWrongStatusCode (StatusCode res) (Status res))), st')
          else
            match ReadAll res with
            | (_, Some err) => (("", Some (ErrForeign err)), st')
            | (resBody, None) => ((resBody, None), st')
            end
      end
  end.
Proof.
  unfold sendRequest.
  destruct (NewRequest_error w method uri); [reflexivity |].
  unfold mbind, IO_bind, http_Do.
  destruct (Do w (sent st) _) as [[res|] [err|]]; try reflexivity.
  destruct (negb _); [reflexivity |].
  destruct (ReadAll res) as [body [err|]]; reflexivity.
Qed.

Lemma GetServerList_unfold (w : World) (filter : GetServerListFilter) (st : State) :
  GetServerList w filter st =
  if Config.Disabled (config (self st)) then (([], None), st)
  else
    let '(r, st') := sendRequest w MethodGet (GetServerList_uri (self st) filter) st in
    match r with
    | (_, Some err) => (([], Some err), st')
    | (body, None) =>
        match Unmarshal_GetServerListResponse w body with
        | (_, Some err) => (([], Some (ErrForeign err)), st')
        | (servers, None) => ((filterServers (self st) servers filter, None), st')
        end
    end.
Proof.
  unfold GetServerList, mbind, IO_bind, this.
  destruct (Config.Disabled _); [reflexivity |].
  destruct (sendRequest _ _ _ st) as [[body [err|]] st']; [reflexivity |].
  destruct (Unmarshal_GetServerListResponse w body) as [servers [err|]]; reflexivity.
Qed.

Lemma GetPlayerBans_unfold (w : World) (steamIDs : list string) (st : State) :
  GetPlayerBans w steamIDs st =
  if Config.Disabled (config (self st)) then (([], None), st)
  else
    let uri := Config.URL (config (self st))
                 +:+ GetPlayerBansURL (Config.Key (config (self st))) (Join steamIDs ",") in
    let '(r, st') := sendRequest w MethodGet uri st in
    match r with
    | (_, Some err) => (([], Some err), st')
    | (body, None) =>
        match Unmarshal_GetPlayerBansResponse w body with
        | (_, Some err) => (([], Some (ErrForeign err)), st')
        | (players, None) => ((players, None), st')
        end
    end.
Proof.
  unfold GetPlayerBans, mbind, IO_bind, this.
  destruct (Config.Disabled _); [reflexivity |].
  cbv zeta.
  destruct (sendRequest _ _ _ st) as [[body [err|]] st']; [reflexivity |].
  destruct (Unmarshal_GetPlayerBansResponse w body) as [players [err|]]; reflexivity.
Qed.

Lemma sendRequest_self (w : World) (method uri : string) (st : State) :
  self (snd (sendRequest w method uri st)) = self st.
Proof.
  unfold sendRequest.
  destruct (NewRequest_error w method uri); [reflexivity |].
  unfold mbind, IO_bind, http_Do.
  destruct (Do w (sent st) _) as [[res|] [err|]]; try reflexivity.
  destruct (negb _); [reflexivity |].
  destruct (ReadAll res) as [body [err|]]; reflexivity.
Qed.

(** The log after [sendRequest]: one more request, unless the request could
    not be built. *)
Lemma sendRequest_sent (w : World) (method uri : string) (st : State) :
  sent (snd (sendRequest w method uri st)) =
  match NewRequest_error w method uri with
  | Some _ => sent st
  | None => sent st ++ [{| Method := method; RequestURI := uri |}]
  end.
Proof.
  unfold sendRequest.
  destruct (NewRequest_error w method uri); [reflexivity |].
  unfold mbind, IO_bind, http_Do.
  destruct (Do w (sent st) _) as [[res|] [err|]]; try reflexivity.
  destruct (negb _); [reflexivity |].
  destruct (ReadAll res) as [body [err|]]; reflexivity.
Qed.

Lemma GetPlayerBans_self (w : World) (steamIDs : list string) (st : State) :
  self (snd (GetPlayerBans w steamIDs st)) = self st.
Proof.
  unfold GetPlayerBans, mbind, IO_bind, this.
  destruct (Config.Disabled _); [reflexivity |].
  pose proof (sendRequest_self w MethodGet
    (Config.URL (config (self st)) +:+
     GetPlayerBansURL (Config.Key (config (self st))) (Join steamIDs ",")) st) as H.
  destruct (sendRequest _ _ _ st) as [[body [err|]] st']; [exact H |].
  destruct (Unmarshal_GetPlayerBansResponse w body) as [players [err|]]; exact H.
Qed.

Lemma GetServerList_self (w : World) (filter : GetServerListFilter) (st : State) :
  self (snd (GetServerList w filter st)) = self st.
Proof.
  unfold GetServerList, mbind, IO_bind, this.
  destruct (Config.Disabled _); [reflexivity |].
  pose proof (sendRequest_self w MethodGet (GetServerList_uri (self st) filter) st) as H.
  destruct (sendRequest _ _ _ st) as [[body [err|]] st']; [exact H |].
  destruct (Unmarshal_GetServerListResponse w body) as [servers [err|]]; exact H.
Qed.

(** C9: [SetDefaults] sets [URL], [Timeout], [Transport.TLSHandshakeTimeout],
    [Transport.Dialer.Timeout] and [Limit] to the documented defaults exactly
    when the field is at its zero value and keeps it otherwise; every other
    field is unchanged; [NewClient] holds the configuration so defaulted, and
    neither public operation changes the client and its configuration. *)
Theorem SetDefaults_frame (cfg : Config) :
  let cfg' := Config.SetDefaults cfg in
  Config.URL cfg'
    = (if String.eqb (Config.URL cfg) "" then "https://api.steampowered.com"
       else Config.URL cfg) /\
  Config.Timeout cfg'
    = (if (Config.Timeout cfg =? 0)%Z then 10000000000 else Config.Timeout cfg) /\
  Transport.TLSHandshakeTimeout (Config.Transport cfg')
    = (if (Transport.TLSHandshakeTimeout (Config.Transport cfg) =? 0)%Z
       then 5000000000 else Transport.TLSHandshakeTimeout (Config.Transport cfg)) /\
  Dialer.Timeout (Transport.Dialer (Config.Transport cfg'))
    = (if (Dialer.Timeout (Transport.Dialer (Config.Transport cfg)) =? 0)%Z
       then 5000000000 else Dialer.Timeout (Transport.Dialer (Config.Transport cfg))) /\
  Config.Limit cfg' = (if (Config.Limit cfg =? 0)%Z then 50000 else Config.Limit cfg) /\
  Config.Disabled cfg' = Config.Disabled cfg /\
  Config.Key cfg' = Config.Key cfg /\
  Config.DefaultServerNames cfg' = Config.DefaultServerNames cfg /\
  Dialer.Deadline (Transport.Dialer (Config.Transport cfg'))
    = Dialer.Deadline (Transport.Dialer (Config.Transport cfg)) /\
  Dialer.FallbackDelay (Transport.Dialer (Config.Transport cfg'))
    = Dialer.FallbackDelay (Transport.Dialer (Config.Transport cfg)) /\
  Dialer.KeepAlive (Transport.Dialer (Config.Transport cfg'))
    = Dialer.KeepAlive (Transport.Dialer (Config.Transport cfg)) /\
  config (NewClient cfg) = cfg' /\
  (forall w steamIDs st, self (snd (GetPlayerBans w steamIDs st)) = self st) /\
  (forall w filter st, self (snd (GetServerList w filter st)) = self st).
Proof.
  destruct cfg as [dis key url tmo [[dt dd df dk] tls] lim names].
  unfold NewClient. rewrite SetDefaults_eq. cbn.
  repeat split.
  - intros w steamIDs st. apply GetPlayerBans_self.
  - intros w filter st. apply GetServerList_self.
Qed.

(** C6: with [Disabled] set, [GetPlayerBans] and [GetServerList] return the
    empty list and the nil error, and leave the state, hence the log of
    requests, as it was: no request is issued. *)
Theorem disabled_client_short_circuit (w : World) (steamIDs : list string)
    (filter : GetServerListFilter) (st : State) :
  Config.Disabled (config (self st)) = true ->
  GetPlayerBans w steamIDs st = (([], None), st) /\
  GetServerList w filter st = (([], None), st).
Proof.
  intros H. unfold GetPlayerBans, GetServerList, mbind, IO_bind, this.
  rewrite H. split; reflexivity.
Qed.

(** The log after [GetServerList] on an enabled client. *)
Lemma GetServerList_sent (w : World) (filter : GetServerListFilter) (st : State) :
  Config.Disabled (config (self st)) = false ->
  sent (snd (GetServerList w filter st)) =
  match NewRequest_error w "GET" (GetServerList_uri (self st) filter) with
  | Some _ => sent st
  | None => sent st ++ [{| Method := "GET";
                           RequestURI := GetServerList_uri (self st) filter |}]
  end.
Proof.
  intros H. unfold GetServerList, mbind, IO_bind, this. rewrite H.
  pose proof (sendRequest_sent w MethodGet (GetServerList_uri (self st) filter) st) as Hs.
  change MethodGet with "GET" in *.
  destruct (sendRequest w "GET" _ st) as [[body [err|]] st']; [exact Hs |].
  destruct (Unmarshal_GetServerListResponse w body) as [servers [err|]]; exact Hs.
Qed.

(** C8: on an enabled client the request issued by [GetServerList] is a GET of
    the base URL followed by the server-list path with the key, the effective
    limit in decimal (the filter's [Limit] when non-zero, 50000 otherwise) and
    the encoded filter; nothing is issued when the URL is refused. *)
Theorem GetServerList_limit (w : World) (filter : GetServerListFilter) (st : State) :
  Config.Disabled (config (self st)) = false ->
  let limit := if (Limit filter =? 0)%Z then 50000%Z else Limit filter in
  let uri := Config.URL (config (self st))
               +:+ "/IGameServersService/GetServerList/v1?key="
               +:+ Config.Key (config (self st))
               +:+ "&limit=" +:+ Itoa limit +:+ "&filter=" +:+ String_ filter in
  sent (snd (GetServerList w filter st)) =
  match NewRequest_error w "GET" uri with
  | Some _ => sent st
  | None => sent st ++ [{| Method := "GET"; RequestURI := uri |}]
  end.
Proof.
  intros H limit uri. exact (GetServerList_sent w filter st H).
Qed.

Lemma GetServerList_limit_witness :
  Config.Disabled (config (self testState)) = false /\
  sent (snd (GetServerList (testWorld testServers) (appFilter 108600) testState)) =
  [{| Method := "GET";
      RequestURI := "http://127.0.0.1:8080/IGameServersService/GetServerList/v1?key=R1jamSsz17LHA9WgDW099YGfCs4fn0m0&limit=50000&filter=\appid\108600" |}].
Proof.
  split; [reflexivity |].
  exact (GetServerList_limit (testWorld testServers) (appFilter 108600) testState eq_refl).
Defined.

Lemma disabled_client_short_circuit_witness :
  Config.Disabled (config (self disabledState)) = true /\
  GetPlayerBans (testWorld testServers) ["7656119"] disabledState
    = (([], None), disabledState) /\
  GetServerList (testWorld testServers) (appFilter 108600) disabledState
    = (([], None), disabledState).
Proof.
  split; [reflexivity |].
  exact (disabled_client_short_circuit (testWorld testServers) ["7656119"]
           (appFilter 108600) disabledState eq_refl).
Defined.

(** The result of [sendRequest] once the status check has passed. *)
Lemma sendRequest_ok (w : World) (method uri : string) (st : State) (res : Response) :
  NewRequest_error w method uri = None ->
  Do w (sent st) {| Method := method; RequestURI := uri |} = (Some res, None) ->
  StatusCode res = 200%Z ->
  fst (sendRequest w method uri st) =
  match ReadAll res with
  | (_, Some err) => ("", Some (ErrForeign err))
  | (resBody, None) => (resBody, None)
  end.
Proof.
  intros Hn Hd Hs. unfold sendRequest, mbind, IO_bind, http_Do. rewrite Hn, Hd, Hs.
  cbn. destruct (ReadAll res) as [body [err|]]; reflexivity.
Qed.

(** C5 (as the code has it): once the request is built, [sendRequest], and
    hence [GetPlayerBans] and [GetServerList] on an enabled client, return a
    transport error as it is, give the empty-response error for a nil
    response, and fail with the wrong-status-code error carrying the code and
    the status text of the response exactly when its code is not 200.  A
    response with code 200 passes the check: the outcome of [sendRequest] is
    that of reading its body, and the outcome of the two operations that of
    reading and decoding it. *)
Theorem sendRequest_outcome (w : World) (st : State) :
  (forall method uri,
     NewRequest_error w method uri = None ->
     let out := fst (sendRequest w method uri st) in
     match Do w (sent st) {| Method := method; RequestURI := uri |} with
     | (_, Some err) => out = ("", Some (ErrForeign err))
     | (None, None) => out = ("", Some ErrEmptyResponse)
     | (Some res, None) =>
         (out = ("", Some (ErrWrongStatusCode (StatusCode res) (Status res)))
          <-> StatusCode res <> 200%Z) /\
         (StatusCode res = 200%Z ->
          out = match ReadAll res with
                | (_, Some err) => ("", Some (ErrForeign err))
                | (resBody, None) => (resBody, None)
                end)
     end) /\
  (forall steamIDs,
     Config.Disabled (config (self st)) = false ->
     let uri := Config.URL (config (self st))
                  +:+ GetPlayerBansURL (Config.Key (config (self st)))
                        (Join steamIDs ",") in
     NewRequest_error w "GET" uri = None ->
     let out := fst (GetPlayerBans w steamIDs st) in
     match Do w (sent st) {| Method := "GET"; RequestURI := uri |} with
     | (_, Some err) => out = ([], Some (ErrForeign err))
     | (None, None) => out = ([], Some ErrEmptyResponse)
     | (Some res, None) =>
         (out = ([], Some (ErrWrongStatusCode (StatusCode res) (Status res)))
          <-> StatusCode res <> 200%Z) /\
         (StatusCode res = 200%Z ->
          out = match ReadAll res with
                | (_, Some err) => ([], Some (ErrForeign err))
                | (resBody, None) =>
                    match Unmarshal_GetPlayerBansResponse w resBody with
                    | (_, Some err) => ([], Some (ErrForeign err))
                    | (players, None) => (players, None)
                    end
                end)
     end) /\
  (forall filter,
     Config.Disabled (config (self st)) = false ->
     let uri := GetServerList_uri (self st) filter in
     NewRequest_error w "GET" uri = None ->
     let out := fst (GetServerList w filter st) in
     match Do w (sent st) {| Method := "GET"; RequestURI := uri |} with
     | (_, Some err) => out = ([], Some (ErrForeign err))
     | (None, None) => out = ([], Some ErrEmptyResponse)
     | (Some res, None) =>
         (out = ([], Some (ErrWrongStatusCode (StatusCode res) (Status res)))
          <-> StatusCode res <> 200%Z) /\
         (StatusCode res = 200%Z ->
          out = match ReadAll res with
                | (_, Some err) => ([], Some (ErrForeign err))
                | (resBody, None) =>
                    match Unmarshal_GetServerListResponse w resBody with
                    | (_, Some err) => ([], Some (ErrForeign err))
                    | (servers, None) => (filterServers (self st) servers filter, None)
                    end
                end)
     end).
Proof.
  split; [| split].
  - intros method uri Hn out. subst out.
    rewrite sendRequest_unfold, Hn. cbv zeta.
    destruct (Do w (sent st) _) as [[res|] [err|]]; try reflexivity.
    unfold StatusOK.
    destruct (Z.eqb_spec (StatusCode res) 200) as [Hc | Hc]; cbn [negb fst].
    + split; [split; [| contradiction] | intros _].
      * destruct (ReadAll res) as [body [err|]]; discriminate.
      * destruct (ReadAll res) as [body [err|]]; reflexivity.
    + split; [split; [intros _; exact Hc | reflexivity] | contradiction].
  - intros steamIDs Hdis uri Hn out. subst out.
    rewrite GetPlayerBans_unfold, Hdis. cbv zeta. fold uri.
    change MethodGet with "GET".
    rewrite sendRequest_unfold, Hn. cbv zeta.
    destruct (Do w (sent st) _) as [[res|] [err|]]; try reflexivity.
    unfold StatusOK.
    destruct (Z.eqb_spec (StatusCode res) 200) as [Hc | Hc]; cbn [negb fst].
    + split; [split; [| contradiction] | intros _].
      * destruct (ReadAll res) as [body [err|]]; [discriminate |].
        destruct (Unmarshal_GetPlayerBansResponse w body) as [players [err|]];
          discriminate.
      * destruct (ReadAll res) as [body [err|]]; [reflexivity |].
        destruct (Unmarshal_GetPlayerBansResponse w body) as [players [err|]];
          reflexivity.
    + split; [split; [intros _; exact Hc | reflexivity] | contradiction].
  - intros filter Hdis uri Hn out. subst out uri.
    rewrite GetServerList_unfold, Hdis.
    change MethodGet with "GET".
    rewrite sendRequest_unfold, Hn. cbv zeta.
    destruct (Do w (sent st) _) as [[res|] [err|]]; try reflexivity.
    unfold StatusOK.
    destruct (Z.eqb_spec (StatusCode res) 200) as [Hc | Hc]; cbn [negb fst].
    + split; [split; [| contradiction] | intros _].
      * destruct (ReadAll res) as [body [err|]]; [discriminate |].
        destruct (Unmarshal_GetServerListResponse w body) as [servers [err|]];
          discriminate.
      * destruct (ReadAll res) as [body [err|]]; [reflexivity |].
        destruct (Unmarshal_GetServerListResponse w body) as [servers [err|]];
          reflexivity.
    + split; [split; [intros _; exact Hc | reflexivity] | contradiction].
Qed.

Lemma sendRequest_outcome_witness :
  NewRequest_error (fixedWorld 404 "404 Not Found" "" []) "GET" "http://127.0.0.1:8080/x"
    = None /\
  fst (sendRequest (fixedWorld 404 "404 Not Found" "" []) "GET" "http://127.0.0.1:8080/x"
         testState)
    = ("", Some (ErrWrongStatusCode 404 "404 Not Found")) /\
  Config.Disabled (config (self testState)) = false /\
  fst (GetPlayerBans (fixedWorld 404 "404 Not Found" "" []) ["76561198000000001"]
         testState)
    = ([], Some (ErrWrongStatusCode 404 "404 Not Found")) /\
  fst (GetServerList (fixedWorld 404 "404 Not Found" "" []) (appFilter 108600) testState)
    = ([], Some (ErrWrongStatusCode 404 "404 Not Found")).
Proof.
  destruct (sendRequest_outcome (fixedWorld 404 "404 Not Found" "" []) testState)
    as (Hsend & Hbans & Hlist).
  split; [reflexivity |]. split.
  { pose proof (Hsend "GET" "http://127.0.0.1:8080/x" eq_refl) as H.
    cbn in H. apply H. discriminate. }
  split; [reflexivity |]. split.
  - pose proof (Hbans ["76561198000000001"] eq_refl eq_refl) as H.
    cbn [fixedWorld Do StatusCode Status] in H. apply H. discriminate.
  - pose proof (Hlist (appFilter 108600) eq_refl eq_refl) as H.
    cbn [fixedWorld Do StatusCode Status] in H. apply H. discriminate.
Defined.

(** C5 fails as stated: a response with status 201, a 2xx status, is rejected
    with the wrong-status-code error. *)
Lemma sendRequest_rejects_201 :
  ~ (forall (w : World) (method uri : string) (st : State) (res : Response),
       NewRequest_error w method uri = None ->
       Do w (sent st) {| Method := method; RequestURI := uri |} = (Some res, None) ->
       (fst (sendRequest w method uri st)
          = ("", Some (ErrWrongStatusCode (StatusCode res) (Status res)))
        <-> ~ (200 <= StatusCode res < 300)%Z)).
Proof.
  intros H.
  specialize (H (fixedWorld 201 "201 Created" "{}" []) "GET" "http://127.0.0.1:8080/x"
                testState
                {| StatusCode := 201; Status := "201 Created"; ReadAll := ("{}", None) |}
                eq_refl eq_refl).
  destruct H as [H _]. apply H; [reflexivity | cbn; lia].
Qed.

(** Both public operations return the wrong-status-code error of [sendRequest]. *)
Lemma GetServerList_wrong_status (code : Z) (status body : string)
    (servers : list Server) (filter : GetServerListFilter) (st : State) :
  Config.Disabled (config (self st)) = false ->
  code <> 200%Z ->
  fst (GetServerList (fixedWorld code status body servers) filter st)
    = ([], Some (ErrWrongStatusCode code status)).
Proof.
  intros Hd Hc. unfold GetServerList, mbind, IO_bind, this. rewrite Hd.
  unfold sendRequest, mbind, IO_bind, http_Do. cbn.
  unfold StatusOK. destruct (Z.eqb_spec code 200); [contradiction | reflexivity].
Qed.

Lemma GetPlayerBans_wrong_status (code : Z) (status body : string)
    (servers : list Server) (steamIDs : list string) (st : State) :
  Config.Disabled (config (self st)) = false ->
  code <> 200%Z ->
  fst (GetPlayerBans (fixedWorld code status body servers) steamIDs st)
    = ([], Some (ErrWrongStatusCode code status)).
Proof.
  intros Hd Hc. unfold GetPlayerBans, mbind, IO_bind, this. rewrite Hd.
  unfold sendRequest, mbind, IO_bind, http_Do. cbn.
  unfold StatusOK. destruct (Z.eqb_spec code 200); [contradiction | reflexivity].
Qed.

(** ** Validation of the filter *)

Lemma Validate_spec (filter : GetServerListFilter) :
  Validate filter = if (AppID filter =? 0)%Z then Some (ErrRequiredParam "appid") else None.
Proof. reflexivity. Qed.

(** Neither [sendRequest] nor [GetServerList] fails with the required-parameter
    error. *)
Lemma sendRequest_no_required_param (w : World) (method uri : string) (st : State)
    (param : string) :
  snd (fst (sendRequest w method uri st)) <> Some (ErrRequiredParam param).
Proof.
  rewrite sendRequest_unfold.
  destruct (NewRequest_error w method uri); [discriminate |].
  cbv zeta.
  destruct (Do w (sent st) _) as [[res|] [err|]]; try discriminate.
  destruct (negb _); [discriminate |].
  destruct (ReadAll res) as [body [err|]]; discriminate.
Qed.

Lemma GetServerList_no_required_param (w : World) (filter : GetServerListFilter)
    (st : State) (param : string) :
  snd (fst (GetServerList w filter st)) <> Some (ErrRequiredParam param).
Proof.
  rewrite GetServerList_unfold.
  destruct (Config.Disabled _); [discriminate |].
  pose proof (sendRequest_no_required_param w MethodGet
                (GetServerList_uri (self st) filter) st param) as H.
  destruct (sendRequest _ _ _ st) as [[body [err|]] st']; [exact H |].
  destruct (Unmarshal_GetServerListResponse w body) as [servers [err|]]; discriminate.
Qed.

(** C4 (as the code has it): for a filter whose [AppID] is zero, [Validate]
    fails with the required-parameter error naming [appid]; [GetServerList]
    does not validate: the filter is encoded with the segment [\appid\0], an
    enabled client issues the request for it, and the operation never returns
    the required-parameter error. *)
Theorem Validate_zero_AppID (filter : GetServerListFilter) :
  AppID filter = 0%Z ->
  Validate filter = Some (ErrRequiredParam "appid") /\
  (exists rest, String_ filter = "\appid\0" +:+ rest) /\
  forall (w : World) (st : State),
    Config.Disabled (config (self st)) = false ->
    (forall param, snd (fst (GetServerList w filter st)) <> Some (ErrRequiredParam param)) /\
    sent (snd (GetServerList w filter st)) =
    match NewRequest_error w "GET" (GetServerList_uri (self st) filter) with
    | Some _ => sent st
    | None => sent st ++ [{| Method := "GET";
                             RequestURI := GetServerList_uri (self st) filter |}]
    end.
Proof.
  intros H. split; [| split].
  - unfold Validate. now rewrite H.
  - exists (concat_strings (optional_segments filter)).
    rewrite String_segments, H. reflexivity.
  - intros w st Hd. split.
    + intros param. apply GetServerList_no_required_param.
    + exact (GetServerList_sent w filter st Hd).
Qed.

Lemma Validate_zero_AppID_witness :
  AppID emptyFilter = 0%Z /\
  Validate emptyFilter = Some (ErrRequiredParam "appid") /\
  String_ emptyFilter = "\appid\0" /\
  sent (snd (GetServerList (testWorld testServers) emptyFilter testState)) =
  [{| Method := "GET";
      RequestURI := "http://127.0.0.1:8080/IGameServersService/GetServerList/v1?key=R1jamSsz17LHA9WgDW099YGfCs4fn0m0&limit=50000&filter=\appid\0" |}].
Proof.
  split; [reflexivity |].
  destruct (Validate_zero_AppID emptyFilter eq_refl) as [Hv [_ Hg]].
  split; [exact Hv |]. split; [reflexivity |].
  exact (proj2 (Hg (testWorld testServers) testState eq_refl)).
Defined.

(** The two cases of [TestClient_GetServerList]. *)
Example TestClient_GetServerList_native_filters :
  fst (GetServerList (testWorld testServers) emptyFilter testState)
  = ([srv4; srv3; srv1; srv5; srv2], None).
Proof. vm_compute. reflexivity. Qed.

Example TestClient_GetServerList_custom_filters :
  fst (GetServerList (testWorld testServers) (with_custom emptyFilter false true) testState)
  = ([srv3; srv2], None).
Proof. vm_compute. reflexivity. Qed.

(** C4 fails as stated: with the zero filter of the test, whose [AppID] is
    zero, [GetServerList] issues its request and returns the servers. *)
Lemma GetServerList_zero_AppID_not_rejected :
  ~ (forall (w : World) (filter : GetServerListFilter) (st : State),
       AppID filter = 0%Z ->
       Validate filter = Some (ErrRequiredParam "appid") /\
       GetServerList w filter st = (([], Some (ErrRequiredParam "appid")), st)).
Proof.
  intros H.
  destruct (H (testWorld testServers) emptyFilter testState eq_refl) as [_ Hg].
  apply (f_equal (fun r => snd (fst r))) in Hg.
  rewrite TestClient_GetServerList_native_filters in Hg. discriminate.
Qed.

(** ** The custom-filter pass *)


Lemma matches_customb_spec (c : Client) (filter : GetServerListFilter) (s : Server) :
  matches_customb c filter s = true <-> matches_custom c filter s.
Proof.
  unfold matches_customb, matches_custom.
  rewrite orb_true_iff, !andb_true_iff, Contains_spec, bool_decide_eq_true.
  reflexivity.
Qed.

(** The loop over the default names inserts the address iff the name of the
    server is one of them. *)
Lemma defaultNames_loop_spec (names : list string) (server : Server)
    (removeAddrs : gmap string bool) :
  defaultNames_loop names server removeAddrs =
  if bool_decide (Server.Name server ∈ names)
  then <[Server.Addr server := true]> removeAddrs
  else removeAddrs.
Proof.
  unfold defaultNames_loop. revert removeAddrs.
  induction names as [|name names IH]; intros m; [reflexivity |].
  cbn [foldl]. rewrite IH.
  destruct (String.eqb_spec (Server.Name server) name) as [->|Hne].
  - rewrite (bool_decide_eq_true_2 (name ∈ name :: names)) by apply list_elem_of_here.
    destruct (bool_decide (name ∈ names)); [apply insert_insert_eq | reflexivity].
  - destruct (bool_decide (Server.Name server ∈ names)) eqn:Hin.
    + apply bool_decide_eq_true in Hin.
      rewrite bool_decide_eq_true_2; [reflexivity | now apply list_elem_of_further].
    + apply bool_decide_eq_false in Hin.
      rewrite bool_decide_eq_false_2; [reflexivity |].
      intros [H|H]%elem_of_cons; [now apply Hne | now apply Hin].
Qed.

Lemma defaultNames_loop_break_spec (names : list string) (server : Server)
    (removeAddrs : gmap string bool) :
  defaultNames_loop_break names server removeAddrs =
  if bool_decide (Server.Name server ∈ names)
  then <[Server.Addr server := true]> removeAddrs
  else removeAddrs.
Proof.
  induction names as [|name names IH]; [reflexivity |].
  cbn [defaultNames_loop_break]. rewrite IH.
  destruct (String.eqb_spec (Server.Name server) name) as [->|Hne].
  - now rewrite (bool_decide_eq_true_2 (name ∈ name :: names)) by apply list_elem_of_here.
  - destruct (bool_decide (Server.Name server ∈ names)) eqn:Hin.
    + apply bool_decide_eq_true in Hin.
      rewrite bool_decide_eq_true_2; [reflexivity | now apply list_elem_of_further].
    + apply bool_decide_eq_false in Hin.
      rewrite bool_decide_eq_false_2; [reflexivity |].
      intros [H|H]%elem_of_cons; [now apply Hne | now apply Hin].
Qed.

(** One round of the loop over the servers marks the address of a server that
    falls under an active custom filter. *)
Lemma removeAddrs_step_spec (c : Client) (filter : GetServerListFilter)
    (removeAddrs : gmap string bool) (server : Server) :
  removeAddrs_step c filter removeAddrs server =
  if matches_customb c filter server
  then <[Server.Addr server := true]> removeAddrs
  else removeAddrs.
Proof.
  unfold removeAddrs_step, matches_customb. rewrite defaultNames_loop_spec.
  destruct (NoHidden filter && Contains (Server.GameType server) "hidden");
    [reflexivity |].
  destruct (NoDefaultServers filter); cbn; [| reflexivity].
  destruct (bool_decide _); reflexivity.
Qed.

Lemma removeAddrs_step_break_eq (c : Client) (filter : GetServerListFilter)
    (removeAddrs : gmap string bool) (server : Server) :
  removeAddrs_step_break c filter removeAddrs server
  = removeAddrs_step c filter removeAddrs server.
Proof.
  unfold removeAddrs_step_break, removeAddrs_step.
  now rewrite defaultNames_loop_spec, defaultNames_loop_break_spec.
Qed.

Lemma removeAddrs_of_break_eq (c : Client) (filter : GetServerListFilter)
    (servers : list Server) :
  removeAddrs_of_break c filter servers = removeAddrs_of c filter servers.
Proof.
  unfold removeAddrs_of_break, removeAddrs_of. generalize (∅ : gmap string bool).
  induction servers as [|s servers IH]; intros m; [reflexivity |].
  cbn [foldl]. now rewrite removeAddrs_step_break_eq, IH.
Qed.

(** C7: the custom-filter pass, whose loop over the default names goes on after
    a match, builds the same exclusion map and returns the same list as the
    variant that leaves that loop at the first match. *)
Theorem filterServers_break_equiv (c : Client) (servers : list Server)
    (filter : GetServerListFilter) :
  removeAddrs_of_break c filter servers = removeAddrs_of c filter servers /\
  filterServers_break c servers filter = filterServers c servers filter.
Proof.
  split; [apply removeAddrs_of_break_eq |].
  unfold filterServers_break, filterServers. now rewrite removeAddrs_of_break_eq.
Qed.

(** The exclusion map holds exactly the addresses of the servers that fall
    under an active custom filter. *)
Lemma removeAddrs_fold_spec (c : Client) (filter : GetServerListFilter)
    (servers : list Server) (m : gmap string bool) (addr : string) :
  is_Some (foldl (removeAddrs_step c filter) m servers !! addr) <->
  is_Some (m !! addr) \/
  exists s, s ∈ servers /\ Server.Addr s = addr /\ matches_customb c filter s = true.
Proof.
  revert m. induction servers as [|s servers IH]; intros m; cbn [foldl].
  - split; [now left |]. intros [H | [s [H _]]]; [exact H | inversion H].
  - rewrite IH, removeAddrs_step_spec. split.
    + intros [H | [s' [Hin [Ha Hm]]]].
      * destruct (matches_customb c filter s) eqn:Hs; [| now left].
        destruct (decide (Server.Addr s = addr)) as [He|Hne].
        -- right. exists s. split; [apply list_elem_of_here | now split].
        -- left. now rewrite lookup_insert_ne in H.
      * right. exists s'. split; [now apply list_elem_of_further | now split].
    + intros [H | [s' [Hin [Ha Hm]]]].
      * left. destruct (matches_customb c filter s); [| exact H].
        destruct (decide (Server.Addr s = addr)) as [He|Hne].
        -- rewrite He, lookup_insert_eq. now eexists.
        -- now rewrite lookup_insert_ne.
      * apply elem_of_cons in Hin as [-> | Hin].
        -- left. rewrite Hm, Ha, lookup_insert_eq. now eexists.
        -- right. exists s'. now repeat split.
Qed.

Lemma removeAddrs_of_spec (c : Client) (filter : GetServerListFilter)
    (servers : list Server) (addr : string) :
  is_Some (removeAddrs_of c filter servers !! addr) <->
  exists s, s ∈ servers /\ Server.Addr s = addr /\ matches_custom c filter s.
Proof.
  unfold removeAddrs_of. rewrite removeAddrs_fold_spec. split.
  - intros [[x H] | [s [Hin [Ha Hm]]]]; [now rewrite lookup_empty in H |].
    exists s. repeat split; [assumption.. | now apply matches_customb_spec].
  - intros [s [Hin [Ha Hm]]]. right. exists s.
    repeat split; [assumption.. | now apply matches_customb_spec].
Qed.

(** [removeFilteredServers] keeps, in order, the servers whose address is not
    a key of the map. *)
Lemma removeFilteredServers_filter (c : Client) (servers : list Server)
    (addrs : gmap string bool) :
  removeFilteredServers c servers addrs
  = filter (fun s => addrs !! Server.Addr s = None) servers.
Proof.
  unfold removeFilteredServers.
  enough (forall result,
            foldl (fun result server =>
                     match addrs !! Server.Addr server with
                     | Some _ => result
                     | None => result ++ [server]
                     end) result servers
            = result ++ filter (fun s => addrs !! Server.Addr s = None) servers) as H
    by apply (H []).
  induction servers as [|s servers IH]; intros result; cbn [foldl].
  - now rewrite app_nil_r.
  - rewrite IH. destruct (addrs !! Server.Addr s) eqn:Hs.
    + rewrite filter_cons_False; [reflexivity | now rewrite Hs].
    + rewrite filter_cons_True by exact Hs. now rewrite <- app_assoc.
Qed.

(** ** [sort.Slice] permutes the slice *)

Section sort_permutation.
Context {A : Type}.
Variable less : A -> A -> bool.
Local Open Scope nat_scope.

Lemma Swap_Permutation (data : list A) (i j : nat) : sort.Swap data i j ≡ₚ data.
Proof.
  unfold sort.Swap.
  destruct (data !! i) as [x|] eqn:Hi; [| reflexivity].
  destruct (data !! j) as [y|] eqn:Hj; [| reflexivity].
  now apply Permutation_insert_swap.
Qed.

Lemma Swap_length (data : list A) (i j : nat) :
  length (sort.Swap data i j) = length data.
Proof. apply Permutation_length, Swap_Permutation. Qed.

Local Hint Resolve Swap_Permutation : core.

Lemma insertionSort_inner_Permutation (data : list A) (a j : nat) :
  sort.insertionSort_inner less data a j ≡ₚ data.
Proof.
  revert data. induction j as [|j IH]; intros data; cbn; [reflexivity |].
  destruct (_ && _); [| reflexivity].
  rewrite IH. apply Swap_Permutation.
Qed.

Lemma insertionSort_func_Permutation (data : list A) (a b : nat) :
  sort.insertionSort_func less data a b ≡ₚ data.
Proof.
  unfold sort.insertionSort_func.
  enough (H : forall n d i, sort.insertionSort_outer less n d a i ≡ₚ d) by apply H.
  induction n as [|n IH]; intros d i; cbn; [reflexivity |].
  rewrite IH. apply insertionSort_inner_Permutation.
Qed.

Lemma siftDown_func_Permutation (data : list A) (lo hi first : nat) :
  sort.siftDown_func less data lo hi first ≡ₚ data.
Proof.
  unfold sort.siftDown_func.
  enough (H : forall n d root, sort.siftDown_loop less n d root hi first ≡ₚ d)
    by apply H.
  clear data lo. induction n as [|n IH]; intros data root; cbn.
  - destruct (hi <=? _); [reflexivity |]. destruct (negb _); reflexivity.
  - destruct (hi <=? _); [reflexivity |].
    destruct (negb _); [reflexivity |].
    rewrite IH. apply Swap_Permutation.
Qed.

Lemma heapSort_func_Permutation (data : list A) (a b : nat) :
  sort.heapSort_func less data a b ≡ₚ data.
Proof.
  unfold sort.heapSort_func.
  assert (Hbuild : forall i data hi first,
             sort.heapSort_build less i data hi first ≡ₚ data).
  { induction i as [|i IH]; intros d hi first; cbn.
    - apply siftDown_func_Permutation.
    - rewrite IH. apply siftDown_func_Permutation. }
  assert (Hpop : forall i data lo first,
             sort.heapSort_pop less i data lo first ≡ₚ data).
  { induction i as [|i IH]; intros d lo first; cbn.
    - rewrite siftDown_func_Permutation. apply Swap_Permutation.
    - rewrite IH, siftDown_func_Permutation. apply Swap_Permutation. }
  now rewrite Hpop, Hbuild.
Qed.

Lemma partition_loop_Permutation (n : nat) (data : list A) (a i j : nat) :
  fst (sort.partition_loop less n data a i j) ≡ₚ data.
Proof.
  revert data i j. induction n as [|n IH]; intros data i j;
    cbn [sort.partition_loop].
  - destruct (_ <? _); reflexivity.
  - destruct (_ <? _); [reflexivity |].
    rewrite IH. apply Swap_Permutation.
Qed.

Lemma partition_func_Permutation (data : list A) (a b pivot : nat) :
  fst (fst (sort.partition_func less data a b pivot)) ≡ₚ data.
Proof.
  unfold sort.partition_func.
  destruct (_ <? _); cbn.
  - now rewrite !Swap_Permutation.
  - destruct (sort.partition_loop _ _ _ _ _ _) as [data' j] eqn:Hl. cbn.
    rewrite Swap_Permutation.
    change data' with (fst (data', j)). rewrite <- Hl.
    now rewrite partition_loop_Permutation, !Swap_Permutation.
Qed.

Lemma partitionEqual_func_Permutation (data : list A) (a b pivot : nat) :
  fst (sort.partitionEqual_func less data a b pivot) ≡ₚ data.
Proof.
  unfold sort.partitionEqual_func.
  transitivity (sort.Swap data a pivot); [| apply Swap_Permutation].
  enough (H : forall n d i j, fst (sort.partitionEqual_loop less n d a i j) ≡ₚ d)
    by apply H.
  clear data. induction n as [|n IH]; intros data i j;
    cbn [sort.partitionEqual_loop].
  - destruct (_ <? _); reflexivity.
  - destruct (_ <? _); [reflexivity |].
    rewrite IH. apply Swap_Permutation.
Qed.

Lemma shift_left_Permutation (data : list A) (j : nat) :
  sort.shift_left less data j ≡ₚ data.
Proof.
  revert data. induction j as [|j IH]; intros data; cbn; [reflexivity |].
  destruct (negb _); [reflexivity |]. rewrite IH. apply Swap_Permutation.
Qed.

Lemma shift_right_Permutation (n : nat) (data : list A) (j : nat) :
  sort.shift_right less n data j ≡ₚ data.
Proof.
  revert data j. induction n as [|n IH]; intros data j; cbn; [reflexivity |].
  destruct (negb _); [reflexivity |]. rewrite IH. apply Swap_Permutation.
Qed.

Lemma partialInsertionSort_func_Permutation (data : list A) (a b : nat) :
  fst (sort.partialInsertionSort_func less data a b) ≡ₚ data.
Proof.
  unfold sort.partialInsertionSort_func.
  enough (H : forall steps d i,
             fst (sort.partialInsertionSort_loop less steps d a b i) ≡ₚ d)
    by apply H.
  clear data. induction steps as [|steps IH]; intros data i;
    cbn [sort.partialInsertionSort_loop]; [reflexivity |].
  destruct (_ =? _); [reflexivity |].
  destruct (_ <? _); [reflexivity |].
  rewrite IH.
  transitivity (sort.Swap data (sort.scan_sorted less (b - i) data i b)
                          (sort.scan_sorted less (b - i) data i b - 1));
    [| apply Swap_Permutation].
  destruct (2 <=? b - _); [rewrite shift_right_Permutation |];
    (destruct (2 <=? _ - a); [apply shift_left_Permutation | reflexivity]).
Qed.

Lemma breakPatterns_func_Permutation (data : list A) (a b : nat) :
  sort.breakPatterns_func data a b ≡ₚ data.
Proof.
  unfold sort.breakPatterns_func, sort.breakPatterns_step.
  destruct (8 <=? _); [| reflexivity].
  now rewrite !Swap_Permutation.
Qed.

Lemma reverseRange_func_Permutation (data : list A) (a b : nat) :
  sort.reverseRange_func data a b ≡ₚ data.
Proof.
  unfold sort.reverseRange_func.
  enough (H : forall n d i j, sort.reverseRange_loop n d i j ≡ₚ d) by apply H.
  clear data. induction n as [|n IH]; intros data i j;
    cbn [sort.reverseRange_loop]; [reflexivity |].
  destruct (_ <? _); [| reflexivity]. rewrite IH. apply Swap_Permutation.
Qed.

Lemma pdqsort_loop_Permutation (fuel : nat) (data : list A) (a b limit : nat)
    (wasBalanced wasPartitioned : bool) :
  sort.pdqsort_loop less fuel data a b limit wasBalanced wasPartitioned ≡ₚ data.
Proof.
  revert data a b limit wasBalanced wasPartitioned.
  induction fuel as [|fuel IH]; intros data a b limit wb wp;
    cbn [sort.pdqsort_loop].
  - destruct (_ <=? _); [apply insertionSort_func_Permutation |].
    destruct (_ =? _); [apply heapSort_func_Permutation | reflexivity].
  - destruct (_ <=? _); [apply insertionSort_func_Permutation |].
    destruct (_ =? _); [apply heapSort_func_Permutation |].
    set (d1 := if negb wb then _ else _).
    assert (H1 : fst d1 ≡ₚ data).
    { subst d1. destruct (negb wb); cbn [fst];
        [apply breakPatterns_func_Permutation | reflexivity]. }
    destruct d1 as [data1 limit1]. cbn [fst] in H1.
    destruct (sort.choosePivot_func less data1 a b) as [pivot hint].
    set (d2 := if sort.is_decreasing hint then _ else _).
    assert (H2 : fst (fst d2) ≡ₚ data).
    { subst d2. destruct (sort.is_decreasing hint); cbn [fst]; [| exact H1].
      now rewrite reverseRange_func_Permutation. }
    destruct d2 as [[data2 pivot2] hint2]. cbn [fst] in H2.
    set (d3 := if _ && _ && _ then _ else _).
    assert (H3 : fst d3 ≡ₚ data).
    { subst d3. destruct (_ && _ && _); cbn [fst]; [| exact H2].
      now rewrite partialInsertionSort_func_Permutation. }
    destruct d3 as [data3 sorted]. cbn [fst] in H3.
    destruct sorted; [exact H3 |].
    destruct (_ && _).
    + pose proof (partitionEqual_func_Permutation data3 a b pivot2) as H4.
      destruct (sort.partitionEqual_func less data3 a b pivot2) as [data4 mid].
      cbn [fst] in H4. now rewrite IH, H4.
    + pose proof (partition_func_Permutation data3 a b pivot2) as H4.
      destruct (sort.partition_func less data3 a b pivot2) as [[data4 mid] ap].
      cbn [fst] in H4. destruct (_ <? _); now rewrite !IH, H4.
Qed.

(** [sort.Slice] returns a permutation of its argument. *)
Lemma Slice_Permutation (x : list A) : sort.Slice less x ≡ₚ x.
Proof. apply pdqsort_loop_Permutation. Qed.
End sort_permutation.

(** ** Exclusion by address *)

(** C3: when a custom filter is active, the exclusion map has as keys exactly
    the addresses of the servers that fall under an active custom filter (the
    tag string contains [hidden] with [NoHidden], or the name is one of the
    configured default names with [NoDefaultServers]); the pass keeps, in their
    input order, exactly the servers whose address is not such a key, and
    sorts what it kept. *)
Theorem filterServers_exclusion (c : Client) (servers : list Server)
    (filter : GetServerListFilter) :
  NoHidden filter || NoDefaultServers filter = true ->
  let removeAddrs := removeAddrs_of c filter servers in
  (forall addr,
     is_Some (removeAddrs !! addr) <->
     exists s, s ∈ servers /\ Server.Addr s = addr /\ matches_custom c filter s) /\
  removeFilteredServers c servers removeAddrs
    = base.filter (fun s => removeAddrs !! Server.Addr s = None) servers /\
  filterServers c servers filter
    = sort.Slice morePlayers (removeFilteredServers c servers removeAddrs).
Proof.
  intros Hactive removeAddrs. split; [| split].
  - intros addr. apply removeAddrs_of_spec.
  - apply removeFilteredServers_filter.
  - unfold filterServers. now rewrite Hactive.
Qed.

Lemma filterServers_exclusion_witness :
  NoHidden (with_custom emptyFilter true false)
    || NoDefaultServers (with_custom emptyFilter true false) = true /\
  removeFilteredServers (self testState) testServers
    (removeAddrs_of (self testState) (with_custom emptyFilter true false) testServers)
  = [srv2; srv3] /\
  filterServers (self testState) testServers (with_custom emptyFilter true false)
  = [srv3; srv2].
Proof.
  split; [reflexivity |].
  destruct (filterServers_exclusion (self testState) testServers
              (with_custom emptyFilter true false) eq_refl) as [_ [Hr Hf]].
  split.
  - rewrite Hr. vm_compute. reflexivity.
  - rewrite Hf. vm_compute. reflexivity.
Defined.

(** Membership in the result of [filterServers]. *)
Lemma elem_of_filterServers (c : Client) (servers : list Server)
    (filter : GetServerListFilter) (s : Server) :
  s ∈ filterServers c servers filter <->
  s ∈ servers /\
  (NoHidden filter || NoDefaultServers filter = true ->
   removeAddrs_of c filter servers !! Server.Addr s = None).
Proof.
  unfold filterServers. rewrite (Slice_Permutation morePlayers).
  destruct (NoHidden filter || NoDefaultServers filter).
  - rewrite removeFilteredServers_filter, list_elem_of_filter. tauto.
  - split; [intros H; split; [exact H | discriminate] | tauto].
Qed.

(** C10: exclusion goes by address.  Of two servers of the input with the
    same address, if one falls under an active custom filter the other is
    absent from the result, whether it falls under a filter or not; and one
    is in the result exactly when the other is. *)
Theorem exclusion_keyed_by_address (c : Client) (servers : list Server)
    (filter : GetServerListFilter) (s s' : Server) :
  s ∈ servers -> s' ∈ servers -> Server.Addr s = Server.Addr s' ->
  (matches_custom c filter s -> s' ∉ filterServers c servers filter) /\
  (s ∈ filterServers c servers filter <-> s' ∈ filterServers c servers filter).
Proof.
  intros Hs Hs' Haddr. split.
  - intros Hm [_ Hnone]%elem_of_filterServers.
    assert (Hactive : NoHidden filter || NoDefaultServers filter = true).
    { destruct Hm as [[-> _] | [-> _]]; [reflexivity | apply orb_true_r]. }
    specialize (Hnone Hactive).
    assert (Hsome : is_Some (removeAddrs_of c filter servers !! Server.Addr s')).
    { apply removeAddrs_of_spec. exists s. now repeat split. }
    rewrite Hnone in Hsome. destruct Hsome as [x Hx]. discriminate.
  - rewrite !elem_of_filterServers, Haddr. tauto.
Qed.

Lemma exclusion_keyed_by_address_witness :
  twinDefault ∈ twinServers /\ twinNamed ∈ twinServers /\
  Server.Addr twinDefault = Server.Addr twinNamed /\
  matches_custom (self testState) (with_custom emptyFilter false true) twinDefault /\
  twinNamed ∉ filterServers (self testState) twinServers
                (with_custom emptyFilter false true).
Proof.
  assert (H1 : twinDefault ∈ twinServers) by apply list_elem_of_here.
  assert (H2 : twinNamed ∈ twinServers)
    by apply list_elem_of_further, list_elem_of_further, list_elem_of_here.
  assert (Hm : matches_custom (self testState) (with_custom emptyFilter false true)
                 twinDefault)
    by (right; split; [reflexivity | apply list_elem_of_here]).
  repeat split; [exact H1 | exact H2 | exact Hm |].
  exact (proj1 (exclusion_keyed_by_address (self testState) twinServers
                  (with_custom emptyFilter false true) twinDefault twinNamed
                  H1 H2 eq_refl) Hm).
Defined.

(** ** Insertion sort on a range is the stable insertion sort of that range *)

Section insertion_sort.
Context {A : Type}.
Variable less : A -> A -> bool.
Local Open Scope nat_scope.

Lemma lookup_adjacent_l (L R : list A) (y x : A) :
  (L ++ y :: x :: R) !! length L = Some y.
Proof. now apply list_lookup_middle. Qed.

Lemma lookup_adjacent_r (L R : list A) (y x : A) :
  (L ++ y :: x :: R) !! S (length L) = Some x.
Proof.
  replace (L ++ y :: x :: R) with ((L ++ [y]) ++ x :: R) by now rewrite <- app_assoc.
  apply list_lookup_middle. rewrite length_app. cbn. lia.
Qed.

Lemma Less_adjacent (L R : list A) (y x : A) :
  sort.Less less (L ++ y :: x :: R) (S (length L)) (length L) = less x y.
Proof. unfold sort.Less. now rewrite lookup_adjacent_l, lookup_adjacent_r. Qed.

Lemma Swap_adjacent (L R : list A) (y x : A) :
  sort.Swap (L ++ y :: x :: R) (S (length L)) (length L) = L ++ x :: y :: R.
Proof.
  unfold sort.Swap. rewrite lookup_adjacent_l, lookup_adjacent_r.
  replace (S (length L)) with (length L + 1) by lia.
  rewrite insert_app_r. cbn.
  replace (length L) with (length L + 0) at 1 by lia.
  now rewrite insert_app_r.
Qed.

Lemma insertionSort_inner_spec (rq P R : list A) (x : A) :
  sort.insertionSort_inner less (P ++ rev rq ++ x :: R) (length P)
    (length P + length rq)
  = P ++ rev (insert_back less x rq) ++ R.
Proof.
  revert R. induction rq as [|y rq IH]; intros R.
  - cbn [length rev insert_back app]. rewrite Nat.add_0_r.
    destruct (length P) eqn:HP; cbn [sort.insertionSort_inner]; [reflexivity |].
    now rewrite Nat.ltb_irrefl.
  - cbn [length rev insert_back]. rewrite Nat.add_succ_r.
    cbn [sort.insertionSort_inner].
    replace (P ++ (rev rq ++ [y]) ++ x :: R) with ((P ++ rev rq) ++ y :: x :: R)
      by now rewrite <- !app_assoc.
    replace (length P + length rq) with (length (P ++ rev rq))
      by now rewrite length_app, length_rev.
    rewrite Less_adjacent.
    replace (length P <? S (length (P ++ rev rq))) with true
      by (symmetry; apply Nat.ltb_lt; rewrite length_app; lia).
    cbn [andb]. destruct (less x y).
    + rewrite Swap_adjacent, length_app, length_rev, <- app_assoc, IH.
      cbn [rev]. now rewrite <- !app_assoc.
    + cbn [rev]. now rewrite <- !app_assoc.
Qed.

Lemma insert_back_length (x : A) (rp : list A) :
  length (insert_back less x rp) = S (length rp).
Proof.
  induction rp as [|y rp IH]; cbn; [reflexivity |].
  destruct (less x y); cbn; [now rewrite IH | reflexivity].
Qed.

Lemma insertionSort_outer_spec (rest rp P R : list A) :
  sort.insertionSort_outer less (length rest) (P ++ rev rp ++ rest ++ R) (length P)
    (length P + length rp)
  = P ++ rev (foldl (fun rp x => insert_back less x rp) rp rest) ++ R.
Proof.
  revert rp. induction rest as [|x rest IH]; intros rp; [reflexivity |].
  cbn [length sort.insertionSort_outer foldl app].
  rewrite insertionSort_inner_spec.
  replace (length P + length rp + 1) with (length P + length (insert_back less x rp))
    by (rewrite insert_back_length; lia).
  apply IH.
Qed.

(** [insertionSort_func] on the range [a, b) replaces the range by its
    stable insertion sort and leaves the rest of the slice alone. *)
Lemma insertionSort_func_spec (P M R : list A) :
  sort.insertionSort_func less (P ++ M ++ R) (length P) (length P + length M)
  = P ++ insertion_sorted less M ++ R.
Proof.
  unfold sort.insertionSort_func, insertion_sorted.
  destruct M as [|x M].
  - cbn [length]. now replace (length P + 0 - (length P + 1)) with O by lia.
  - cbn [length foldl insert_back].
    replace (length P + S (length M) - (length P + 1)) with (length M) by lia.
    apply (insertionSort_outer_spec M [x] P R).
Qed.

(** On at most twelve elements [sort.Slice] is the stable insertion sort. *)
Lemma Slice_small (x : list A) :
  length x <= 12 -> sort.Slice less x = insertion_sorted less x.
Proof.
  intros Hlen. unfold sort.Slice, sort.pdqsort_func.
  assert (H : forall fuel,
             sort.pdqsort_loop less fuel x 0 (length x) (sort.bits_Len (length x))
               true true
             = sort.insertionSort_func less x 0 (length x)).
  { intros fuel. destruct fuel; cbn [sort.pdqsort_loop];
      rewrite Nat.sub_0_r; unfold sort.maxInsertion;
      now rewrite (proj2 (Nat.leb_le _ _) Hlen). }
  rewrite H.
  pose proof (insertionSort_func_spec [] x []) as Hs.
  cbn [length app] in Hs. rewrite !app_nil_r in Hs. exact Hs.
Qed.
End insertion_sort.

(** ** Ranges of a slice *)

Section ranges.
Context {A : Type}.
Variable less : A -> A -> bool.
Variable key : A -> Z.
Hypothesis less_key : forall x y, less x y = (key x <? key y).
Local Open Scope nat_scope.

Lemma Less_kat (data : list A) (i j : nat) :
  i < length data -> j < length data ->
  sort.Less less data i j = (kat key data i <? kat key data j)%Z.
Proof.
  intros Hi Hj. unfold sort.Less, kat.
  destruct (lookup_lt_is_Some_2 data i Hi) as [x ->].
  destruct (lookup_lt_is_Some_2 data j Hj) as [y ->].
  apply less_key.
Qed.

Lemma lookup_Swap (data : list A) (i j k : nat) :
  i < length data -> j < length data ->
  sort.Swap data i j !! k =
  if decide (k = j) then data !! i else if decide (k = i) then data !! j else data !! k.
Proof.
  intros Hi Hj. unfold sort.Swap.
  destruct (lookup_lt_is_Some_2 data i Hi) as [x Hx].
  destruct (lookup_lt_is_Some_2 data j Hj) as [y Hy].
  rewrite Hx, Hy.
  destruct (decide (k = j)) as [->|Hkj].
  - apply list_lookup_insert_eq. now rewrite length_insert.
  - rewrite list_lookup_insert_ne by congruence.
    destruct (decide (k = i)) as [->|Hki].
    + now apply list_lookup_insert_eq.
    + now rewrite list_lookup_insert_ne by congruence.
Qed.

Lemma kat_Swap (data : list A) (i j k : nat) :
  i < length data -> j < length data ->
  kat key (sort.Swap data i j) k =
  if decide (k = j) then kat key data i
  else if decide (k = i) then kat key data j else kat key data k.
Proof.
  intros Hi Hj. unfold kat. rewrite lookup_Swap by assumption.
  destruct (decide (k = j)); [reflexivity |]. destruct (decide (k = i)); reflexivity.
Qed.

Lemma same_range_refl (data : list A) (a b : nat) : same_range data data a b.
Proof. split; [reflexivity | intros; reflexivity]. Qed.

Lemma same_range_length (data data' : list A) (a b : nat) :
  same_range data data' a b -> length data' = length data.
Proof. intros [H _]. now apply Permutation_length. Qed.

Lemma same_range_trans (d1 d2 d3 : list A) (a b : nat) :
  same_range d1 d2 a b -> same_range d2 d3 a b -> same_range d1 d3 a b.
Proof.
  intros [Hp1 Hf1] [Hp2 Hf2]. split; [now rewrite Hp2 |].
  intros k Hk. now rewrite Hf2, Hf1.
Qed.

Lemma same_range_weaken (data data' : list A) (a b a' b' : nat) :
  a' <= a -> b <= b' -> same_range data data' a b -> same_range data data' a' b'.
Proof.
  intros Ha Hb [Hp Hf]. split; [exact Hp |]. intros k Hk. apply Hf. lia.
Qed.

Lemma same_range_Swap (data : list A) (a b i j : nat) :
  a <= i < b -> a <= j < b -> b <= length data ->
  same_range data (sort.Swap data i j) a b.
Proof.
  intros Hi Hj Hb. split; [apply Swap_Permutation |].
  intros k Hk. rewrite lookup_Swap by lia.
  destruct (decide (k = j)); [lia |]. destruct (decide (k = i)); [lia | reflexivity].
Qed.

(** The elements at the positions [a, b). *)
Lemma range_split (data : list A) (a b : nat) :
  a <= b -> b <= length data ->
  data = take a data ++ take (b - a) (drop a data) ++ drop b data.
Proof.
  intros Hab Hb.
  rewrite <- (take_drop a data) at 1. f_equal.
  rewrite <- (take_drop (b - a) (drop a data)) at 1. f_equal.
  rewrite drop_drop. f_equal. lia.
Qed.

Lemma same_range_middle (data data' : list A) (a b : nat) :
  a <= b -> b <= length data -> same_range data data' a b ->
  take (b - a) (drop a data') ≡ₚ take (b - a) (drop a data).
Proof.
  intros Hab Hb [Hp Hf].
  assert (Hlen : length data' = length data) by now apply Permutation_length.
  assert (Ht : take a data' = take a data).
  { apply list_eq. intros k. destruct (decide (k < a)) as [Hk|Hk].
    - rewrite !lookup_take_lt by exact Hk. apply Hf. now left.
    - rewrite !lookup_take_ge by lia. reflexivity. }
  assert (Hd : drop b data' = drop b data).
  { apply list_eq. intros k. rewrite !lookup_drop. apply Hf. right. lia. }
  rewrite (range_split data a b Hab Hb) in Hp.
  rewrite (range_split data' a b Hab ltac:(lia)) in Hp.
  rewrite Ht, Hd in Hp.
  apply Permutation_app_inv_l in Hp. now apply Permutation_app_inv_r in Hp.
Qed.

Lemma range_all_middle (data : list A) (a b : nat) (P : A -> Prop) :
  a <= b -> b <= length data ->
  range_all data a b P <-> Forall P (take (b - a) (drop a data)).
Proof.
  intros Hab Hb. rewrite Forall_lookup. unfold range_all. split.
  - intros H i x Hi.
    assert (i < b - a).
    { apply lookup_lt_Some in Hi. rewrite length_take in Hi. lia. }
    rewrite lookup_take_lt, lookup_drop in Hi by assumption.
    apply (H (a + i)); [lia | lia | exact Hi].
  - intros H k x Hak Hkb Hx. apply (H (k - a)).
    rewrite lookup_take_lt, lookup_drop by lia.
    now replace (a + (k - a)) with k by lia.
Qed.

(** A property of all elements of the range survives a permutation of the
    range. *)
Lemma range_all_same_range (data data' : list A) (a b : nat) (P : A -> Prop) :
  a <= b -> b <= length data -> same_range data data' a b ->
  range_all data a b P -> range_all data' a b P.
Proof.
  intros Hab Hb Hs H.
  pose proof (same_range_length _ _ _ _ Hs) as Hlen.
  apply range_all_middle; [lia | lia |].
  rewrite (same_range_middle data data' a b Hab Hb Hs).
  now apply range_all_middle.
Qed.

(** ... and a permutation of a part of the range. *)
Lemma range_all_same_subrange (data data' : list A) (a b a' b' : nat)
    (P : A -> Prop) :
  a <= a' -> b' <= b -> a <= b -> b <= length data -> same_range data data' a' b' ->
  range_all data a b P -> range_all data' a b P.
Proof.
  intros Ha Hb Hab Hlen Hs.
  apply range_all_same_range; [assumption.. |].
  now apply (same_range_weaken data data' a' b').
Qed.

Lemma range_all_kat (data : list A) (a b : nat) (Q : Z -> Prop) :
  b <= length data ->
  range_all data a b (fun x => Q (key x)) <->
  (forall k, a <= k -> k < b -> Q (kat key data k)).
Proof.
  intros Hb. unfold range_all, kat. split.
  - intros H k Hak Hkb.
    destruct (lookup_lt_is_Some_2 data k ltac:(lia)) as [x Hx].
    rewrite Hx. now apply (H k).
  - intros H k x Hak Hkb Hx. specialize (H k Hak Hkb). now rewrite Hx in H.
Qed.

Lemma kat_frame (data data' : list A) (a b k : nat) :
  same_range data data' a b -> k < a \/ b <= k -> kat key data' k = kat key data k.
Proof. intros [_ Hf] Hk. unfold kat. now rewrite Hf. Qed.
End ranges.

(** ** The stable insertion sort sorts and keeps ties in order *)

Section insertion_sorted_facts.
Context {A : Type}.
Variable less : A -> A -> bool.
Variable key : A -> Z.
Hypothesis less_key : forall x y, less x y = (key x <? key y).

Lemma StronglySorted_snoc (R : A -> A -> Prop) (l : list A) (x : A) :
  StronglySorted R l -> Forall (fun y => R y x) l -> StronglySorted R (l ++ [x]).
Proof.
  induction 1 as [|a l Hl IH Ha]; intros Hx; cbn.
  - constructor; constructor.
  - inversion Hx as [|? ? Hax Hlx]; subst. constructor; [now apply IH |].
    apply Forall_app. split; [exact Ha | now constructor].
Qed.

Lemma StronglySorted_rev (R : A -> A -> Prop) (l : list A) :
  StronglySorted R l -> StronglySorted (fun x y => R y x) (rev l).
Proof.
  induction 1 as [|a l Hl IH Ha]; cbn; [constructor |].
  apply StronglySorted_snoc; [exact IH | now apply Forall_rev].
Qed.

Lemma StronglySorted_lookup (R : A -> A -> Prop) (l : list A) (i j : nat) (x y : A) :
  StronglySorted R l -> (i < j)%nat -> l !! i = Some x -> l !! j = Some y -> R x y.
Proof.
  intros Hl. revert i j. induction Hl as [|a l Hl IH Ha]; intros i j Hij Hi Hj.
  - discriminate.
  - destruct j as [|j]; [lia |]. destruct i as [|i].
    + injection Hi as <-. rewrite Forall_lookup in Ha. now apply (Ha j).
    + apply (IH i j); [lia | exact Hi | exact Hj].
Qed.

Lemma Forall_insert_back (P : A -> Prop) (x : A) (rp : list A) :
  P x -> Forall P rp -> Forall P (insert_back less x rp).
Proof.
  intros Hx. induction 1 as [|y rp Hy Hrp IH]; cbn; [now repeat constructor |].
  destruct (less x y); repeat constructor; assumption.
Qed.

(** The reversed prefix stays sorted, largest key first. *)
Lemma insert_back_sorted (x : A) (rp : list A) :
  StronglySorted (fun y z => key z <= key y) rp ->
  StronglySorted (fun y z => key z <= key y) (insert_back less x rp).
Proof.
  induction 1 as [|y rp Hrp IH Hy]; cbn; [repeat constructor |].
  rewrite less_key. destruct (Z.ltb_spec (key x) (key y)).
  - constructor; [exact IH |]. apply Forall_insert_back; [lia | exact Hy].
  - constructor; [now constructor |]. constructor; [assumption |].
    eapply Forall_impl; [exact Hy |]. cbn. intros z Hz. lia.
Qed.

(** An element passes only elements of a larger key, so the elements of any
    one key keep their order. *)
Lemma filter_insert_back (m : Z) (x : A) (rp : list A) :
  List.filter (fun y => key y =? m) (insert_back less x rp)
  = List.filter (fun y => key y =? m) (x :: rp).
Proof.
  induction rp as [|y rp IH]; [reflexivity |].
  cbn [insert_back]. rewrite less_key.
  destruct (Z.ltb_spec (key x) (key y)); [| reflexivity].
  cbn [List.filter] in *. rewrite IH.
  destruct (Z.eqb_spec (key y) m), (Z.eqb_spec (key x) m); try reflexivity; lia.
Qed.

Lemma insertion_fold_sorted (l rp : list A) :
  StronglySorted (fun y z => key z <= key y) rp ->
  StronglySorted (fun y z => key z <= key y)
    (foldl (fun rp x => insert_back less x rp) rp l).
Proof.
  revert rp. induction l as [|x l IH]; intros rp Hrp; [exact Hrp |].
  cbn [foldl]. apply IH, insert_back_sorted, Hrp.
Qed.

Lemma insertion_fold_filter (m : Z) (l rp : list A) :
  List.filter (fun y => key y =? m)
    (rev (foldl (fun rp x => insert_back less x rp) rp l))
  = List.filter (fun y => key y =? m) (rev rp ++ l).
Proof.
  revert rp. induction l as [|x l IH]; intros rp; cbn [foldl].
  - now rewrite app_nil_r.
  - rewrite IH.
    rewrite !List.filter_app, !List.filter_rev, filter_insert_back.
    cbn [List.filter].
    destruct (key x =? m); cbn [rev List.filter app];
      [now rewrite <- app_assoc | reflexivity].
Qed.

Lemma insertion_fold_length (l rp : list A) :
  length (foldl (fun rp x => insert_back less x rp) rp l) = (length rp + length l)%nat.
Proof.
  revert rp. induction l as [|x l IH]; intros rp; cbn [foldl length]; [lia |].
  rewrite IH, insert_back_length. lia.
Qed.

Lemma insertion_sorted_length (l : list A) :
  length (insertion_sorted less l) = length l.
Proof. unfold insertion_sorted. now rewrite length_rev, insertion_fold_length. Qed.

Lemma insertion_sorted_sorted (l : list A) :
  StronglySorted (fun x y => key x <= key y) (insertion_sorted less l).
Proof.
  unfold insertion_sorted.
  apply (StronglySorted_rev (fun y z => key z <= key y)).
  apply insertion_fold_sorted. constructor.
Qed.

Lemma insertion_sorted_filter (m : Z) (l : list A) :
  List.filter (fun y => key y =? m) (insertion_sorted less l)
  = List.filter (fun y => key y =? m) l.
Proof. unfold insertion_sorted. now rewrite insertion_fold_filter. Qed.

Local Open Scope nat_scope.

(** [insertionSort_func] sorts the range [a, b) and touches nothing else. *)
Lemma insertionSort_func_range (data : list A) (a b : nat) :
  a <= b -> b <= length data ->
  same_range data (sort.insertionSort_func less data a b) a b /\
  sorted_range key (sort.insertionSort_func less data a b) a b.
Proof.
  intros Hab Hb.
  pose proof (range_split data a b Hab Hb) as Hsplit.
  set (P := take a data) in *. set (M := take (b - a) (drop a data)) in *.
  set (R := drop b data) in *.
  assert (HP : length P = a) by (subst P; rewrite length_take; lia).
  assert (HM : length M = b - a)
    by (subst M; rewrite length_take, length_drop; lia).
  assert (Hres : sort.insertionSort_func less data a b
                 = P ++ insertion_sorted less M ++ R).
  { rewrite Hsplit at 1. rewrite <- HP at 1.
    replace b with (length P + length M) at 1 by lia.
    apply insertionSort_func_spec. }
  rewrite Hres. split.
  - split.
    + rewrite <- Hres. apply insertionSort_func_Permutation.
    + intros k Hk. rewrite (f_equal (fun l => l !! k) Hsplit). destruct Hk as [Hk|Hk].
      * rewrite !lookup_app_l by lia. reflexivity.
      * rewrite !(lookup_app_r P) by lia.
        rewrite !lookup_app_r by (rewrite ?insertion_sorted_length; lia).
        now rewrite insertion_sorted_length.
  - intros i j Hai Hij Hjb. unfold kat.
    rewrite !(lookup_app_r P) by lia.
    rewrite !lookup_app_l by (rewrite insertion_sorted_length; lia).
    destruct (decide (i = j)) as [->|Hne]; [lia |].
    destruct (lookup_lt_is_Some_2 (insertion_sorted less M) (i - length P)
                ltac:(rewrite insertion_sorted_length; lia)) as [x Hx].
    destruct (lookup_lt_is_Some_2 (insertion_sorted less M) (j - length P)
                ltac:(rewrite insertion_sorted_length; lia)) as [y Hy].
    rewrite Hx, Hy.
    apply (StronglySorted_lookup (fun x y => (key x <= key y)%Z)
             (insertion_sorted less M) (i - length P) (j - length P));
      [apply insertion_sorted_sorted | lia | exact Hx | exact Hy].
Qed.
End insertion_sorted_facts.

(** ** [partition_func] *)

Section partition.
Context {A : Type}.
Variable less : A -> A -> bool.
Variable key : A -> Z.
Hypothesis less_key : forall x y, less x y = (key x <? key y).
Local Open Scope nat_scope.

Lemma scan_less_spec (n : nat) (data : list A) (a i j : nat) :
  i <= j + 1 -> j < length data -> a < length data -> j + 1 - i <= n ->
  let i' := sort.scan_less less n data a i j in
  i <= i' /\ i' <= j + 1 /\
  (forall k, i <= k -> k < i' -> (kat key data k < kat key data a)%Z) /\
  (i' <= j -> (kat key data a <= kat key data i')%Z).
Proof.
  revert i. induction n as [|n IH]; intros i Hi Hj Ha Hn; cbn [sort.scan_less].
  - repeat apply conj; intros; lia.
  - destruct (Nat.leb_spec i j) as [Hij|Hij]; cbn [andb];
      [| repeat apply conj; intros; lia].
    rewrite (Less_kat less key less_key) by lia.
    destruct (Z.ltb_spec (kat key data i) (kat key data a)) as [Hlt|Hge].
    + destruct (IH (i + 1) ltac:(lia) Hj Ha ltac:(lia)) as [H1 [H2 [H3 H4]]].
      repeat apply conj.
      * lia.
      * lia.
      * intros k Hk1 Hk2. destruct (decide (k = i)) as [->|]; [exact Hlt |].
        apply H3; lia.
      * exact H4.
    + repeat apply conj; intros; lia.
Qed.

Lemma scan_not_less_spec (n : nat) (data : list A) (a i j : nat) :
  0 < i -> i <= j + 1 -> j < length data -> a < length data -> j + 1 - i <= n ->
  let j' := sort.scan_not_less less n data a i j in
  j' <= j /\ i <= j' + 1 /\
  (forall k, j' < k -> k <= j -> (kat key data a <= kat key data k)%Z) /\
  (i <= j' -> (kat key data j' < kat key data a)%Z).
Proof.
  revert j. induction n as [|n IH]; intros j H0 Hi Hj Ha Hn;
    cbn [sort.scan_not_less].
  - repeat apply conj; intros; lia.
  - destruct (Nat.leb_spec i j) as [Hij|Hij]; cbn [andb];
      [| repeat apply conj; intros; lia].
    rewrite (Less_kat less key less_key) by lia.
    destruct (Z.ltb_spec (kat key data j) (kat key data a)) as [Hlt|Hge]; cbn [negb].
    + repeat apply conj; intros; lia.
    + destruct (IH (j - 1) H0 ltac:(lia) ltac:(lia) Ha ltac:(lia)) as [H1 [H2 [H3 H4]]].
      repeat apply conj.
      * lia.
      * lia.
      * intros k Hk1 Hk2. destruct (decide (k = j)) as [->|]; [exact Hge |].
        apply H3; lia.
      * intros Hle. apply H4. lia.
Qed.

(** One round of the partition loop: the scans either meet, and the
    partition is complete, or stop at a pair to exchange. *)
Lemma part_round (data : list A) (a b : nat) (p : Z) (i j : nat) :
  part_inv key data a b p i j ->
  let i1 := sort.scan_less less (j + 1 - i) data a i j in
  let j1 := sort.scan_not_less less (j + 1 - i1) data a i1 j in
  (j1 < i1 -> part_post key data a b p j1) /\
  (i1 <= j1 ->
   a < i1 /\ j1 < b /\ j1 - 1 + 1 - (i1 + 1) < j + 1 - i /\
   part_inv key (sort.Swap data i1 j1) a b p (i1 + 1) (j1 - 1)).
Proof.
  intros (Hai & Hij & Hjb & Hb & Hp & Hlo & Hhi) i1 j1.
  destruct (scan_less_spec (j + 1 - i) data a i j Hij ltac:(lia) ltac:(lia)
              ltac:(lia)) as (Hi1 & Hi2 & Hi3 & Hi4).
  fold i1 in Hi1, Hi2, Hi3, Hi4.
  destruct (scan_not_less_spec (j + 1 - i1) data a i1 j ltac:(lia) Hi2 ltac:(lia)
              ltac:(lia) ltac:(lia)) as (Hj1 & Hj2 & Hj3 & Hj4).
  fold j1 in Hj1, Hj2, Hj3, Hj4.
  rewrite Hp in *. split.
  - intros Hlt. unfold part_post. repeat apply conj.
    + lia.
    + lia.
    + lia.
    + exact Hp.
    + intros k Hk1 Hk2. destruct (decide (k < i)); [now apply Hlo |].
      apply Hi3; lia.
    + intros k Hk1 Hk2. destruct (decide (k <= j)); [apply Hj3; lia |].
      apply Hhi; lia.
  - intros Hle.
    assert (Hne : i1 <> j1).
    { intros Heq. specialize (Hi4 ltac:(lia)). specialize (Hj4 ltac:(lia)).
      rewrite Heq in Hi4. lia. }
    unfold part_inv. repeat apply conj.
    + lia.
    + lia.
    + lia.
    + lia.
    + lia.
    + lia.
    + rewrite Swap_length. lia.
    + rewrite (kat_Swap key) by lia.
      destruct (decide (a = j1)); [lia |]. destruct (decide (a = i1)); [lia | exact Hp].
    + intros k Hk1 Hk2. rewrite (kat_Swap key) by lia.
      destruct (decide (k = j1)); [lia |].
      destruct (decide (k = i1)) as [->|]; [apply Hj4; lia |].
      destruct (decide (k < i)); [now apply Hlo |]. apply Hi3; lia.
    + intros k Hk1 Hk2. rewrite (kat_Swap key) by lia.
      destruct (decide (k = j1)) as [->|]; [apply Hi4; lia |].
      destruct (decide (k = i1)); [lia |].
      destruct (decide (k <= j)); [apply Hj3; lia |]. apply Hhi; lia.
Qed.

Lemma partition_loop_spec (n : nat) (data : list A) (a b : nat) (p : Z) (i j : nat) :
  part_inv key data a b p i j -> j + 1 - i <= n ->
  same_range data (fst (sort.partition_loop less n data a i j)) (a + 1) b /\
  part_post key (fst (sort.partition_loop less n data a i j)) a b p
            (snd (sort.partition_loop less n data a i j)).
Proof.
  revert data i j. induction n as [|n IH]; intros data i j Hinv Hn;
    pose proof (part_round data a b p i j Hinv) as [Hdone Hstep];
    cbn [sort.partition_loop].
  - destruct (Nat.ltb_spec
                (sort.scan_not_less less
                   (j + 1 - sort.scan_less less (j + 1 - i) data a i j) data a
                   (sort.scan_less less (j + 1 - i) data a i j) j)
                (sort.scan_less less (j + 1 - i) data a i j)) as [Hlt|Hge].
    + split; [apply same_range_refl | now apply Hdone].
    + specialize (Hstep Hge). lia.
  - destruct (Nat.ltb_spec
                (sort.scan_not_less less
                   (j + 1 - sort.scan_less less (j + 1 - i) data a i j) data a
                   (sort.scan_less less (j + 1 - i) data a i j) j)
                (sort.scan_less less (j + 1 - i) data a i j)) as [Hlt|Hge].
    + split; [apply same_range_refl | now apply Hdone].
    + destruct (Hstep Hge) as (H1 & H2 & H3 & Hinv').
      destruct (IH _ _ _ Hinv' ltac:(lia)) as [Hsame Hpost].
      split; [| exact Hpost].
      eapply same_range_trans; [| exact Hsame].
      destruct Hinv as (? & ? & ? & ? & _).
      apply same_range_Swap; lia.
Qed.

(** [partition_func] puts the pivot at [mid], the smaller keys before it and
    the others after it, within the range. *)
Lemma partition_func_spec (data : list A) (a b pivot : nat) :
  a <= pivot -> pivot < b -> b <= length data ->
  let r := sort.partition_func less data a b pivot in
  let data' := fst (fst r) in
  let mid := snd (fst r) in
  same_range data data' a b /\ a <= mid /\ mid < b /\
  kat key data' mid = kat key data pivot /\
  (forall k, a <= k -> k < mid -> (kat key data' k < kat key data pivot)%Z) /\
  (forall k, mid < k -> k < b -> (kat key data pivot <= kat key data' k)%Z).
Proof.
  intros Hap Hpb Hb.
  set (p := kat key data pivot).
  set (data0 := sort.Swap data a pivot).
  assert (Hs0 : same_range data data0 a b) by (apply same_range_Swap; lia).
  assert (Hlen0 : length data0 = length data) by apply Swap_length.
  assert (Hp0 : kat key data0 a = p).
  { subst data0 p. rewrite (kat_Swap key) by lia.
    destruct (decide (a = pivot)) as [->|]; [reflexivity |].
    destruct (decide (a = a)); [reflexivity | lia]. }
  assert (Hinv0 : part_inv key data0 a b p (a + 1) (b - 1)).
  { unfold part_inv. repeat apply conj; try lia; intros; lia. }
  (* closing a complete partition with the last swap *)
  assert (Hclose : forall d j, part_post key d a b p j ->
            same_range d (sort.Swap d j a) a b /\
            kat key (sort.Swap d j a) j = p /\
            (forall k, a <= k -> k < j -> (kat key (sort.Swap d j a) k < p)%Z) /\
            (forall k, j < k -> k < b -> (p <= kat key (sort.Swap d j a) k)%Z)).
  { intros d j (Haj & Hjb & Hbd & Hpd & Hlo & Hhi). unfold same_range.
    split; [split |]; [| | repeat apply conj].
    - apply Swap_Permutation.
    - intros k Hk. rewrite lookup_Swap by lia.
      destruct (decide (k = a)); [lia |]. destruct (decide (k = j)); [lia | reflexivity].
    - rewrite (kat_Swap key) by lia.
      destruct (decide (j = a)) as [->|]; [exact Hpd |].
      destruct (decide (j = j)); [exact Hpd | lia].
    - intros k Hk1 Hk2. rewrite (kat_Swap key) by lia.
      destruct (decide (k = a)) as [->|]; [apply Hlo; lia |].
      destruct (decide (k = j)); [lia |]. apply Hlo; lia.
    - intros k Hk1 Hk2. rewrite (kat_Swap key) by lia.
      destruct (decide (k = a)); [lia |].
      destruct (decide (k = j)); [lia |]. now apply Hhi. }
  pose proof (part_round data0 a b p (a + 1) (b - 1) Hinv0) as [Hdone Hstep].
  unfold sort.partition_func. fold data0.
  destruct (Nat.ltb_spec
              (sort.scan_not_less less
                 (b - 1 + 1 - sort.scan_less less (b - 1 + 1 - (a + 1)) data0 a (a + 1) (b - 1))
                 data0 a
                 (sort.scan_less less (b - 1 + 1 - (a + 1)) data0 a (a + 1) (b - 1))
                 (b - 1))
              (sort.scan_less less (b - 1 + 1 - (a + 1)) data0 a (a + 1) (b - 1)))
    as [Hlt|Hge].
  - cbn [fst snd]. specialize (Hdone Hlt).
    destruct (Hclose _ _ Hdone) as (Hc1 & Hc2 & Hc3 & Hc4).
    destruct Hdone as (? & ? & _).
    split; [| repeat apply conj; assumption].
    eapply same_range_trans; [exact Hs0 | exact Hc1].
  - destruct (Hstep Hge) as (H1 & H2 & H3 & Hinv1).
    set (i1 := sort.scan_less less (b - 1 + 1 - (a + 1)) data0 a (a + 1) (b - 1)) in *.
    set (j1 := sort.scan_not_less less (b - 1 + 1 - i1) data0 a i1 (b - 1)) in *.
    destruct (partition_loop_spec (j1 - i1) _ a b p _ _ Hinv1 ltac:(lia))
      as [Hsame Hpost].
    destruct (sort.partition_loop less (j1 - i1) (sort.Swap data0 i1 j1) a
                (i1 + 1) (j1 - 1)) as [d2 j2].
    cbn [fst snd] in *.
    destruct (Hclose _ _ Hpost) as (Hc1 & Hc2 & Hc3 & Hc4).
    destruct Hpost as (? & ? & _).
    split; [| repeat apply conj; assumption].
    eapply same_range_trans; [exact Hs0 |].
    eapply same_range_trans; [| exact Hc1].
    eapply same_range_trans;
      [| apply (same_range_weaken _ _ (a + 1) b a b); [lia | lia | exact Hsame]].
    apply same_range_Swap; lia.
Qed.
End partition.

(** ** [partitionEqual_func] *)

Section partitionEqual.
Context {A : Type}.
Variable less : A -> A -> bool.
Variable key : A -> Z.
Hypothesis less_key : forall x y, less x y = (key x <? key y).
Local Open Scope nat_scope.

Lemma scan_not_greater_spec (n : nat) (data : list A) (a i j : nat) :
  i <= j + 1 -> j < length data -> a < length data -> j + 1 - i <= n ->
  let i' := sort.scan_not_greater less n data a i j in
  i <= i' /\ i' <= j + 1 /\
  (forall k, i <= k -> k < i' -> (kat key data k <= kat key data a)%Z) /\
  (i' <= j -> (kat key data a < kat key data i')%Z).
Proof.
  revert i. induction n as [|n IH]; intros i Hi Hj Ha Hn;
    cbn [sort.scan_not_greater].
  - repeat apply conj; intros; lia.
  - destruct (Nat.leb_spec i j) as [Hij|Hij]; cbn [andb];
      [| repeat apply conj; intros; lia].
    rewrite (Less_kat less key less_key) by lia.
    destruct (Z.ltb_spec (kat key data a) (kat key data i)) as [Hlt|Hge]; cbn [negb].
    + repeat apply conj; intros; lia.
    + destruct (IH (i + 1) ltac:(lia) Hj Ha ltac:(lia)) as [H1 [H2 [H3 H4]]].
      repeat apply conj.
      * lia.
      * lia.
      * intros k Hk1 Hk2. destruct (decide (k = i)) as [->|]; [exact Hge |].
        apply H3; lia.
      * exact H4.
Qed.

Lemma scan_greater_spec (n : nat) (data : list A) (a i j : nat) :
  0 < i -> i <= j + 1 -> j < length data -> a < length data -> j + 1 - i <= n ->
  let j' := sort.scan_greater less n data a i j in
  j' <= j /\ i <= j' + 1 /\
  (forall k, j' < k -> k <= j -> (kat key data a < kat key data k)%Z) /\
  (i <= j' -> (kat key data j' <= kat key data a)%Z).
Proof.
  revert j. induction n as [|n IH]; intros j H0 Hi Hj Ha Hn;
    cbn [sort.scan_greater].
  - repeat apply conj; intros; lia.
  - destruct (Nat.leb_spec i j) as [Hij|Hij]; cbn [andb];
      [| repeat apply conj; intros; lia].
    rewrite (Less_kat less key less_key) by lia.
    destruct (Z.ltb_spec (kat key data a) (kat key data j)) as [Hlt|Hge].
    + destruct (IH (j - 1) H0 ltac:(lia) ltac:(lia) Ha ltac:(lia)) as [H1 [H2 [H3 H4]]].
      repeat apply conj.
      * lia.
      * lia.
      * intros k Hk1 Hk2. destruct (decide (k = j)) as [->|]; [exact Hlt |].
        apply H3; lia.
      * intros Hle. apply H4. lia.
    + repeat apply conj; intros; lia.
Qed.

Lemma parteq_round (data : list A) (a b : nat) (p : Z) (i j : nat) :
  parteq_inv key data a b p i j ->
  let i1 := sort.scan_not_greater less (j + 1 - i) data a i j in
  let j1 := sort.scan_greater less (j + 1 - i1) data a i1 j in
  (j1 < i1 -> parteq_post key data a b p i1) /\
  (i1 <= j1 ->
   a < i1 /\ j1 < b /\ j1 - 1 + 1 - (i1 + 1) < j + 1 - i /\
   parteq_inv key (sort.Swap data i1 j1) a b p (i1 + 1) (j1 - 1)).
Proof.
  intros (Hai & Hij & Hjb & Hb & Hp & Hlo & Hhi) i1 j1.
  destruct (scan_not_greater_spec (j + 1 - i) data a i j Hij ltac:(lia) ltac:(lia)
              ltac:(lia)) as (Hi1 & Hi2 & Hi3 & Hi4).
  fold i1 in Hi1, Hi2, Hi3, Hi4.
  destruct (scan_greater_spec (j + 1 - i1) data a i1 j ltac:(lia) Hi2 ltac:(lia)
              ltac:(lia) ltac:(lia)) as (Hj1 & Hj2 & Hj3 & Hj4).
  fold j1 in Hj1, Hj2, Hj3, Hj4.
  rewrite Hp in *. split.
  - intros Hlt. unfold parteq_post. repeat apply conj.
    + lia.
    + lia.
    + lia.
    + exact Hp.
    + intros k Hk1 Hk2. destruct (decide (k < i)); [now apply Hlo |].
      apply Hi3; lia.
    + intros k Hk1 Hk2. destruct (decide (k <= j)); [apply Hj3; lia |].
      apply Hhi; lia.
  - intros Hle.
    assert (Hne : i1 <> j1).
    { intros Heq. specialize (Hi4 ltac:(lia)). specialize (Hj4 ltac:(lia)).
      rewrite Heq in Hi4. lia. }
    unfold parteq_inv. repeat apply conj.
    + lia.
    + lia.
    + lia.
    + lia.
    + lia.
    + lia.
    + rewrite Swap_length. lia.
    + rewrite (kat_Swap key) by lia.
      destruct (decide (a = j1)); [lia |]. destruct (decide (a = i1)); [lia | exact Hp].
    + intros k Hk1 Hk2. rewrite (kat_Swap key) by lia.
      destruct (decide (k = j1)); [lia |].
      destruct (decide (k = i1)) as [->|]; [apply Hj4; lia |].
      destruct (decide (k < i)); [now apply Hlo |]. apply Hi3; lia.
    + intros k Hk1 Hk2. rewrite (kat_Swap key) by lia.
      destruct (decide (k = j1)) as [->|]; [apply Hi4; lia |].
      destruct (decide (k = i1)); [lia |].
      destruct (decide (k <= j)); [apply Hj3; lia |]. apply Hhi; lia.
Qed.

Lemma partitionEqual_loop_spec (n : nat) (data : list A) (a b : nat) (p : Z)
    (i j : nat) :
  parteq_inv key data a b p i j -> j + 1 - i <= n ->
  same_range data (fst (sort.partitionEqual_loop less n data a i j)) (a + 1) b /\
  parteq_post key (fst (sort.partitionEqual_loop less n data a i j)) a b p
              (snd (sort.partitionEqual_loop less n data a i j)).
Proof.
  revert data i j. induction n as [|n IH]; intros data i j Hinv Hn;
    pose proof (parteq_round data a b p i j Hinv) as [Hdone Hstep];
    cbn [sort.partitionEqual_loop].
  - destruct (Nat.ltb_spec
                (sort.scan_greater less
                   (j + 1 - sort.scan_not_greater less (j + 1 - i) data a i j) data a
                   (sort.scan_not_greater less (j + 1 - i) data a i j) j)
                (sort.scan_not_greater less (j + 1 - i) data a i j)) as [Hlt|Hge].
    + split; [apply same_range_refl | now apply Hdone].
    + specialize (Hstep Hge). lia.
  - destruct (Nat.ltb_spec
                (sort.scan_greater less
                   (j + 1 - sort.scan_not_greater less (j + 1 - i) data a i j) data a
                   (sort.scan_not_greater less (j + 1 - i) data a i j) j)
                (sort.scan_not_greater less (j + 1 - i) data a i j)) as [Hlt|Hge].
    + split; [apply same_range_refl | now apply Hdone].
    + destruct (Hstep Hge) as (H1 & H2 & H3 & Hinv').
      destruct (IH _ _ _ Hinv' ltac:(lia)) as [Hsame Hpost].
      split; [| exact Hpost].
      eapply same_range_trans; [| exact Hsame].
      destruct Hinv as (? & ? & ? & ? & _).
      apply same_range_Swap; lia.
Qed.

(** [partitionEqual_func] gathers the keys not larger than the pivot key in
    [a, mid) and the larger ones in [mid, b). *)
Lemma partitionEqual_func_spec (data : list A) (a b pivot : nat) :
  a <= pivot -> pivot < b -> b <= length data ->
  let r := sort.partitionEqual_func less data a b pivot in
  same_range data (fst r) a b /\ a < snd r /\ snd r <= b /\
  (forall k, a <= k -> k < snd r -> (kat key (fst r) k <= kat key data pivot)%Z) /\
  (forall k, snd r <= k -> k < b -> (kat key data pivot < kat key (fst r) k)%Z).
Proof.
  intros Hap Hpb Hb.
  set (p := kat key data pivot).
  set (data0 := sort.Swap data a pivot).
  assert (Hs0 : same_range data data0 a b) by (apply same_range_Swap; lia).
  assert (Hlen0 : length data0 = length data) by apply Swap_length.
  assert (Hp0 : kat key data0 a = p).
  { subst data0 p. rewrite (kat_Swap key) by lia.
    destruct (decide (a = pivot)) as [->|]; [reflexivity |].
    destruct (decide (a = a)); [reflexivity | lia]. }
  assert (Hinv0 : parteq_inv key data0 a b p (a + 1) (b - 1)).
  { unfold parteq_inv. repeat apply conj; try lia; intros; lia. }
  unfold sort.partitionEqual_func. fold data0. cbv zeta.
  destruct (partitionEqual_loop_spec (b - a) data0 a b p (a + 1) (b - 1) Hinv0
              ltac:(lia)) as [Hsame (H1 & H2 & H3 & H4 & H5 & H6)].
  split; [| repeat apply conj].
  - eapply same_range_trans; [exact Hs0 |].
    apply (same_range_weaken _ _ (a + 1) b a b); [lia | lia | exact Hsame].
  - exact H1.
  - exact H2.
  - intros k Hk1 Hk2. destruct (decide (k = a)) as [->|]; [lia |].
    apply H5; lia.
  - exact H6.
Qed.
End partitionEqual.

(** ** The helpers of [pdqsort_func] stay within the range *)

Section helpers.
Context {A : Type}.
Variable less : A -> A -> bool.
Variable key : A -> Z.
Hypothesis less_key : forall x y, less x y = (key x <? key y).
Local Open Scope nat_scope.

Lemma nextPowerOfTwo_bound (length : nat) :
  0 < length -> (sort.nextPowerOfTwo length <= 2 * N.of_nat length)%N.
Proof.
  intros Hl. unfold sort.nextPowerOfTwo, sort.bits_Len.
  rewrite N.shiftl_1_l, N2Nat.id, N.size_log2 by lia.
  rewrite N.pow_succ_r'.
  pose proof (N.log2_spec (N.of_nat length) ltac:(lia)) as [H _]. lia.
Qed.

Lemma breakPatterns_other (length : nat) (random : N) :
  0 < length ->
  let other := N.to_nat (N.land random (sort.nextPowerOfTwo length - 1)) in
  (if length <=? other then other - length else other) < length.
Proof.
  intros Hl other.
  assert (Hother : other < 2 * length).
  { subst other. pose proof (nextPowerOfTwo_bound length Hl) as Hb.
    unfold sort.nextPowerOfTwo in *. rewrite N.shiftl_1_l in *.
    rewrite N.sub_1_r, <- N.ones_equiv, N.land_ones.
    pose proof (N.mod_lt random (2 ^ N.of_nat (sort.bits_Len length))
                  ltac:(apply N.pow_nonzero; lia)). lia. }
  destruct (Nat.leb_spec length other); lia.
Qed.

Lemma breakPatterns_func_range (data : list A) (a b : nat) :
  b <= length data -> same_range data (sort.breakPatterns_func data a b) a b.
Proof.
  intros Hb. unfold sort.breakPatterns_func.
  destruct (Nat.leb_spec 8 (b - a)) as [Hl|Hl]; [| apply same_range_refl].
  assert (Hdiv : 2 <= (b - a) / 4) by (apply Nat.div_le_lower_bound; lia).
  assert (Hdiv' : (b - a) / 4 * 4 <= b - a).
  { pose proof (Nat.div_mod (b - a) 4 ltac:(lia)). lia. }
  unfold sort.breakPatterns_step.
  assert (Hstep : forall (d : list A) i random, i <= 2 -> length d = length data ->
            same_range d
              (sort.Swap d (a + (b - a) / 4 * 2 - 1 + i)
                 (a + (if b - a <=? N.to_nat (N.land random (sort.nextPowerOfTwo (b - a) - 1))
                       then N.to_nat (N.land random (sort.nextPowerOfTwo (b - a) - 1)) - (b - a)
                       else N.to_nat (N.land random (sort.nextPowerOfTwo (b - a) - 1)))))
              a b).
  { intros d i random Hi Hd.
    pose proof (breakPatterns_other (b - a) random ltac:(lia)) as Ho. cbv zeta in Ho.
    apply same_range_Swap; lia. }
  eapply same_range_trans; [apply (Hstep data 0); [lia | reflexivity] |].
  eapply same_range_trans; [apply (Hstep _ 1); [lia | apply Swap_length] |].
  apply (Hstep _ 2); [lia | now rewrite !Swap_length].
Qed.

Lemma reverseRange_func_range (data : list A) (a b : nat) :
  b <= length data -> same_range data (sort.reverseRange_func data a b) a b.
Proof.
  intros Hb. unfold sort.reverseRange_func.
  enough (H : forall n (d : list A) i j, a <= i -> j < b -> b <= length d ->
                same_range d (sort.reverseRange_loop n d i j) a b).
  { destruct (decide (a < b)) as [Hab|Hab].
    - apply H; lia.
    - replace (b - a) with 0 by lia. apply same_range_refl. }
  induction n as [|n IH]; intros d i j Hi Hj Hd; cbn [sort.reverseRange_loop];
    [apply same_range_refl |].
  destruct (Nat.ltb_spec i j); [| apply same_range_refl].
  eapply same_range_trans; [apply (same_range_Swap d a b i j); lia |].
  apply IH; [lia | lia | now rewrite Swap_length].
Qed.

Lemma order2_func_among (data : list A) (x y swaps : nat) :
  let r := sort.order2_func less data x y swaps in
  (fst (fst r) = x /\ snd (fst r) = y) \/ (fst (fst r) = y /\ snd (fst r) = x).
Proof.
  unfold sort.order2_func. destruct (sort.Less less data y x); cbn; auto.
Qed.

Lemma median_func_among (data : list A) (x y z swaps : nat) :
  let m := fst (sort.median_func less data x y z swaps) in m = x \/ m = y \/ m = z.
Proof.
  unfold sort.median_func.
  pose proof (order2_func_among data x y swaps) as H1.
  destruct (sort.order2_func less data x y swaps) as [[x1 y1] s1]. cbn [fst snd] in H1.
  pose proof (order2_func_among data y1 z s1) as H2.
  destruct (sort.order2_func less data y1 z s1) as [[y2 z2] s2]. cbn [fst snd] in H2.
  pose proof (order2_func_among data x1 y2 s2) as H3.
  destruct (sort.order2_func less data x1 y2 s2) as [[x3 y3] s3]. cbn [fst snd] in *.
  lia.
Qed.

Lemma median_func_bounds (data : list A) (x y z swaps lo hi : nat) :
  lo <= x < hi -> lo <= y < hi -> lo <= z < hi ->
  lo <= fst (sort.median_func less data x y z swaps) < hi.
Proof.
  intros Hx Hy Hz. pose proof (median_func_among data x y z swaps) as H.
  cbv zeta in H. lia.
Qed.

(** The pivot is a position of the range. *)
Lemma choosePivot_func_bounds (data : list A) (a b : nat) :
  a < b -> a <= fst (sort.choosePivot_func less data a b) < b.
Proof.
  intros Hab. unfold sort.choosePivot_func.
  assert (Hdiv : (b - a) / 4 * 4 <= b - a).
  { pose proof (Nat.div_mod (b - a) 4 ltac:(lia)). lia. }
  set (q := (b - a) / 4) in *.
  assert (Hres : forall js : nat * nat,
            a <= fst js < b ->
            a <= fst (if (snd js =? 0) then (fst js, sort.increasingHint)
                      else if (snd js =? sort.maxSwaps) then (fst js, sort.decreasingHint)
                      else (fst js, sort.unknownHint)) < b).
  { intros [j s] Hj. cbn [fst snd] in *.
    destruct (s =? 0); [exact Hj |]. destruct (s =? sort.maxSwaps); exact Hj. }
  destruct (Nat.leb_spec 8 (b - a)) as [H8|H8].
  - destruct (Nat.leb_spec sort.shortestNinther (b - a)) as [H50|H50].
    + unfold sort.shortestNinther in H50.
      assert (Hq : 12 <= q) by (apply Nat.div_le_lower_bound; lia).
      unfold sort.medianAdjacent_func.
      pose proof (median_func_bounds data (a + q * 1 - 1) (a + q * 1) (a + q * 1 + 1) 0
                    a b ltac:(lia) ltac:(lia) ltac:(lia)) as Hi.
      destruct (sort.median_func less data (a + q * 1 - 1) (a + q * 1) (a + q * 1 + 1) 0)
        as [i s1]. cbn [fst] in Hi.
      pose proof (median_func_bounds data (a + q * 2 - 1) (a + q * 2) (a + q * 2 + 1) s1
                    a b ltac:(lia) ltac:(lia) ltac:(lia)) as Hj.
      destruct (sort.median_func less data (a + q * 2 - 1) (a + q * 2) (a + q * 2 + 1) s1)
        as [j s2]. cbn [fst] in Hj.
      pose proof (median_func_bounds data (a + q * 3 - 1) (a + q * 3) (a + q * 3 + 1) s2
                    a b ltac:(lia) ltac:(lia) ltac:(lia)) as Hk.
      destruct (sort.median_func less data (a + q * 3 - 1) (a + q * 3) (a + q * 3 + 1) s2)
        as [k s3]. cbn [fst] in Hk.
      pose proof (median_func_bounds data i j k s3 a b Hi Hj Hk) as Hm.
      destruct (sort.median_func less data i j k s3) as [m s4].
      apply (Hres (m, s4)). exact Hm.
    + assert (Hq : 2 <= q) by (apply Nat.div_le_lower_bound; lia).
      pose proof (median_func_bounds data (a + q * 1) (a + q * 2) (a + q * 3) 0 a b
                    ltac:(lia) ltac:(lia) ltac:(lia)) as Hm.
      destruct (sort.median_func less data (a + q * 1) (a + q * 2) (a + q * 3) 0)
        as [m s4].
      apply (Hres (m, s4)). exact Hm.
  - apply (Hres (a + q * 2, 0)). cbn [fst]. lia.
Qed.
End helpers.

(** ** [partialInsertionSort_func] *)

Section partialInsertionSort.
Context {A : Type}.
Variable less : A -> A -> bool.
Variable key : A -> Z.
Hypothesis less_key : forall x y, less x y = (key x <? key y).
Local Open Scope nat_scope.

(** A property of the keys of a range survives a permutation of a part of it. *)
Lemma range_kat_same_range (data data' : list A) (a b a' b' : nat) (Q : Z -> Prop) :
  a <= a' -> b' <= b -> a <= b -> b <= length data -> same_range data data' a' b' ->
  (forall k, a <= k -> k < b -> Q (kat key data k)) ->
  (forall k, a <= k -> k < b -> Q (kat key data' k)).
Proof.
  intros Ha Hb Hab Hlen Hs H.
  apply (range_all_kat key data' a b Q).
  { now rewrite (same_range_length _ _ _ _ Hs). }
  apply (range_all_same_subrange data data' a b a' b'); try assumption.
  now apply (range_all_kat key data a b Q).
Qed.

Lemma lower_bounded_same_range (data data' : list A) (a b a' b' : nat) :
  a <= a' -> b' <= b -> a <= b -> b <= length data -> same_range data data' a' b' ->
  lower_bounded key data a b -> lower_bounded key data' a b.
Proof.
  intros Ha Hb Hab Hlen Hs Hlb H0.
  rewrite (kat_frame key data data' a' b' (a - 1) Hs) by lia.
  apply (range_kat_same_range data data' a b a' b'
           (fun z => (kat key data (a - 1) <= z)%Z)); try assumption.
  now apply Hlb.
Qed.

Lemma sorted_range_adjacent (data : list A) (a b : nat) :
  (forall k, a < k -> k < b -> (kat key data (k - 1) <= kat key data k)%Z) ->
  sorted_range key data a b.
Proof.
  intros Hadj.
  assert (H : forall d i, a <= i -> i + d < b ->
                          (kat key data i <= kat key data (i + d))%Z).
  { induction d as [|d IH]; intros i Hi Hd.
    - rewrite Nat.add_0_r. lia.
    - specialize (IH i Hi ltac:(lia)).
      specialize (Hadj (i + S d) ltac:(lia) Hd).
      replace (i + S d - 1) with (i + d) in Hadj by lia. lia. }
  intros i j Hai Hij Hjb. replace j with (i + (j - i)) by lia. apply H; lia.
Qed.

Lemma sorted_range_same_below (data data' : list A) (a b : nat) :
  (forall k, k < b -> data' !! k = data !! k) ->
  sorted_range key data a b -> sorted_range key data' a b.
Proof.
  intros Heq Hs i j Hai Hij Hjb. unfold kat. rewrite !Heq by lia. now apply Hs.
Qed.

Lemma scan_sorted_spec (n : nat) (data : list A) (i b : nat) :
  0 < i -> i <= b -> b <= length data -> b - i <= n ->
  let i' := sort.scan_sorted less n data i b in
  i <= i' /\ i' <= b /\
  (forall k, i <= k -> k < i' -> (kat key data (k - 1) <= kat key data k)%Z) /\
  (i' < b -> (kat key data i' < kat key data (i' - 1))%Z).
Proof.
  revert i. induction n as [|n IH]; intros i H0 Hi Hb Hn; cbn [sort.scan_sorted].
  - repeat apply conj; intros; lia.
  - destruct (Nat.ltb_spec i b) as [Hib|Hib]; cbn [andb];
      [| repeat apply conj; intros; lia].
    rewrite (Less_kat less key less_key) by lia.
    destruct (Z.ltb_spec (kat key data i) (kat key data (i - 1))) as [Hlt|Hge];
      cbn [negb].
    + repeat apply conj; intros; lia.
    + destruct (IH (i + 1) ltac:(lia) ltac:(lia) Hb ltac:(lia)) as [H1 [H2 [H3 H4]]].
      repeat apply conj.
      * lia.
      * lia.
      * intros k Hk1 Hk2. destruct (decide (k = i)) as [->|]; [exact Hge |].
        apply H3; lia.
      * exact H4.
Qed.

(** A sorted range with a gap at [j] is sorted once the element at [j] fits. *)
Lemma sorted_range_fill (data : list A) (a j e : nat) :
  a <= j -> j < e ->
  sorted_range key data a j -> sorted_range key data (j + 1) e ->
  (forall k k', a <= k -> k < j -> j < k' -> k' < e ->
                (kat key data k <= kat key data k')%Z) ->
  (forall k, a <= k -> k < j -> (kat key data k <= kat key data j)%Z) ->
  (forall k', j < k' -> k' < e -> (kat key data j <= kat key data k')%Z) ->
  sorted_range key data a e.
Proof.
  intros Haj Hje Hlo Hhi Hcross Hl Hr i i' Hai Hii Hie.
  destruct (lt_eq_lt_dec i j) as [[Hi|Hi]|Hi], (lt_eq_lt_dec i' j) as [[Hi'|Hi']|Hi'];
    subst; try lia.
  - apply Hlo; lia.
  - apply Hl; lia.
  - apply Hcross; lia.
  - apply Hr; lia.
  - apply Hhi; lia.
Qed.

(** [shift_left] moves the element at [j] down to its place. *)
Lemma shift_left_spec (a e j : nat) (data : list A) :
  a <= j -> j < e -> e <= length data ->
  (0 < a -> (kat key data (a - 1) <= kat key data j)%Z) ->
  sorted_range key data a j -> sorted_range key data (j + 1) e ->
  (forall k k', a <= k -> k < j -> j < k' -> k' < e ->
                (kat key data k <= kat key data k')%Z) ->
  (forall k', j < k' -> k' < e -> (kat key data j <= kat key data k')%Z) ->
  same_range data (sort.shift_left less data j) a e /\
  sorted_range key (sort.shift_left less data j) a e.
Proof.
  revert data. induction j as [|j IH]; intros data Haj Hje He Hlb Hlo Hhi Hcross Hr;
    cbn [sort.shift_left].
  - split; [apply same_range_refl |].
    apply (sorted_range_fill data a 0 e); try assumption. intros; lia.
  - rewrite (Less_kat less key less_key) by lia.
    destruct (Z.ltb_spec (kat key data (S j)) (kat key data j)) as [Hlt|Hge];
      cbn [negb].
    + assert (Ha : a <= j).
      { destruct (decide (a = S j)) as [->|]; [| lia].
        specialize (Hlb ltac:(lia)). replace (S j - 1) with j in Hlb by lia. lia. }
      assert (Hk : forall k, kat key (sort.Swap data (S j) j) k =
                             if decide (k = j) then kat key data (S j)
                             else if decide (k = S j) then kat key data j
                             else kat key data k).
      { intros k. now rewrite (kat_Swap key) by lia. }
      destruct (IH (sort.Swap data (S j) j)) as [Hsame Hsorted].
      * exact Ha.
      * lia.
      * now rewrite Swap_length.
      * intros H0. rewrite !Hk.
        destruct (decide (a - 1 = j)); [lia |].
        destruct (decide (a - 1 = S j)); [lia |].
        destruct (decide (j = j)); [| lia]. now apply Hlb.
      * intros i i' Hai Hii Hij. rewrite !Hk.
        destruct (decide (i = j)); [lia |]. destruct (decide (i = S j)); [lia |].
        destruct (decide (i' = j)); [lia |]. destruct (decide (i' = S j)); [lia |].
        apply Hlo; lia.
      * intros i i' Hai Hii Hie. rewrite !Hk.
        destruct (decide (i = j)); [lia |]. destruct (decide (i' = j)); [lia |].
        destruct (decide (i = S j)) as [->|Hne]; destruct (decide (i' = S j)) as [->|Hne'];
          try lia.
        -- apply Hcross; lia.
        -- apply Hhi; lia.
      * intros k k' Hak Hkj Hjk Hke. rewrite !Hk.
        destruct (decide (k = j)); [lia |]. destruct (decide (k = S j)); [lia |].
        destruct (decide (k' = j)); [lia |].
        destruct (decide (k' = S j)) as [->|]; [apply Hlo; lia |].
        apply Hcross; lia.
      * intros k' Hjk Hke. rewrite !Hk.
        destruct (decide (j = j)); [| lia]. destruct (decide (k' = j)); [lia |].
        destruct (decide (k' = S j)) as [->|]; [lia |]. apply Hr; lia.
      * split; [| exact Hsorted].
        eapply same_range_trans; [| exact Hsame]. apply same_range_Swap; lia.
    + split; [apply same_range_refl |].
      apply (sorted_range_fill data a (S j) e); try assumption.
      intros k Hak Hkj.
      specialize (Hlo k j Hak ltac:(lia) ltac:(lia)). lia.
Qed.

(** [shift_right] only exchanges positions from [j - 1] on. *)
Lemma shift_right_range (n : nat) (data : list A) (j lo hi : nat) :
  lo < j -> j + n <= hi -> hi <= length data ->
  same_range data (sort.shift_right less n data j) lo hi.
Proof.
  revert data j. induction n as [|n IH]; intros data j Hlo Hhi Hlen;
    cbn [sort.shift_right]; [apply same_range_refl |].
  destruct (negb _); [apply same_range_refl |].
  eapply same_range_trans; [apply (same_range_Swap data lo hi j (j - 1)); lia |].
  apply IH; [lia | lia | now rewrite Swap_length].
Qed.

Lemma partialInsertionSort_loop_spec (a b steps : nat) (data : list A) (i : nat) :
  a < i -> i <= b -> b <= length data ->
  lower_bounded key data a b -> sorted_range key data a i ->
  let r := sort.partialInsertionSort_loop less steps data a b i in
  same_range data (fst r) a b /\ (snd r = true -> sorted_range key (fst r) a b).
Proof.
  revert data i. induction steps as [|steps IH]; intros data i Hai Hib Hb Hlb Hs;
    cbn [sort.partialInsertionSort_loop].
  - split; [apply same_range_refl | discriminate].
  - destruct (scan_sorted_spec (b - i) data i b ltac:(lia) Hib Hb ltac:(lia))
      as (H1 & H2 & H3 & H4).
    set (i1 := sort.scan_sorted less (b - i) data i b) in *.
    assert (Hs1 : sorted_range key data a i1).
    { apply sorted_range_adjacent. intros k Hk1 Hk2.
      destruct (decide (k < i)) as [Hlt|Hge]; [apply Hs; lia | apply H3; lia]. }
    destruct (Nat.eqb_spec i1 b) as [Heq|Hne].
    { cbn [fst snd]. split; [apply same_range_refl |]. intros _. now rewrite <- Heq. }
    destruct (Nat.ltb_spec (b - a) sort.shortestShifting).
    { cbn [fst snd]. split; [apply same_range_refl | discriminate]. }
    specialize (H4 ltac:(lia)).
    set (d1 := sort.Swap data i1 (i1 - 1)).
    assert (Hd1 : same_range data d1 a b) by (apply same_range_Swap; lia).
    assert (Hlen1 : length d1 = length data) by apply Swap_length.
    assert (Hk : forall k, kat key d1 k =
                           if decide (k = i1 - 1) then kat key data i1
                           else if decide (k = i1) then kat key data (i1 - 1)
                           else kat key data k).
    { intros k. subst d1. now rewrite (kat_Swap key) by lia. }
    set (d2 := if 2 <=? i1 - a then sort.shift_left less d1 (i1 - 1) else d1).
    assert (Hd2 : same_range d1 d2 a i1 /\ sorted_range key d2 a i1).
    { subst d2. destruct (Nat.leb_spec 2 (i1 - a)) as [H2a|H2a].
      - apply shift_left_spec.
        + lia.
        + lia.
        + lia.
        + intros H0. rewrite !Hk.
          destruct (decide (a - 1 = i1 - 1)); [lia |].
          destruct (decide (a - 1 = i1)); [lia |].
          destruct (decide (i1 - 1 = i1 - 1)); [| lia].
          apply Hlb; lia.
        + intros k k' Hk1 Hk2 Hk3. rewrite !Hk.
          destruct (decide (k = i1 - 1)); [lia |]. destruct (decide (k = i1)); [lia |].
          destruct (decide (k' = i1 - 1)); [lia |]. destruct (decide (k' = i1)); [lia |].
          apply Hs1; lia.
        + intros k k' Hk1 Hk2 Hk3. lia.
        + intros k k' Hk1 Hk2 Hk3 Hk4. lia.
        + intros k' Hk1 Hk2. lia.
      - split; [apply same_range_refl |].
        intros k k' Hk1 Hk2 Hk3. assert (k = k') as -> by lia. lia. }
    destruct Hd2 as [Hd2 Hs2].
    assert (Hlen2 : length d2 = length data)
      by (rewrite (same_range_length _ _ _ _ Hd2); exact Hlen1).
    set (d3 := if 2 <=? b - i1 then sort.shift_right less (b - (i1 + 1)) d2 (i1 + 1)
               else d2).
    assert (Hd3 : same_range d2 d3 i1 b).
    { subst d3. destruct (2 <=? b - i1); [| apply same_range_refl].
      apply shift_right_range; lia. }
    assert (Hall : same_range data d3 a b).
    { eapply same_range_trans; [exact Hd1 |].
      eapply same_range_trans;
        [apply (same_range_weaken _ _ a i1 a b); [lia | lia | exact Hd2] |].
      apply (same_range_weaken _ _ i1 b a b); [lia | lia | exact Hd3]. }
    destruct (IH d3 i1) as [Hsame Hsorted].
    + lia.
    + lia.
    + now rewrite (same_range_length _ _ _ _ Hall).
    + apply (lower_bounded_same_range data d3 a b a b); try lia; assumption.
    + apply (sorted_range_same_below d2 d3); [| exact Hs2].
      intros k Hk'. destruct Hd3 as [_ Hf]. apply Hf. now left.
    + split; [| exact Hsorted]. eapply same_range_trans; [exact Hall | exact Hsame].
Qed.

(** [partialInsertionSort_func] permutes the range, and reports [true] only
    when it leaves the range sorted. *)
Lemma partialInsertionSort_func_spec (data : list A) (a b : nat) :
  a < b -> b <= length data -> lower_bounded key data a b ->
  let r := sort.partialInsertionSort_func less data a b in
  same_range data (fst r) a b /\ (snd r = true -> sorted_range key (fst r) a b).
Proof.
  intros Hab Hb Hlb. unfold sort.partialInsertionSort_func.
  apply partialInsertionSort_loop_spec; try lia; try assumption.
  intros i j Hi Hij Hj. assert (i = j) as -> by lia. lia.
Qed.
End partialInsertionSort.

(** ** [heapSort_func] *)

Section heapSort.
Context {A : Type}.
Variable less : A -> A -> bool.
Variable key : A -> Z.
Hypothesis less_key : forall x y, less x y = (key x <? key y).
Local Open Scope nat_scope.

Lemma siftDown_loop_spec (first lo hi n : nat) (data : list A) (root : nat) :
  lo <= root -> hi - root <= n -> first + hi <= length data ->
  (forall i c, lo <= i -> i <> root -> c < hi -> heap_child c i ->
               (kat key data (first + c) <= kat key data (first + i))%Z) ->
  (forall q c, lo <= q -> heap_child root q -> heap_child c root -> c < hi ->
               (kat key data (first + c) <= kat key data (first + q))%Z) ->
  same_range data (sort.siftDown_loop less n data root hi first)
             (first + root) (first + hi) /\
  heap_from key (sort.siftDown_loop less n data root hi first) first lo hi.
Proof.
  revert data root. induction n as [|n IH]; intros data root Hlo Hn Hlen H1 H2.
  - cbn [sort.siftDown_loop].
    destruct (Nat.leb_spec hi (2 * root + 1)) as [Hc|Hc]; [| lia].
    split; [apply same_range_refl |].
    intros i c Hi Hch Hci. destruct (decide (i = root)) as [->|Hne].
    + unfold heap_child in Hci. lia.
    + now apply H1.
  - cbn [sort.siftDown_loop].
    destruct (Nat.leb_spec hi (2 * root + 1)) as [Hc|Hc].
    { split; [apply same_range_refl |].
      intros i c Hi Hch Hci. destruct (decide (i = root)) as [->|Hne].
      - unfold heap_child in Hci. lia.
      - now apply H1. }
    set (m := if (2 * root + 1 + 1 <? hi)
                 && sort.Less less data (first + (2 * root + 1)) (first + (2 * root + 1) + 1)
              then 2 * root + 1 + 1 else 2 * root + 1).
    assert (Hm : heap_child m root /\ m < hi /\
                 forall c, c < hi -> heap_child c root ->
                           (kat key data (first + c) <= kat key data (first + m))%Z).
    { subst m. destruct (Nat.ltb_spec (2 * root + 1 + 1) hi) as [Hr|Hr]; cbn [andb].
      - rewrite (Less_kat less key less_key) by lia.
        replace (first + (2 * root + 1) + 1) with (first + (2 * root + 2)) by lia.
        destruct (Z.ltb_spec (kat key data (first + (2 * root + 1)))
                    (kat key data (first + (2 * root + 2)))) as [Hlt|Hge].
        + replace (2 * root + 1 + 1) with (2 * root + 2) by lia.
          split; [now right |]. split; [lia |].
          intros c Hch [->| ->]; lia.
        + split; [left; lia |]. split; [lia |].
          intros c Hch [->| ->]; lia.
      - split; [left; lia |]. split; [lia |].
        intros c Hch [->| ->]; lia. }
    destruct Hm as (Hmc & Hmh & Hmax).
    assert (Hmr : root < m) by (unfold heap_child in Hmc; lia).
    rewrite (Less_kat less key less_key) by lia.
    destruct (Z.ltb_spec (kat key data (first + root)) (kat key data (first + m)))
      as [Hlt|Hge]; cbn [negb].
    + set (d1 := sort.Swap data (first + root) (first + m)).
      assert (Hk : forall k, kat key d1 (first + k) =
                             if decide (k = m) then kat key data (first + root)
                             else if decide (k = root) then kat key data (first + m)
                             else kat key data (first + k)).
      { intros k. subst d1. rewrite (kat_Swap key) by lia.
        repeat case_decide; first [reflexivity | lia]. }
      destruct (IH d1 m) as [Hsame Hheap].
      * lia.
      * lia.
      * subst d1. now rewrite Swap_length.
      * intros i c Hi Him Hch Hci. rewrite !Hk.
        destruct (decide (i = m)); [lia |].
        destruct (decide (i = root)) as [->|Hir].
        -- destruct (decide (c = m)) as [->|Hcm]; [lia |].
           destruct (decide (c = root)); [unfold heap_child in Hci; lia |].
           now apply Hmax.
        -- destruct (decide (c = m)) as [->|Hcm].
           { unfold heap_child in Hci, Hmc. lia. }
           destruct (decide (c = root)) as [->|Hcr].
           ++ apply (H2 i m); assumption.
           ++ now apply H1.
      * intros q c Hq Hmq Hcm Hch. rewrite !Hk.
        assert (q = root) as -> by (unfold heap_child in Hmq, Hmc; lia).
        destruct (decide (root = m)); [lia |].
        destruct (decide (root = root)); [| lia].
        destruct (decide (c = m)); [unfold heap_child in Hcm; lia |].
        destruct (decide (c = root)); [unfold heap_child in Hcm; lia |].
        apply H1; [lia | lia | assumption | assumption].
      * split; [| exact Hheap].
        eapply same_range_trans;
          [apply (same_range_Swap data (first + root) (first + hi) (first + root)
                    (first + m)); lia |].
        apply (same_range_weaken _ _ (first + m) (first + hi)); [lia | lia | exact Hsame].
    + split; [apply same_range_refl |].
      intros i c Hi Hch Hci. destruct (decide (i = root)) as [->|Hne].
      * specialize (Hmax c Hch Hci). lia.
      * now apply H1.
Qed.

Lemma siftDown_func_spec (first lo hi : nat) (data : list A) :
  first + hi <= length data ->
  heap_from key data first (lo + 1) hi ->
  same_range data (sort.siftDown_func less data lo hi first) (first + lo) (first + hi) /\
  heap_from key (sort.siftDown_func less data lo hi first) first lo hi.
Proof.
  intros Hlen Hheap. unfold sort.siftDown_func.
  apply siftDown_loop_spec; try lia.
  - intros i c Hi Hne Hch Hci. apply Hheap; [lia | assumption | assumption].
  - intros q c Hq Hrq. unfold heap_child in Hrq. lia.
Qed.

Lemma heapSort_build_spec (first hi i : nat) (data : list A) :
  first + hi <= length data ->
  heap_from key data first (i + 1) hi ->
  same_range data (sort.heapSort_build less i data hi first) first (first + hi) /\
  heap_from key (sort.heapSort_build less i data hi first) first 0 hi.
Proof.
  revert data. induction i as [|i IH]; intros data Hlen Hheap;
    cbn [sort.heapSort_build];
    destruct (siftDown_func_spec first _ hi data Hlen Hheap) as [Hs Hh].
  - split; [| exact Hh].
    apply (same_range_weaken _ _ (first + 0) (first + hi)); [lia | lia | exact Hs].
  - destruct (IH (sort.siftDown_func less data (S i) hi first)) as [Hs' Hh'].
    + now rewrite (same_range_length _ _ _ _ Hs).
    + now replace (i + 1) with (S i) by lia.
    + split; [| exact Hh'].
      eapply same_range_trans; [| exact Hs'].
      apply (same_range_weaken _ _ (first + S i) (first + hi)); [lia | lia | exact Hs].
Qed.

(** The root of a heap holds a largest key. *)
Lemma heap_root_max (first hi : nat) (data : list A) :
  heap_from key data first 0 hi ->
  forall k, k < hi -> (kat key data (first + k) <= kat key data (first + 0))%Z.
Proof.
  intros Hheap k. induction k as [k IH] using lt_wf_ind. intros Hk.
  destruct k as [|k]; [lia |].
  assert (Hc : heap_child (S k) (k / 2)).
  { unfold heap_child. pose proof (Nat.div_mod k 2 ltac:(lia)) as Hd.
    pose proof (Nat.mod_upper_bound k 2 ltac:(lia)). lia. }
  assert (Hq : k / 2 < S k) by (apply Nat.lt_succ_r, Nat.Div0.div_le_upper_bound; lia).
  specialize (Hheap (k / 2) (S k) ltac:(lia) Hk Hc).
  specialize (IH (k / 2) Hq ltac:(lia)). lia.
Qed.

Lemma heapSort_pop_spec (first hi i : nat) (data : list A) :
  i < hi -> first + hi <= length data ->
  heap_from key data first 0 (i + 1) ->
  sorted_range key data (first + i + 1) (first + hi) ->
  (forall k k', k <= i -> i < k' -> k' < hi ->
                (kat key data (first + k) <= kat key data (first + k'))%Z) ->
  same_range data (sort.heapSort_pop less i data 0 first) first (first + hi) /\
  sorted_range key (sort.heapSort_pop less i data 0 first) first (first + hi).
Proof.
  revert data. induction i as [|i IH]; intros data Hi Hlen Hheap Hsorted Hcross.
  - cbn [sort.heapSort_pop]. rewrite Nat.add_0_r.
    set (d1 := sort.Swap data first first).
    assert (Hd1 : same_range data d1 first (first + hi))
      by (apply same_range_Swap; lia).
    assert (Hid : d1 = data).
    { subst d1. apply list_eq. intros k. rewrite lookup_Swap by lia.
      destruct (decide (k = first)) as [->|]; reflexivity. }
    assert (Hsd : sort.siftDown_func less d1 0 0 first = d1).
    { unfold sort.siftDown_func. destruct (0 - 0); reflexivity. }
    rewrite Hsd, Hid. split; [apply same_range_refl |].
    apply sorted_range_adjacent. intros k Hk1 Hk2.
    destruct (decide (k = first + 1)) as [->|Hne].
    + replace (first + 1 - 1) with (first + 0) by lia.
      apply (Hcross 0 1); lia.
    + apply Hsorted; lia.
  - cbn [sort.heapSort_pop].
    set (d1 := sort.Swap data first (first + S i)).
    assert (Hd1 : same_range data d1 first (first + S i + 1))
      by (apply same_range_Swap; lia).
    assert (Hlen1 : length d1 = length data) by apply Swap_length.
    assert (Hk : forall k, kat key d1 (first + k) =
                           if decide (k = S i) then kat key data (first + 0)
                           else if decide (k = 0) then kat key data (first + S i)
                           else kat key data (first + k)).
    { intros k. subst d1. rewrite (kat_Swap key) by lia. rewrite Nat.add_0_r.
      repeat case_decide; first [reflexivity | lia]. }
    pose proof (heap_root_max first (S i + 1) data Hheap) as Hmax.
    destruct (siftDown_func_spec first 0 (S i) d1) as [Hs2 Hh2].
    + lia.
    + intros j c Hj Hc Hjc. rewrite !Hk.
      pose proof Hjc as Hjc'. unfold heap_child in Hjc'.
      destruct (decide (c = S i)); [lia |]. destruct (decide (j = S i)); [lia |].
      destruct (decide (c = 0)); [lia |].
      destruct (decide (j = 0)); [lia |].
      apply Hheap; [lia | lia | assumption].
    + set (d2 := sort.siftDown_func less d1 0 (S i) first) in *.
      rewrite Nat.add_0_r in Hs2.
      assert (Hlen2 : length d2 = length data)
        by (rewrite (same_range_length _ _ _ _ Hs2); exact Hlen1).
      assert (H12 : same_range data d2 first (first + S i + 1)).
      { eapply same_range_trans; [exact Hd1 |].
        apply (same_range_weaken _ _ first (first + S i)); [lia | lia | exact Hs2]. }
      assert (Hhigh : forall k', S i <= k' -> k' < hi ->
                                 kat key d2 (first + k') =
                                 if decide (k' = S i) then kat key data (first + 0)
                                 else kat key data (first + k')).
      { intros k' Hk1 Hk2.
        rewrite (kat_frame key d1 d2 first (first + S i) (first + k') Hs2) by lia.
        rewrite Hk. destruct (decide (k' = S i)); [reflexivity |].
        destruct (decide (k' = 0)); [lia | reflexivity]. }
      destruct (IH d2) as [Hs3 Hsorted3].
      * lia.
      * lia.
      * now replace (i + 1) with (S i) by lia.
      * apply sorted_range_adjacent. intros k Hk1 Hk2.
        replace k with (first + (k - first)) by lia.
        replace (first + (k - first) - 1) with (first + (k - first - 1)) by lia.
        rewrite !Hhigh by lia.
        destruct (decide (k - first - 1 = S i)) as [He|Hne].
        -- destruct (decide (k - first = S i)); [lia |].
           apply (Hcross 0 (k - first)); lia.
        -- destruct (decide (k - first = S i)); [lia |].
           replace (first + (k - first - 1)) with (first + (k - first) - 1) by lia.
           apply Hsorted; lia.
      * intros k k' Hk1 Hk2 Hk3.
        rewrite (Hhigh k') by lia.
        apply (range_kat_same_range key data d2 first (first + S i + 1)
                 first (first + S i + 1)
                 (fun z => (z <= (if decide (k' = S i) then kat key data (first + 0)
                                  else kat key data (first + k')))%Z));
          try lia; try assumption.
        intros j Hj1 Hj2. replace j with (first + (j - first)) by lia.
        destruct (decide (k' = S i)); [apply Hmax; lia |].
        apply Hcross; lia.
      * split; [| exact Hsorted3].
        eapply same_range_trans;
          [apply (same_range_weaken _ _ first (first + S i + 1)); [lia | lia | exact H12] |].
        exact Hs3.
Qed.

(** [heapSort_func] sorts the range [a, b) and touches nothing else. *)
Lemma heapSort_func_range (data : list A) (a b : nat) :
  a < b -> b <= length data ->
  same_range data (sort.heapSort_func less data a b) a b /\
  sorted_range key (sort.heapSort_func less data a b) a b.
Proof.
  intros Hab Hb. unfold sort.heapSort_func.
  destruct (heapSort_build_spec a (b - a) ((b - a - 1) / 2) data) as [Hs1 Hh1].
  - lia.
  - intros i c Hi Hc Hic. unfold heap_child in Hic.
    pose proof (Nat.div_mod (b - a - 1) 2 ltac:(lia)) as Hd.
    pose proof (Nat.mod_upper_bound (b - a - 1) 2 ltac:(lia)). lia.
  - set (d1 := sort.heapSort_build less ((b - a - 1) / 2) data (b - a) a) in *.
    replace (a + (b - a)) with b in * by lia.
    destruct (heapSort_pop_spec a (b - a) (b - a - 1) d1) as [Hs2 Hsorted].
    + lia.
    + rewrite (same_range_length _ _ _ _ Hs1). lia.
    + now replace (b - a - 1 + 1) with (b - a) by lia.
    + intros i j Hi Hij Hj. lia.
    + intros k k' Hk1 Hk2 Hk3. lia.
    + replace (a + (b - a)) with b in * by lia.
      split; [| exact Hsorted]. eapply same_range_trans; [exact Hs1 | exact Hs2].
Qed.
End heapSort.

(** ** [pdqsort_func] sorts its range *)

Section pdqsort.
Context {A : Type}.
Variable less : A -> A -> bool.
Variable key : A -> Z.
Hypothesis less_key : forall x y, less x y = (key x <? key y).
Local Open Scope nat_scope.

(** A property of the keys of a range is not affected by a permutation of a
    disjoint range. *)
Lemma range_kat_frame (data data' : list A) (a b a' b' : nat) (Q : Z -> Prop) :
  b <= a' \/ b' <= a -> same_range data data' a' b' ->
  (forall k, a <= k -> k < b -> Q (kat key data k)) ->
  (forall k, a <= k -> k < b -> Q (kat key data' k)).
Proof.
  intros Hd Hs H k Hk1 Hk2.
  rewrite (kat_frame key data data' a' b' k Hs) by lia. now apply H.
Qed.

Lemma sorted_range_frame (data data' : list A) (a b a' b' : nat) :
  b <= a' \/ b' <= a -> same_range data data' a' b' ->
  sorted_range key data a b -> sorted_range key data' a b.
Proof.
  intros Hd Hs H i j Hi Hij Hj.
  rewrite !(kat_frame key data data' a' b' _ Hs) by lia. now apply H.
Qed.

(** Both orders in which [pdqsort_func] sorts the two sides of a partition
    leave the range sorted. *)
Lemma sorted_after_partition (d4 d5 r : list A) (a mid b : nat) (p : Z) :
  a <= mid -> mid < b -> b <= length d4 ->
  kat key d4 mid = p ->
  (forall k, a <= k -> k < mid -> (kat key d4 k < p)%Z) ->
  (forall k, mid < k -> k < b -> (p <= kat key d4 k)%Z) ->
  (same_range d4 d5 a mid /\ same_range d5 r (mid + 1) b) \/
  (same_range d4 d5 (mid + 1) b /\ same_range d5 r a mid) ->
  sorted_range key r a mid -> sorted_range key r (mid + 1) b ->
  same_range d4 r a b /\ sorted_range key r a b.
Proof.
  intros Ham Hmb Hlen Hp Hlo Hhi Hsame Hsl Hsr.
  assert (Hall : same_range d4 r a b /\ kat key r mid = p /\
                 (forall k, a <= k -> k < mid -> (kat key r k < p)%Z) /\
                 (forall k, mid + 1 <= k -> k < b -> (p <= kat key r k)%Z)).
  { destruct Hsame as [[H1 H2]|[H1 H2]].
    - pose proof (same_range_length _ _ _ _ H1) as Hl1.
      split; [| split; [| split]].
      + eapply same_range_trans;
          [apply (same_range_weaken _ _ a mid a b); [lia | lia | exact H1] |].
        apply (same_range_weaken _ _ (mid + 1) b a b); [lia | lia | exact H2].
      + rewrite (kat_frame key d5 r (mid + 1) b mid H2) by lia.
        rewrite (kat_frame key d4 d5 a mid mid H1) by lia. exact Hp.
      + apply (range_kat_frame d5 r a mid (mid + 1) b (fun z => (z < p)%Z));
          [lia | exact H2 |].
        apply (range_kat_same_range key d4 d5 a mid a mid (fun z => (z < p)%Z));
          try lia; assumption.
      + apply (range_kat_same_range key d5 r (mid + 1) b (mid + 1) b
                 (fun z => (p <= z)%Z)); try lia; try assumption.
        apply (range_kat_frame d4 d5 (mid + 1) b a mid (fun z => (p <= z)%Z));
          [lia | exact H1 |].
        intros k Hk1 Hk2. apply Hhi; lia.
    - pose proof (same_range_length _ _ _ _ H1) as Hl1.
      split; [| split; [| split]].
      + eapply same_range_trans;
          [apply (same_range_weaken _ _ (mid + 1) b a b); [lia | lia | exact H1] |].
        apply (same_range_weaken _ _ a mid a b); [lia | lia | exact H2].
      + rewrite (kat_frame key d5 r a mid mid H2) by lia.
        rewrite (kat_frame key d4 d5 (mid + 1) b mid H1) by lia. exact Hp.
      + apply (range_kat_same_range key d5 r a mid a mid (fun z => (z < p)%Z));
          try lia; try assumption.
        apply (range_kat_frame d4 d5 a mid (mid + 1) b (fun z => (z < p)%Z));
          [lia | exact H1 | exact Hlo].
      + apply (range_kat_frame d5 r (mid + 1) b a mid (fun z => (p <= z)%Z));
          [lia | exact H2 |].
        apply (range_kat_same_range key d4 d5 (mid + 1) b (mid + 1) b
                 (fun z => (p <= z)%Z)); try lia; try assumption.
        intros k Hk1 Hk2. apply Hhi; lia. }
  destruct Hall as (Hs & Hpm & Hl & Hh). split; [exact Hs |].
  apply (sorted_range_fill key r a mid b); try assumption; try lia.
  - intros k k' Hk1 Hk2 Hk3 Hk4.
    specialize (Hl k Hk1 Hk2). specialize (Hh k' ltac:(lia) Hk4). lia.
  - intros k Hk1 Hk2. specialize (Hl k Hk1 Hk2). lia.
  - intros k' Hk1 Hk2. specialize (Hh k' ltac:(lia) Hk2). lia.
Qed.

Lemma lower_bounded_frame (data data' : list A) (a b a' b' : nat) :
  b <= a' -> same_range data data' a' b' ->
  lower_bounded key data a b -> lower_bounded key data' a b.
Proof.
  intros Hd Hs H H0 k Hk1 Hk2.
  rewrite !(kat_frame key data data' a' b' _ Hs) by lia. now apply H.
Qed.

Lemma lower_bounded_shrink (data : list A) (a b b' : nat) :
  b' <= b -> lower_bounded key data a b -> lower_bounded key data a b'.
Proof. intros Hb H H0 k Hk1 Hk2. apply H; lia. Qed.

Lemma pdqsort_loop_spec (fuel : nat) (data : list A) (a b limit : nat)
    (wasBalanced wasPartitioned : bool) :
  a <= b -> b <= length data -> b - a <= fuel + 12 ->
  lower_bounded key data a b ->
  same_range data
    (sort.pdqsort_loop less fuel data a b limit wasBalanced wasPartitioned) a b /\
  sorted_range key
    (sort.pdqsort_loop less fuel data a b limit wasBalanced wasPartitioned) a b.
Proof.
  revert data a b limit wasBalanced wasPartitioned.
  induction fuel as [|fuel IH]; intros data a b limit wb wp Hab Hb Hfuel Hlb;
    cbn [sort.pdqsort_loop]; unfold sort.maxInsertion;
    (destruct (Nat.leb_spec (b - a) 12) as [H12|H12];
     [now apply insertionSort_func_range |]);
    (destruct (Nat.eqb_spec limit 0) as [Hl0|Hl0];
     [apply (heapSort_func_range less key less_key); lia |]);
    [lia |].
  (* breakPatterns *)
  set (x1 := if negb wb then (sort.breakPatterns_func data a b, limit - 1)
             else (data, limit)).
  assert (H1 : same_range data (fst x1) a b).
  { subst x1. destruct (negb wb); cbn [fst];
      [now apply breakPatterns_func_range | apply same_range_refl]. }
  destruct x1 as [d1 limit1]. cbn [fst] in H1.
  pose proof (same_range_length _ _ _ _ H1) as Hlen1.
  (* choosePivot *)
  pose proof (choosePivot_func_bounds less d1 a b ltac:(lia)) as Hpiv.
  destruct (sort.choosePivot_func less d1 a b) as [pivot hint]. cbn [fst] in Hpiv.
  (* reverseRange *)
  set (x2 := if sort.is_decreasing hint
             then (sort.reverseRange_func d1 a b, b - 1 - (pivot - a), sort.increasingHint)
             else (d1, pivot, hint)).
  assert (H2 : same_range d1 (fst (fst x2)) a b /\ a <= snd (fst x2) < b).
  { subst x2. destruct (sort.is_decreasing hint); cbn [fst snd].
    - split; [apply reverseRange_func_range; lia | lia].
    - split; [apply same_range_refl | exact Hpiv]. }
  destruct x2 as [[d2 pivot2] hint2]. cbn [fst snd] in H2. destruct H2 as [H2 Hpiv2].
  pose proof (same_range_length _ _ _ _ H2) as Hlen2.
  assert (H02 : same_range data d2 a b) by (eapply same_range_trans; eassumption).
  assert (Hlb2 : lower_bounded key d2 a b).
  { apply (lower_bounded_same_range key data d2 a b a b); try lia; assumption. }
  (* partialInsertionSort *)
  set (x3 := if wb && wp && sort.is_increasing hint2
             then sort.partialInsertionSort_func less d2 a b else (d2, false)).
  assert (H3 : same_range d2 (fst x3) a b /\
               (snd x3 = true -> sorted_range key (fst x3) a b)).
  { subst x3. destruct (wb && wp && sort.is_increasing hint2).
    - apply (partialInsertionSort_func_spec less key less_key); [lia | lia | exact Hlb2].
    - cbn [fst snd]. split; [apply same_range_refl | discriminate]. }
  destruct x3 as [d3 sorted]. cbn [fst snd] in H3. destruct H3 as [H3 Hsorted3].
  pose proof (same_range_length _ _ _ _ H3) as Hlen3.
  assert (H03 : same_range data d3 a b) by (eapply same_range_trans; eassumption).
  assert (Hlb3 : lower_bounded key d3 a b).
  { apply (lower_bounded_same_range key data d3 a b a b); try lia; assumption. }
  destruct sorted; [split; [exact H03 | now apply Hsorted3] |].
  destruct ((0 <? a) && negb (sort.Less less d3 (a - 1) pivot2)) eqn:Hcond.
  - (* partitionEqual *)
    apply andb_true_iff in Hcond as [H0a Hnl]. apply Nat.ltb_lt in H0a.
    apply negb_true_iff in Hnl.
    rewrite (Less_kat less key less_key) in Hnl by lia. apply Z.ltb_ge in Hnl.
    pose proof (partitionEqual_func_spec less key less_key d3 a b pivot2
                  ltac:(lia) ltac:(lia) ltac:(lia)) as Hpe. cbv zeta in Hpe.
    destruct (sort.partitionEqual_func less d3 a b pivot2) as [d4 mid].
    cbn [fst snd] in Hpe. destruct Hpe as (H4 & Hm1 & Hm2 & Hle & Hgt).
    pose proof (same_range_length _ _ _ _ H4) as Hlen4.
    set (p := kat key d3 pivot2) in *.
    assert (Hp : p = kat key d3 (a - 1)).
    { specialize (Hlb3 H0a pivot2 ltac:(lia) ltac:(lia)). subst p. lia. }
    assert (Hge4 : forall k, a <= k -> k < b -> (p <= kat key d4 k)%Z).
    { apply (range_kat_same_range key d3 d4 a b a b (fun z => (p <= z)%Z));
        try lia; try assumption.
      intros k Hk1 Hk2. rewrite Hp. now apply Hlb3. }
    destruct (IH d4 mid b limit1 wb wp) as [H5 Hs5].
    + lia.
    + lia.
    + lia.
    + intros _ k Hk1 Hk2. specialize (Hle (mid - 1) ltac:(lia) ltac:(lia)).
      specialize (Hgt k Hk1 Hk2). lia.
    + set (r := sort.pdqsort_loop less fuel d4 mid b limit1 wb wp) in *.
      split.
      * eapply same_range_trans; [exact H03 |].
        eapply same_range_trans; [exact H4 |].
        apply (same_range_weaken _ _ mid b a b); [lia | lia | exact H5].
      * assert (Heq : forall k, a <= k -> k < mid -> kat key r k = p).
        { intros k Hk1 Hk2.
          rewrite (kat_frame key d4 r mid b k H5) by lia.
          specialize (Hle k Hk1 Hk2). specialize (Hge4 k Hk1 ltac:(lia)). lia. }
        assert (Hgt5 : forall k, mid <= k -> k < b -> (p < kat key r k)%Z).
        { apply (range_kat_same_range key d4 r mid b mid b (fun z => (p < z)%Z));
            try lia; assumption. }
        intros i j Hi Hij Hj.
        destruct (decide (j < mid)) as [Hjm|Hjm].
        -- rewrite !Heq by lia. lia.
        -- destruct (decide (i < mid)) as [Him|Him].
           ++ rewrite (Heq i) by lia. specialize (Hgt5 j ltac:(lia) Hj). lia.
           ++ apply Hs5; lia.
  - (* partition *)
    clear Hcond.
    pose proof (partition_func_spec less key less_key d3 a b pivot2
                  ltac:(lia) ltac:(lia) ltac:(lia)) as Hpa. cbv zeta in Hpa.
    destruct (sort.partition_func less d3 a b pivot2) as [[d4 mid] ap].
    cbn [fst snd] in Hpa. destruct Hpa as (H4 & Hm1 & Hm2 & Hpm & Hlo & Hhi).
    pose proof (same_range_length _ _ _ _ H4) as Hlen4.
    set (p := kat key d3 pivot2) in *.
    assert (Hlb4 : lower_bounded key d4 a b).
    { apply (lower_bounded_same_range key d3 d4 a b a b); try lia; assumption. }
    assert (H04 : same_range data d4 a b) by (eapply same_range_trans; eassumption).
    destruct (Nat.ltb_spec (mid - a) (b - mid)) as [Hside|Hside].
    + destruct (IH d4 a mid limit1 true true) as [H5 Hs5].
      * lia.
      * lia.
      * lia.
      * apply (lower_bounded_shrink d4 a b mid); [lia | exact Hlb4].
      * set (d5 := sort.pdqsort_loop less fuel d4 a mid limit1 true true) in *.
        pose proof (same_range_length _ _ _ _ H5) as Hlen5.
        destruct (IH d5 (mid + 1) b limit1 ((b - a) / 8 <=? mid - a) ap) as [H6 Hs6].
        -- lia.
        -- lia.
        -- lia.
        -- intros _ k Hk1 Hk2. replace (mid + 1 - 1) with mid by lia.
           rewrite !(kat_frame key d4 d5 a mid _ H5) by lia.
           rewrite Hpm. apply Hhi; lia.
        -- set (r := sort.pdqsort_loop less fuel d5 (mid + 1) b limit1
                       ((b - a) / 8 <=? mid - a) ap) in *.
           destruct (sorted_after_partition d4 d5 r a mid b p) as [Hsame Hsorted];
             try assumption; try lia.
           ++ left. now split.
           ++ apply (sorted_range_frame d5 r a mid (mid + 1) b); [lia | exact H6 | exact Hs5].
           ++ split; [| exact Hsorted]. eapply same_range_trans; eassumption.
    + destruct (IH d4 (mid + 1) b limit1 true true) as [H5 Hs5].
      * lia.
      * lia.
      * lia.
      * intros _ k Hk1 Hk2. replace (mid + 1 - 1) with mid by lia.
        rewrite Hpm. apply Hhi; lia.
      * set (d5 := sort.pdqsort_loop less fuel d4 (mid + 1) b limit1 true true) in *.
        pose proof (same_range_length _ _ _ _ H5) as Hlen5.
        destruct (IH d5 a mid limit1 ((b - a) / 8 <=? b - mid) ap) as [H6 Hs6].
        -- lia.
        -- lia.
        -- lia.
        -- apply (lower_bounded_frame d4 d5 a mid (mid + 1) b); [lia | exact H5 |].
           apply (lower_bounded_shrink d4 a b mid); [lia | exact Hlb4].
        -- set (r := sort.pdqsort_loop less fuel d5 a mid limit1
                       ((b - a) / 8 <=? b - mid) ap) in *.
           destruct (sorted_after_partition d4 d5 r a mid b p) as [Hsame Hsorted];
             try assumption; try lia.
           ++ right. now split.
           ++ apply (sorted_range_frame d5 r (mid + 1) b a mid); [lia | exact H6 | exact Hs5].
           ++ split; [| exact Hsorted]. eapply same_range_trans; eassumption.
Qed.

Lemma sorted_range_StronglySorted (l : list A) :
  sorted_range key l 0 (length l) ->
  StronglySorted (fun y z => (key y <= key z)%Z) l.
Proof.
  induction l as [|y l IH]; intros Hsorted; [constructor |].
  constructor.
  - apply IH. intros i j Hi Hij Hj.
    apply (Hsorted (S i) (S j)); cbn [length]; lia.
  - apply Forall_lookup. intros i z Hz.
    pose proof (lookup_lt_Some _ _ _ Hz) as Hi.
    specialize (Hsorted 0 (S i) ltac:(lia) ltac:(lia) ltac:(cbn [length]; lia)).
    unfold kat in Hsorted.
    change ((y :: l) !! 0) with (Some y) in Hsorted.
    change ((y :: l) !! S i) with (l !! i) in Hsorted.
    now rewrite Hz in Hsorted.
Qed.

(** [sort.Slice] sorts: the keys of the result are in non-decreasing order, for
    every [less] that compares keys. *)
Lemma Slice_sorted (x : list A) :
  StronglySorted (fun y z => (key y <= key z)%Z) (sort.Slice less x).
Proof.
  unfold sort.Slice, sort.pdqsort_func.
  destruct (pdqsort_loop_spec (length x - 0) x 0 (length x)
              (sort.bits_Len (length x)) true true) as [Hsame Hsorted].
  - lia.
  - lia.
  - lia.
  - intros H0. lia.
  - apply sorted_range_StronglySorted.
    now rewrite (same_range_length _ _ _ _ Hsame).
Qed.
End pdqsort.

(** ** Sorting by player count *)

(** [morePlayers] compares the negated player counts. *)
Lemma morePlayers_key (x y : Server) :
  morePlayers x y = (- Server.Players x <? - Server.Players y).
Proof.
  unfold morePlayers.
  destruct (Z.gtb_spec (Server.Players x) (Server.Players y)),
    (Z.ltb_spec (- Server.Players x) (- Server.Players y)); try reflexivity; lia.
Qed.

Lemma StronglySorted_impl {A : Type} (R R' : A -> A -> Prop) (l : list A) :
  (forall x y, R x y -> R' x y) -> StronglySorted R l -> StronglySorted R' l.
Proof.
  intros HR. induction 1 as [|a l Hl IH Ha]; constructor; [exact IH |].
  eapply Forall_impl; [exact Ha | exact (HR a)].
Qed.

Lemma filterServers_kept (c : Client) (servers : list Server)
    (filter : GetServerListFilter) :
  filterServers c servers filter = sort.Slice morePlayers (kept c servers filter).
Proof. reflexivity. Qed.

(** For every input the result of [filterServers] is sorted by player count,
    descending. *)
Lemma filterServers_descending (c : Client) (servers : list Server)
    (filter : GetServerListFilter) :
  descending (filterServers c servers filter).
Proof.
  rewrite filterServers_kept. unfold descending.
  apply (StronglySorted_impl
           (fun y z => - Server.Players y <= - Server.Players z)).
  - intros x y H. lia.
  - apply (Slice_sorted morePlayers (fun s => - Server.Players s) morePlayers_key).
Qed.

(** When at most twelve servers are left by the exclusion step, the result
    is the stable insertion sort of what is left: ties keep their order. *)
Lemma filterServers_small (c : Client) (servers : list Server)
    (filter : GetServerListFilter) :
  (length (kept c servers filter) <= 12)%nat ->
  filterServers c servers filter = insertion_sorted morePlayers (kept c servers filter) /\
  ties_in_order (filterServers c servers filter) (kept c servers filter).
Proof.
  intros Hlen. rewrite filterServers_kept, (Slice_small morePlayers _ Hlen).
  split; [reflexivity |].
  intros n. unfold with_players.
  rewrite !(List.filter_ext (fun s => Server.Players s =? n)
              (fun s => - Server.Players s =? - n)).
  - apply (insertion_sorted_filter morePlayers (fun s => - Server.Players s)
             morePlayers_key).
  - intros s. destruct (Z.eqb_spec (Server.Players s) n),
      (Z.eqb_spec (- Server.Players s) (- n)); try reflexivity; lia.
  - intros s. destruct (Z.eqb_spec (Server.Players s) n),
      (Z.eqb_spec (- Server.Players s) (- n)); try reflexivity; lia.
Qed.

(** The end-to-end example: counts 2, 0, 9, 13, 2, the empty server carrying
    the default name, with [NoDefaultServers]: four servers, 13, 9, 2, 2, the
    two servers with two players in their input order. *)
Example GetServerList_example :
  fst (GetServerList (testWorld exampleServers) (with_custom emptyFilter false true)
         testState)
  = ([exServer "10.0.0.4:1" "Delta" 13; exServer "10.0.0.3:1" "Gamma" 9;
      exServer "10.0.0.1:1" "Alpha" 2; exServer "10.0.0.5:1" "Epsilon" 2], None).
Proof. vm_compute. reflexivity. Qed.

(** C2: on the thirteen servers of [tieServers] (twelve empty ones, then one
    with a player) and no custom filter, [GetServerList] succeeds and returns
    the servers sorted by player count, but the empty servers are not in their
    input order: the one at position 6 comes first and the one at position 1
    last. *)
Theorem GetServerList_reorders_ties :
  let out := fst (GetServerList (testWorld tieServers) emptyFilter testState) in
  snd out = None /\
  map Server.Addr (fst out)
  = ["a12"; "a06"; "a02"; "a03"; "a04"; "a05"; "a00"; "a07"; "a08"; "a09"; "a10";
     "a11"; "a01"] /\
  descending (fst out) /\
  ~ ties_in_order (fst out) (kept (self testState) tieServers emptyFilter).
Proof.
  assert (Hout : fst (GetServerList (testWorld tieServers) emptyFilter testState)
                 = (filterServers (self testState) tieServers emptyFilter, None))
    by reflexivity.
  assert (Hs : filterServers (self testState) tieServers emptyFilter
               = [exServer "a12" "Tie" 1; exServer "a06" "Tie" 0;
                  exServer "a02" "Tie" 0; exServer "a03" "Tie" 0;
                  exServer "a04" "Tie" 0; exServer "a05" "Tie" 0;
                  exServer "a00" "Tie" 0; exServer "a07" "Tie" 0;
                  exServer "a08" "Tie" 0; exServer "a09" "Tie" 0;
                  exServer "a10" "Tie" 0; exServer "a11" "Tie" 0;
                  exServer "a01" "Tie" 0]) by (vm_compute; reflexivity).
  cbv zeta. rewrite Hout. cbn [fst snd].
  split; [reflexivity |]. split; [now rewrite Hs |]. split.
  - apply filterServers_descending.
  - rewrite Hs. intros H. specialize (H 0%Z). vm_compute in H. discriminate.
Qed.

(** ** Validation of the configuration *)

Lemma Config_Validate_eq (cfg : Config) :
  Config.Validate cfg =
  if Config.Disabled cfg then None
  else if String.eqb (Config.Key cfg) "" then Some (ErrConfigUndefinedParam "key")
  else if String.eqb (Config.URL cfg) "" then Some (ErrConfigUndefinedParam "url")
  else None.
Proof. reflexivity. Qed.

(** X1: [Config.Validate] has three outcomes: no error exactly for a disabled
    configuration or one with both a key and a URL; the error naming [key]
    exactly for an enabled configuration without key, whether or not it has a
    URL (the key is checked first); the error naming [url] exactly for an
    enabled configuration with a key and no URL.  It returns no other error. *)
Theorem Config_Validate_outcome (cfg : Config) :
  (Config.Validate cfg = None <->
   Config.Disabled cfg = true \/ (Config.Key cfg <> "" /\ Config.URL cfg <> "")) /\
  (Config.Validate cfg = Some (ErrConfigUndefinedParam "key") <->
   Config.Disabled cfg = false /\ Config.Key cfg = "") /\
  (Config.Validate cfg = Some (ErrConfigUndefinedParam "url") <->
   Config.Disabled cfg = false /\ Config.Key cfg <> "" /\ Config.URL cfg = "") /\
  (forall e, Config.Validate cfg = Some e ->
             e = ErrConfigUndefinedParam "key" \/ e = ErrConfigUndefinedParam "url").
Proof.
  rewrite Config_Validate_eq.
  destruct (Config.Disabled cfg).
  { split; [| split; [| split]].
    - split; [left; reflexivity | reflexivity].
    - split; [discriminate | intros [? ?]; discriminate].
    - split; [discriminate | intros [? ?]; discriminate].
    - discriminate. }
  destruct (String.eqb (Config.Key cfg) "") eqn:Hk.
  { apply String.eqb_eq in Hk.
    split; [| split; [| split]].
    - split; [discriminate | intros [? | [? _]]; [discriminate | contradiction]].
    - split; [auto | reflexivity].
    - split; [discriminate | intros (_ & ? & _); contradiction].
    - intros e [= <-]; left; reflexivity. }
  apply String.eqb_neq in Hk.
  destruct (String.eqb (Config.URL cfg) "") eqn:Hu.
  { apply String.eqb_eq in Hu.
    split; [| split; [| split]].
    - split; [discriminate | intros [? | [_ ?]]; [discriminate | contradiction]].
    - split; [discriminate | intros [_ ?]; contradiction].
    - split; [auto | reflexivity].
    - intros e [= <-]; right; reflexivity. }
  apply String.eqb_neq in Hu.
  split; [| split; [| split]].
  - split; [auto | reflexivity].
  - split; [discriminate | intros [_ ?]; contradiction].
  - split; [discriminate | intros (_ & _ & ?); contradiction].
  - discriminate.
Qed.

Lemma SetDefaults_URL (cfg : Config) :
  Config.URL (Config.SetDefaults cfg)
  = if String.eqb (Config.URL cfg) "" then DefaultSteamURL else Config.URL cfg.
Proof.
  destruct cfg as [dis key url tmo [[dt dd df dk] tls] lim names].
  rewrite SetDefaults_eq. reflexivity.
Qed.

Lemma SetDefaults_Key_Disabled (cfg : Config) :
  Config.Key (Config.SetDefaults cfg) = Config.Key cfg /\
  Config.Disabled (Config.SetDefaults cfg) = Config.Disabled cfg.
Proof.
  destruct cfg as [dis key url tmo [[dt dd df dk] tls] lim names].
  rewrite SetDefaults_eq. split; reflexivity.
Qed.

Lemma SetDefaults_URL_nonempty (cfg : Config) :
  String.eqb (Config.URL (Config.SetDefaults cfg)) "" = false.
Proof.
  rewrite SetDefaults_URL.
  destruct (String.eqb (Config.URL cfg) "") eqn:Hu; [reflexivity | exact Hu].
Qed.

(** X2: Validation after defaulting: once [SetDefaults] has run (as it does
    in [NewClient]), [Validate] can only fail on the key.  The defaulted
    configuration is valid exactly when the original one is disabled or has a
    key; it never yields the error naming [url]; and a configuration that was
    valid before defaulting stays valid. *)
Theorem Validate_after_SetDefaults (cfg : Config) :
  Config.Validate (Config.SetDefaults cfg)
  = (if Config.Disabled cfg then None
     else if String.eqb (Config.Key cfg) "" then Some (ErrConfigUndefinedParam "key")
     else None) /\
  Config.Validate (Config.SetDefaults cfg) <> Some (ErrConfigUndefinedParam "url") /\
  (Config.Validate (Config.SetDefaults cfg) = None <->
   Config.Disabled cfg = true \/ Config.Key cfg <> "") /\
  (Config.Validate cfg = None -> Config.Validate (Config.SetDefaults cfg) = None).
Proof.
  assert (Heq : Config.Validate (Config.SetDefaults cfg)
                = (if Config.Disabled cfg then None
                   else if String.eqb (Config.Key cfg) ""
                        then Some (ErrConfigUndefinedParam "key")
                        else None)).
  { rewrite Config_Validate_eq.
    destruct (SetDefaults_Key_Disabled cfg) as [-> ->].
    rewrite SetDefaults_URL_nonempty. reflexivity. }
  split; [exact Heq |].
  rewrite Heq, (Config_Validate_eq cfg).
  destruct (Config.Disabled cfg).
  { split; [discriminate | split; [split; auto | reflexivity]]. }
  destruct (String.eqb (Config.Key cfg) "") eqn:Hk.
  - apply String.eqb_eq in Hk.
    split; [discriminate | split; [| discriminate]].
    split; [discriminate | intros [? | ?]; [discriminate | contradiction]].
  - apply String.eqb_neq in Hk.
    split; [discriminate | split; [split; auto | reflexivity]].
Qed.

(** ** Defaulting of the configuration *)

Lemma Zeqb_default (x d : Z) : d <> 0 -> (if x =? 0 then d else x) <> 0.
Proof. destruct (Z.eqb_spec x 0); auto. Qed.

Lemma SetDefaults_fully_specified (cfg : Config) :
  fully_specified (Config.SetDefaults cfg).
Proof.
  destruct cfg as [dis key url tmo [[dt dd df dk] tls] lim names].
  rewrite SetDefaults_eq. unfold fully_specified.
  cbn [Config.URL Config.Timeout Config.Transport Config.Limit
       Transport.TLSHandshakeTimeout Transport.Dialer Dialer.Timeout].
  repeat apply conj; try (apply Zeqb_default; discriminate).
  destruct (String.eqb url "") eqn:Hu; [discriminate | apply String.eqb_neq, Hu].
Qed.

Lemma SetDefaults_fixed (cfg : Config) :
  Config.SetDefaults cfg = cfg <-> fully_specified cfg.
Proof.
  split.
  - intros <-. apply SetDefaults_fully_specified.
  - destruct cfg as [dis key url tmo [[dt dd df dk] tls] lim names].
    unfold fully_specified.
    cbn [Config.URL Config.Timeout Config.Transport Config.Limit
         Transport.TLSHandshakeTimeout Transport.Dialer Dialer.Timeout].
    intros (Hu & Ht & Htls & Hdt & Hl).
    rewrite SetDefaults_eq.
    apply String.eqb_neq in Hu. apply Z.eqb_neq in Ht, Htls, Hdt, Hl.
    rewrite Hu, Ht, Htls, Hdt, Hl. reflexivity.
Qed.

(** X3: After [SetDefaults] none of the five defaulted fields is at its zero
    value: the URL is not empty and the request timeout, the TLS handshake
    timeout, the dial timeout and the limit are not zero.  Running
    [SetDefaults] again changes nothing. *)
Theorem SetDefaults_fills_and_settles (cfg : Config) :
  let cfg' := Config.SetDefaults cfg in
  Config.URL cfg' <> "" /\
  Config.Timeout cfg' <> 0 /\
  Transport.TLSHandshakeTimeout (Config.Transport cfg') <> 0 /\
  Dialer.Timeout (Transport.Dialer (Config.Transport cfg')) <> 0 /\
  Config.Limit cfg' <> 0 /\
  Config.SetDefaults cfg' = cfg'.
Proof.
  intros cfg'.
  pose proof (SetDefaults_fully_specified cfg) as H.
  pose proof (proj2 (SetDefaults_fixed cfg') H) as Hfix.
  destruct H as (H1 & H2 & H3 & H4 & H5).
  repeat apply conj; assumption.
Qed.

(** X4: The configurations that [SetDefaults] leaves as they are are exactly
    those whose five defaulted fields are all set.  Only the zero value counts
    as unset: a negative timeout or limit is kept, not replaced. *)
Theorem SetDefaults_fixed_points (cfg : Config) :
  Config.SetDefaults cfg = cfg <->
  Config.URL cfg <> "" /\
  Config.Timeout cfg <> 0 /\
  Transport.TLSHandshakeTimeout (Config.Transport cfg) <> 0 /\
  Dialer.Timeout (Transport.Dialer (Config.Transport cfg)) <> 0 /\
  Config.Limit cfg <> 0.
Proof. apply SetDefaults_fixed. Qed.

(** A configuration with negative timeouts is a fixed point. *)
Example SetDefaults_keeps_negative :
  Config.SetDefaults customConfig = customConfig.
Proof. apply SetDefaults_fixed. unfold fully_specified. cbn. repeat apply conj; discriminate. Qed.

(** ** Construction of the client *)

Lemma Dialer_eta (d : Dialer.t) :
  Dialer.mk (Dialer.Timeout d) (Dialer.Deadline d) (Dialer.FallbackDelay d)
            (Dialer.KeepAlive d) = d.
Proof. destruct d; reflexivity. Qed.

Lemma NewClient_eq (cfg : Config) :
  NewClient cfg =
  {| config := Config.SetDefaults cfg;
     http := {| http_Timeout := Config.Timeout (Config.SetDefaults cfg);
                http_Dialer := Transport.Dialer (Config.Transport (Config.SetDefaults cfg));
                http_TLSHandshakeTimeout :=
                  Transport.TLSHandshakeTimeout
                    (Config.Transport (Config.SetDefaults cfg)) |} |}.
Proof.
  unfold NewClient. cbv zeta. rewrite Dialer_eta. reflexivity.
Qed.

(** X5: [NewClient] builds the HTTP client from the defaulted configuration:
    its three timeouts are the caller's when those are not zero and the
    package defaults (10s, 5s, 5s) otherwise, so none of them is ever zero
    (which [net/http] reads as no timeout); the dialer's deadline, fallback
    delay and keep-alive are copied as given.  Building a client again from
    the configuration a client holds gives the same client. *)
Theorem NewClient_timeouts (cfg : Config) :
  let c := NewClient cfg in
  let d := Transport.Dialer (Config.Transport cfg) in
  http_Timeout (http c)
    = (if Config.Timeout cfg =? 0 then 10 * Second else Config.Timeout cfg) /\
  http_TLSHandshakeTimeout (http c)
    = (if Transport.TLSHandshakeTimeout (Config.Transport cfg) =? 0
       then 5 * Second else Transport.TLSHandshakeTimeout (Config.Transport cfg)) /\
  http_Dialer (http c)
    = Dialer.mk (if Dialer.Timeout d =? 0 then 5 * Second else Dialer.Timeout d)
                (Dialer.Deadline d) (Dialer.FallbackDelay d) (Dialer.KeepAlive d) /\
  http_Timeout (http c) <> 0 /\
  http_TLSHandshakeTimeout (http c) <> 0 /\
  Dialer.Timeout (http_Dialer (http c)) <> 0 /\
  NewClient (config c) = c.
Proof.
  intros c d. subst c d.
  pose proof (SetDefaults_fully_specified cfg) as (_ & H2 & H3 & H4 & _).
  assert (Hfix : Config.SetDefaults (Config.SetDefaults cfg) = Config.SetDefaults cfg)
    by apply SetDefaults_idempotent.
  rewrite !NewClient_eq.
  cbn [config http http_Timeout http_Dialer http_TLSHandshakeTimeout].
  rewrite Hfix.
  split; [| split; [| split; [| repeat apply conj; solve [assumption | reflexivity]]]];
    destruct cfg as [dis key url tmo [[dt dd df dk] tls] lim names];
    rewrite SetDefaults_eq; reflexivity.
Qed.

(** ** The public operations as a whole *)

(** The log after [GetPlayerBans] on an enabled client. *)
Lemma GetPlayerBans_sent (w : World) (steamIDs : list string) (st : State) :
  Config.Disabled (config (self st)) = false ->
  let uri := Config.URL (config (self st))
               +:+ GetPlayerBansURL (Config.Key (config (self st))) (Join steamIDs ",") in
  sent (snd (GetPlayerBans w steamIDs st)) =
  match NewRequest_error w "GET" uri with
  | Some _ => sent st
  | None => sent st ++ [{| Method := "GET"; RequestURI := uri |}]
  end.
Proof.
  intros H uri. rewrite GetPlayerBans_unfold, H. cbv zeta. fold uri.
  pose proof (sendRequest_sent w MethodGet uri st) as Hs.
  change MethodGet with "GET" in *.
  destruct (sendRequest w "GET" uri st) as [[body [err|]] st']; [exact Hs |].
  destruct (Unmarshal_GetPlayerBansResponse w body) as [players [err|]]; exact Hs.
Qed.

(** What [sendRequest] returns besides a body: a [request_error], and then no
    body. *)
Lemma sendRequest_error (w : World) (method uri : string) (st : State) (e : error) :
  snd (fst (sendRequest w method uri st)) = Some e ->
  request_error e /\ fst (fst (sendRequest w method uri st)) = "".
Proof.
  rewrite sendRequest_unfold. unfold request_error.
  destruct (NewRequest_error w method uri) as [err|].
  { intros [= <-]. split; [left; eauto | reflexivity]. }
  cbv zeta.
  destruct (Do w (sent st) _) as [[res|] [err|]].
  - intros [= <-]. split; [left; eauto | reflexivity].
  - destruct (Z.eqb_spec (StatusCode res) StatusOK) as [Hc | Hc]; cbn [negb].
    + destruct (ReadAll res) as [body [err|]]; [| discriminate].
      intros [= <-]. split; [left; eauto | reflexivity].
    + intros [= <-]. split; [| reflexivity].
      right; right. exists (StatusCode res), (Status res). split; [reflexivity | exact Hc].
  - intros [= <-]. split; [left; eauto | reflexivity].
  - intros [= <-]. split; [right; left; reflexivity | reflexivity].
Qed.

(** X6: Each call of [GetPlayerBans] or [GetServerList] extends the log of
    issued requests by at most one request, whatever the outcome, and that
    request is a GET; requests issued earlier are never dropped or altered.
    There is no retry. *)
Theorem operations_issue_at_most_one_GET (w : World) (steamIDs : list string)
    (filter : GetServerListFilter) (st : State) :
  (exists l, sent (snd (GetPlayerBans w steamIDs st)) = sent st ++ l /\
             (length l <= 1)%nat /\ Forall (fun r => Method r = "GET") l) /\
  (exists l, sent (snd (GetServerList w filter st)) = sent st ++ l /\
             (length l <= 1)%nat /\ Forall (fun r => Method r = "GET") l).
Proof.
  destruct (Config.Disabled (config (self st))) eqn:Hd.
  { rewrite GetPlayerBans_unfold, GetServerList_unfold, Hd. cbn [snd].
    split; exists []; rewrite app_nil_r; repeat split; auto. }
  split.
  - pose proof (GetPlayerBans_sent w steamIDs st Hd) as H. cbv zeta in H. rewrite H.
    destruct (NewRequest_error w "GET" _).
    + exists []. rewrite app_nil_r. repeat split; auto.
    + eexists [_]. repeat split; [cbn; lia |]. constructor; [reflexivity | constructor].
  - rewrite (GetServerList_sent w filter st Hd).
    destruct (NewRequest_error w "GET" _).
    + exists []. rewrite app_nil_r. repeat split; auto.
    + eexists [_]. repeat split; [cbn; lia |]. constructor; [reflexivity | constructor].
Qed.

(** X7: On an enabled client the request issued by [GetPlayerBans] is a GET
    of the base URL followed by [/ISteamUser/GetPlayerBans/v1?key=], the key,
    [&steamids=] and the identifiers joined by commas, for every list of
    identifiers (the empty list included: the identifiers are not checked);
    nothing is issued when the URL is refused. *)
Theorem GetPlayerBans_request (w : World) (steamIDs : list string) (st : State) :
  Config.Disabled (config (self st)) = false ->
  let uri := Config.URL (config (self st))
               +:+ "/ISteamUser/GetPlayerBans/v1?key="
               +:+ Config.Key (config (self st))
               +:+ "&steamids=" +:+ Join steamIDs "," in
  sent (snd (GetPlayerBans w steamIDs st)) =
  match NewRequest_error w "GET" uri with
  | Some _ => sent st
  | None => sent st ++ [{| Method := "GET"; RequestURI := uri |}]
  end.
Proof.
  intros H. exact (GetPlayerBans_sent w steamIDs st H).
Qed.

Lemma GetPlayerBans_request_witness :
  Config.Disabled (config (self testState)) = false /\
  sent (snd (GetPlayerBans (bansWorld sampleBans)
               ["76561198000000001"; "76561198000000002"] testState)) =
  [{| Method := "GET";
      RequestURI := "http://127.0.0.1:8080/ISteamUser/GetPlayerBans/v1?key=R1jamSsz17LHA9WgDW099YGfCs4fn0m0&steamids=76561198000000001,76561198000000002" |}].
Proof.
  split; [reflexivity |].
  exact (GetPlayerBans_request (bansWorld sampleBans)
           ["76561198000000001"; "76561198000000002"] testState eq_refl).
Defined.

(** X8: When [GetPlayerBans] returns an error, it returns no ban record with
    it, and the error is one of: an error of the HTTP or JSON library passed
    on as it is, the empty-response error, or the wrong-status-code error with
    a code other than 200.  It is never a parameter or configuration error. *)
Theorem GetPlayerBans_error (w : World) (steamIDs : list string) (st : State)
    (e : error) :
  snd (fst (GetPlayerBans w steamIDs st)) = Some e ->
  fst (fst (GetPlayerBans w steamIDs st)) = [] /\
  ((exists msg, e = ErrForeign msg) \/
   e = ErrEmptyResponse \/
   (exists code status, e = ErrWrongStatusCode code status /\ code <> 200)).
Proof.
  rewrite GetPlayerBans_unfold.
  destruct (Config.Disabled _); [discriminate |].
  cbv zeta.
  pose proof (sendRequest_error w MethodGet
    (Config.URL (config (self st)) +:+
     GetPlayerBansURL (Config.Key (config (self st))) (Join steamIDs ",")) st) as Hs.
  destruct (sendRequest _ _ _ st) as [[body [err|]] st'].
  - intros [= <-]. split; [reflexivity | apply (Hs err eq_refl)].
  - destruct (Unmarshal_GetPlayerBansResponse w body) as [players [err|]];
      [| discriminate].
    intros [= <-]. split; [reflexivity | left; eauto].
Qed.

Lemma GetPlayerBans_error_witness :
  snd (fst (GetPlayerBans (fixedWorld 503 "503 Service Unavailable" "" [])
              ["76561198000000001"] testState))
    = Some (ErrWrongStatusCode 503 "503 Service Unavailable") /\
  fst (fst (GetPlayerBans (fixedWorld 503 "503 Service Unavailable" "" [])
              ["76561198000000001"] testState)) = [] /\
  ((exists msg, ErrWrongStatusCode 503 "503 Service Unavailable" = ErrForeign msg) \/
   ErrWrongStatusCode 503 "503 Service Unavailable" = ErrEmptyResponse \/
   (exists code status,
      ErrWrongStatusCode 503 "503 Service Unavailable" = ErrWrongStatusCode code status /\
      code <> 200)).
Proof.
  split; [reflexivity |].
  exact (GetPlayerBans_error (fixedWorld 503 "503 Service Unavailable" "" [])
           ["76561198000000001"] testState
           (ErrWrongStatusCode 503 "503 Service Unavailable") eq_refl).
Defined.

(** X9: When [GetServerList] returns an error, it returns no server with it,
    and the error is one of: an error of the HTTP or JSON library passed on as
    it is, the empty-response error, or the wrong-status-code error with a
    code other than 200. *)
Theorem GetServerList_error (w : World) (filter : GetServerListFilter) (st : State)
    (e : error) :
  snd (fst (GetServerList w filter st)) = Some e ->
  fst (fst (GetServerList w filter st)) = [] /\
  ((exists msg, e = ErrForeign msg) \/
   e = ErrEmptyResponse \/
   (exists code status, e = ErrWrongStatusCode code status /\ code <> 200)).
Proof.
  rewrite GetServerList_unfold.
  destruct (Config.Disabled _); [discriminate |].
  pose proof (sendRequest_error w MethodGet (GetServerList_uri (self st) filter) st) as Hs.
  destruct (sendRequest _ _ _ st) as [[body [err|]] st'].
  - intros [= <-]. split; [reflexivity | apply (Hs err eq_refl)].
  - destruct (Unmarshal_GetServerListResponse w body) as [servers [err|]];
      [| discriminate].
    intros [= <-]. split; [reflexivity | left; eauto].
Qed.

Lemma GetServerList_error_witness :
  snd (fst (GetServerList (fixedWorld 429 "429 Too Many Requests" "" testServers)
              (appFilter 108600) testState))
    = Some (ErrWrongStatusCode 429 "429 Too Many Requests") /\
  fst (fst (GetServerList (fixedWorld 429 "429 Too Many Requests" "" testServers)
              (appFilter 108600) testState)) = [] /\
  ((exists msg, ErrWrongStatusCode 429 "429 Too Many Requests" = ErrForeign msg) \/
   ErrWrongStatusCode 429 "429 Too Many Requests" = ErrEmptyResponse \/
   (exists code status,
      ErrWrongStatusCode 429 "429 Too Many Requests" = ErrWrongStatusCode code status /\
      code <> 200)).
Proof.
  split; [reflexivity |].
  exact (GetServerList_error (fixedWorld 429 "429 Too Many Requests" "" testServers)
           (appFilter 108600) testState
           (ErrWrongStatusCode 429 "429 Too Many Requests") eq_refl).
Defined.

(** The outcome of [sendRequest] on a readable [200] response. *)
Lemma sendRequest_success (w : World) (method uri : string) (st : State)
    (res : Response) (body : string) :
  NewRequest_error w method uri = None ->
  Do w (sent st) {| Method := method; RequestURI := uri |} = (Some res, None) ->
  StatusCode res = 200 ->
  ReadAll res = (body, None) ->
  sendRequest w method uri st
  = ((body, None),
     {| self := self st; sent := sent st ++ [{| Method := method; RequestURI := uri |}] |}).
Proof.
  intros Hn Hd Hc Hr. rewrite sendRequest_unfold, Hn. cbv zeta. rewrite Hd, Hc, Hr.
  reflexivity.
Qed.

(** X10: When the request of [GetPlayerBans] is answered with status 200, the
    body is read and it decodes without error, [GetPlayerBans] returns the
    decoded ban records as they are (same records, same order, nothing
    filtered or sorted) with a nil error, after exactly one request. *)
Theorem GetPlayerBans_success (w : World) (steamIDs : list string) (st : State)
    (res : Response) (body : string) (players : list PlayerBans) :
  Config.Disabled (config (self st)) = false ->
  let uri := Config.URL (config (self st))
               +:+ "/ISteamUser/GetPlayerBans/v1?key="
               +:+ Config.Key (config (self st))
               +:+ "&steamids=" +:+ Join steamIDs "," in
  let req := {| Method := "GET"; RequestURI := uri |} in
  NewRequest_error w "GET" uri = None ->
  Do w (sent st) req = (Some res, None) ->
  StatusCode res = 200 ->
  ReadAll res = (body, None) ->
  Unmarshal_GetPlayerBansResponse w body = (players, None) ->
  GetPlayerBans w steamIDs st
  = ((players, None), {| self := self st; sent := sent st ++ [req] |}).
Proof.
  intros Hdis uri req Hn Hd Hc Hr Hu.
  rewrite GetPlayerBans_unfold, Hdis. cbv zeta.
  change (Config.URL (config (self st)) +:+
          GetPlayerBansURL (Config.Key (config (self st))) (Join steamIDs ","))
    with uri.
  change MethodGet with "GET".
  rewrite (sendRequest_success w "GET" uri st res body Hn Hd Hc Hr), Hu.
  reflexivity.
Qed.

Lemma GetPlayerBans_success_witness :
  Config.Disabled (config (self testState)) = false /\
  NewRequest_error (bansWorld sampleBans) "GET"
    "http://127.0.0.1:8080/ISteamUser/GetPlayerBans/v1?key=R1jamSsz17LHA9WgDW099YGfCs4fn0m0&steamids=76561198000000001,76561198000000002"
    = None /\
  Do (bansWorld sampleBans) (sent testState)
     {| Method := "GET";
        RequestURI := "http://127.0.0.1:8080/ISteamUser/GetPlayerBans/v1?key=R1jamSsz17LHA9WgDW099YGfCs4fn0m0&steamids=76561198000000001,76561198000000002" |}
    = (Some {| StatusCode := 200; Status := "200 OK"; ReadAll := ("{}", None) |}, None) /\
  StatusCode {| StatusCode := 200; Status := "200 OK"; ReadAll := ("{}", None) |} = 200 /\
  ReadAll {| StatusCode := 200; Status := "200 OK"; ReadAll := ("{}", None) |}
    = ("{}", None) /\
  Unmarshal_GetPlayerBansResponse (bansWorld sampleBans) "{}" = (sampleBans, None) /\
  GetPlayerBans (bansWorld sampleBans)
    ["76561198000000001"; "76561198000000002"] testState
  = ((sampleBans, None),
     {| self := self testState;
        sent := sent testState ++
          [{| Method := "GET";
              RequestURI := "http://127.0.0.1:8080/ISteamUser/GetPlayerBans/v1?key=R1jamSsz17LHA9WgDW099YGfCs4fn0m0&steamids=76561198000000001,76561198000000002" |}] |}).
Proof.
  repeat (split; [reflexivity |]).
  exact (GetPlayerBans_success (bansWorld sampleBans)
           ["76561198000000001"; "76561198000000002"] testState
           {| StatusCode := 200; Status := "200 OK"; ReadAll := ("{}", None) |}
           "{}" sampleBans eq_refl eq_refl eq_refl eq_refl eq_refl eq_refl).
Defined.

(** X11: When the request of [GetServerList] is answered with status 200, the
    body is read and it decodes without error, [GetServerList] returns the
    decoded servers after the custom-filter and sorting pass
    ([filterServers]) with a nil error, after exactly one request. *)
Theorem GetServerList_success (w : World) (filter : GetServerListFilter) (st : State)
    (res : Response) (body : string) (servers : list Server) :
  Config.Disabled (config (self st)) = false ->
  let req := {| Method := "GET"; RequestURI := GetServerList_uri (self st) filter |} in
  NewRequest_error w "GET" (GetServerList_uri (self st) filter) = None ->
  Do w (sent st) req = (Some res, None) ->
  StatusCode res = 200 ->
  ReadAll res = (body, None) ->
  Unmarshal_GetServerListResponse w body = (servers, None) ->
  GetServerList w filter st
  = ((filterServers (self st) servers filter, None),
     {| self := self st; sent := sent st ++ [req] |}).
Proof.
  intros Hdis req Hn Hd Hc Hr Hu.
  rewrite GetServerList_unfold, Hdis.
  change MethodGet with "GET".
  rewrite (sendRequest_success w "GET" _ st res body Hn Hd Hc Hr), Hu.
  reflexivity.
Qed.

Lemma GetServerList_success_witness :
  Config.Disabled (config (self testState)) = false /\
  NewRequest_error (testWorld testServers) "GET"
    (GetServerList_uri (self testState) (with_custom emptyFilter true false)) = None /\
  Do (testWorld testServers) (sent testState)
     {| Method := "GET";
        RequestURI := GetServerList_uri (self testState)
                        (with_custom emptyFilter true false) |}
    = (Some {| StatusCode := 200; Status := "200 OK"; ReadAll := ("{}", None) |}, None) /\
  StatusCode {| StatusCode := 200; Status := "200 OK"; ReadAll := ("{}", None) |} = 200 /\
  ReadAll {| StatusCode := 200; Status := "200 OK"; ReadAll := ("{}", None) |}
    = ("{}", None) /\
  Unmarshal_GetServerListResponse (testWorld testServers) "{}" = (testServers, None) /\
  GetServerList (testWorld testServers) (with_custom emptyFilter true false) testState
  = ((filterServers (self testState) testServers (with_custom emptyFilter true false),
      None),
     {| self := self testState;
        sent := sent testState ++
          [{| Method := "GET";
              RequestURI := GetServerList_uri (self testState)
                              (with_custom emptyFilter true false) |}] |}).
Proof.
  repeat (split; [reflexivity |]).
  exact (GetServerList_success (testWorld testServers)
           (with_custom emptyFilter true false) testState
           {| StatusCode := 200; Status := "200 OK"; ReadAll := ("{}", None) |}
           "{}" testServers eq_refl eq_refl eq_refl eq_refl eq_refl eq_refl).
Defined.

(** X12: The list returned by [GetServerList] is in descending order of
    player count, for every remote endpoint, filter and client state (an
    error or a disabled client gives the empty list). *)
Theorem GetServerList_descending (w : World) (filter : GetServerListFilter)
    (st : State) :
  descending (fst (fst (GetServerList w filter st))).
Proof.
  rewrite GetServerList_unfold.
  destruct (Config.Disabled _); [constructor |].
  destruct (sendRequest _ _ _ st) as [[body [err|]] st']; [constructor |].
  destruct (Unmarshal_GetServerListResponse w body) as [servers [err|]];
    [constructor |].
  apply filterServers_descending.
Qed.

(** ** The configured limit *)

(** The outcome of [sendRequest] and the log it leaves depend on the log
    only, not on the client. *)
Lemma sendRequest_client (w : World) (method uri : string) (c c' : Client)
    (l : list Request) :
  fst (sendRequest w method uri {| self := c'; sent := l |})
    = fst (sendRequest w method uri {| self := c; sent := l |}) /\
  sent (snd (sendRequest w method uri {| self := c'; sent := l |}))
    = sent (snd (sendRequest w method uri {| self := c; sent := l |})).
Proof.
  rewrite !sendRequest_unfold. cbn [self sent].
  destruct (NewRequest_error w method uri); [split; reflexivity |].
  cbv zeta.
  destruct (Do w l _) as [[res|] [err|]]; try (split; reflexivity).
  destruct (negb _); [split; reflexivity |].
  destruct (ReadAll res) as [body [err|]]; split; reflexivity.
Qed.

(** X13: [Config.Limit] is never read: replacing it in the configuration of a
    client changes neither the result nor the request of [GetServerList] or
    [GetPlayerBans].  (The [limit] parameter of the request comes from the
    filter, or from the constant [DefaultLimit].) *)
Theorem Config_Limit_is_not_read (w : World) (steamIDs : list string)
    (filter : GetServerListFilter) (st : State) (limit : Z) :
  fst (GetServerList w filter (with_config_Limit st limit))
    = fst (GetServerList w filter st) /\
  sent (snd (GetServerList w filter (with_config_Limit st limit)))
    = sent (snd (GetServerList w filter st)) /\
  fst (GetPlayerBans w steamIDs (with_config_Limit st limit))
    = fst (GetPlayerBans w steamIDs st) /\
  sent (snd (GetPlayerBans w steamIDs (with_config_Limit st limit)))
    = sent (snd (GetPlayerBans w steamIDs st)).
Proof.
  destruct st as [[cfg h] l].
  rewrite !GetServerList_unfold, !GetPlayerBans_unfold.
  unfold with_config_Limit. cbn [self sent config http Config.Disabled].
  destruct (Config.Disabled cfg); [repeat split; reflexivity |].
  cbv zeta.
  cbn [Config.URL Config.Key].
  match goal with
  | |- context [sendRequest w MethodGet (GetServerList_uri ?c' filter) {| self := ?c'; sent := l |}] =>
      change (GetServerList_uri c' filter)
        with (GetServerList_uri {| config := cfg; http := h |} filter);
      change (filterServers c') with (filterServers {| config := cfg; http := h |});
      pose proof (sendRequest_client w MethodGet
                    (GetServerList_uri {| config := cfg; http := h |} filter)
                    {| config := cfg; http := h |} c' l) as [H1 H2];
      pose proof (sendRequest_client w MethodGet
                    (Config.URL cfg +:+ GetPlayerBansURL (Config.Key cfg) (Join steamIDs ","))
                    {| config := cfg; http := h |} c' l) as [H3 H4]
  end.
  split; [| split; [| split]].
  - destruct (sendRequest w MethodGet (GetServerList_uri _ filter) {| self := {| config := Config.mk _ _ _ _ _ _ _ |} |})
      as [r1 s1], (sendRequest w MethodGet (GetServerList_uri _ filter) _) as [r2 s2].
    cbn [fst snd] in *. subst r1.
    destruct r2 as [body [err|]]; [reflexivity |].
    destruct (Unmarshal_GetServerListResponse w body) as [servers [err|]]; reflexivity.
  - destruct (sendRequest w MethodGet (GetServerList_uri _ filter) {| self := {| config := Config.mk _ _ _ _ _ _ _ |} |})
      as [r1 s1], (sendRequest w MethodGet (GetServerList_uri _ filter) _) as [r2 s2].
    cbn [fst snd] in *. subst r1.
    destruct r2 as [body [err|]]; [exact H2 |].
    destruct (Unmarshal_GetServerListResponse w body) as [servers [err|]]; exact H2.
  - destruct (sendRequest w MethodGet (_ +:+ GetPlayerBansURL _ _) {| self := {| config := Config.mk _ _ _ _ _ _ _ |} |})
      as [r1 s1], (sendRequest w MethodGet (_ +:+ GetPlayerBansURL _ _) _) as [r2 s2].
    cbn [fst snd] in *. subst r1.
    destruct r2 as [body [err|]]; [reflexivity |].
    destruct (Unmarshal_GetPlayerBansResponse w body) as [players [err|]]; reflexivity.
  - destruct (sendRequest w MethodGet (_ +:+ GetPlayerBansURL _ _) {| self := {| config := Config.mk _ _ _ _ _ _ _ |} |})
      as [r1 s1], (sendRequest w MethodGet (_ +:+ GetPlayerBansURL _ _) _) as [r2 s2].
    cbn [fst snd] in *. subst r1.
    destruct r2 as [body [err|]]; [exact H4 |].
    destruct (Unmarshal_GetPlayerBansResponse w body) as [players [err|]]; exact H4.
Qed.

(** ** Sorting a slice that is already in order *)

Section sorted_input.
Context {A : Type}.
Variable less : A -> A -> bool.
Variable key : A -> Z.
Hypothesis less_key : forall x y, less x y = (key x <? key y).
Local Open Scope nat_scope.

Lemma StronglySorted_app_head (R : A -> A -> Prop) (l1 l2 : list A) (x : A) :
  StronglySorted R (l1 ++ x :: l2) -> Forall (fun y => R y x) l1.
Proof.
  induction l1 as [|y l1 IH]; cbn [app]; intros H; [constructor |].
  inversion H as [|? ? Hs Hall]; subst.
  constructor; [| now apply IH].
  rewrite Forall_app in Hall. destruct Hall as [_ Hall].
  now inversion Hall.
Qed.

Lemma insert_back_last (x : A) (rp : list A) :
  Forall (fun y => (key y <= key x)%Z) rp -> insert_back less x rp = x :: rp.
Proof.
  destruct rp as [|y rp]; [reflexivity |].
  intros H. inversion H as [|? ? Hy _]; subst.
  cbn [insert_back]. rewrite less_key.
  destruct (Z.ltb_spec (key x) (key y)); [lia | reflexivity].
Qed.

Lemma insertion_fold_in_order (l rp : list A) :
  StronglySorted (fun y z => (key y <= key z)%Z) (rev rp ++ l) ->
  foldl (fun rp x => insert_back less x rp) rp l = rev l ++ rp.
Proof.
  revert rp. induction l as [|x l IH]; intros rp H; [reflexivity |].
  cbn [foldl].
  rewrite insert_back_last.
  - rewrite IH.
    + cbn [rev]. now rewrite <- app_assoc.
    + cbn [rev]. now rewrite <- app_assoc.
  - apply StronglySorted_app_head in H.
    rewrite List.Forall_forall in *. intros y Hy. apply H. now apply in_rev in Hy.
Qed.

(** The stable insertion sort leaves a list in order as it is. *)
Lemma insertion_sorted_in_order (l : list A) :
  StronglySorted (fun y z => (key y <= key z)%Z) l -> insertion_sorted less l = l.
Proof.
  intros H. unfold insertion_sorted.
  rewrite insertion_fold_in_order by exact H.
  rewrite app_nil_r. apply rev_involutive.
Qed.

Variable data : list A.
Hypothesis data_sorted : StronglySorted (fun y z => (key y <= key z)%Z) data.

(** On a slice in order no element is [less] than one at an earlier (or the
    same) position. *)
Lemma Less_in_order (i j : nat) : j <= i -> sort.Less less data i j = false.
Proof.
  intros Hji. unfold sort.Less.
  destruct (data !! i) as [x|] eqn:Hi; [| reflexivity].
  destruct (data !! j) as [y|] eqn:Hj; [| reflexivity].
  rewrite less_key. apply Z.ltb_ge.
  destruct (Nat.eq_dec j i) as [-> | Hne].
  - rewrite Hi in Hj. injection Hj as ->. lia.
  - apply (StronglySorted_lookup (fun y z => (key y <= key z)%Z) data j i y x);
      [exact data_sorted | lia | exact Hj | exact Hi].
Qed.

Lemma order2_func_in_order (a b swaps : nat) :
  a <= b -> sort.order2_func less data a b swaps = (a, b, swaps).
Proof.
  intros H. unfold sort.order2_func. now rewrite Less_in_order.
Qed.

Lemma median_func_in_order (a b c swaps : nat) :
  a <= b -> b <= c -> sort.median_func less data a b c swaps = (b, swaps).
Proof.
  intros H1 H2. unfold sort.median_func.
  rewrite (order2_func_in_order a b) by exact H1.
  rewrite (order2_func_in_order b c) by exact H2.
  rewrite (order2_func_in_order a b) by exact H1.
  reflexivity.
Qed.

(** No exchange is counted, so the range is reported as increasing. *)
Lemma choosePivot_func_in_order (a b : nat) :
  snd (sort.choosePivot_func less data a b) = sort.increasingHint.
Proof.
  unfold sort.choosePivot_func, sort.medianAdjacent_func. cbv zeta.
  set (q := (b - a) / 4).
  destruct (8 <=? b - a); [| reflexivity].
  destruct (sort.shortestNinther <=? b - a).
  - repeat (rewrite median_func_in_order by lia). reflexivity.
  - rewrite median_func_in_order by lia. reflexivity.
Qed.

Lemma scan_sorted_in_order (n i b : nat) :
  i <= b -> b - i <= n -> sort.scan_sorted less n data i b = b.
Proof.
  revert i. induction n as [|n IH]; intros i Hib Hn; cbn [sort.scan_sorted]; [lia |].
  rewrite Less_in_order by lia. cbn [negb]. rewrite andb_true_r.
  destruct (Nat.ltb_spec i b); [apply IH; lia | lia].
Qed.

Lemma partialInsertionSort_loop_in_order (steps a b i : nat) :
  i <= b -> sort.partialInsertionSort_loop less (S steps) data a b i = (data, true).
Proof.
  intros Hib. cbn [sort.partialInsertionSort_loop].
  rewrite scan_sorted_in_order by lia.
  now rewrite Nat.eqb_refl.
Qed.

Lemma partialInsertionSort_func_in_order (a b : nat) :
  a < b -> sort.partialInsertionSort_func less data a b = (data, true).
Proof.
  intros Hab. unfold sort.partialInsertionSort_func.
  change sort.maxSteps with (S 4).
  apply partialInsertionSort_loop_in_order. lia.
Qed.

Lemma bits_Len_pos (n : nat) : 0 < n -> sort.bits_Len n <> 0.
Proof.
  intros Hn. unfold sort.bits_Len.
  destruct (N.of_nat n) as [|p] eqn:Hp; [lia |].
  cbn [N.size]. lia.
Qed.

Lemma pdqsort_loop_in_order (fuel b limit : nat) :
  12 < b -> limit <> 0 ->
  sort.pdqsort_loop less (S fuel) data 0 b limit true true = data.
Proof.
  intros Hb Hl. cbn [sort.pdqsort_loop]. unfold sort.maxInsertion.
  destruct (Nat.leb_spec (b - 0) 12) as [H12 | H12]; [lia |].
  destruct (Nat.eqb_spec limit 0) as [Hl0 | Hl0]; [contradiction |].
  cbn [negb].
  pose proof (choosePivot_func_in_order 0 b) as Hhint.
  destruct (sort.choosePivot_func less data 0 b) as [pivot hint].
  cbn [snd] in Hhint. subst hint.
  cbn [sort.is_decreasing sort.is_increasing andb].
  rewrite partialInsertionSort_func_in_order by lia.
  reflexivity.
Qed.

(** [sort.Slice] returns a slice that is already in order as it is, elements
    with equal keys included. *)
Lemma Slice_in_order : sort.Slice less data = data.
Proof.
  destruct (Nat.le_gt_cases (length data) 12) as [Hlen | Hlen].
  - rewrite Slice_small by exact Hlen. now apply insertion_sorted_in_order.
  - unfold sort.Slice, sort.pdqsort_func. cbv zeta.
    rewrite Nat.sub_0_r.
    destruct (length data) as [|n] eqn:Hn; [lia |].
    apply pdqsort_loop_in_order; [lia |].
    apply bits_Len_pos. lia.
Qed.
End sorted_input.

(** ** The pass as a whole *)

Lemma descending_key (l : list Server) :
  descending l <-> StronglySorted (fun y z => - Server.Players y <= - Server.Players z) l.
Proof.
  unfold descending. split; apply StronglySorted_impl; intros x y H; lia.
Qed.

(** Sorting by player count leaves a list in descending order as it is. *)
Lemma Slice_descending (l : list Server) :
  descending l -> sort.Slice morePlayers l = l.
Proof.
  intros H. apply descending_key in H.
  exact (Slice_in_order morePlayers (fun s => - Server.Players s) morePlayers_key l H).
Qed.

Lemma StronglySorted_filter {A : Type} (R : A -> A -> Prop) (P : A -> Prop)
    `{forall x, Decision (P x)} (l : list A) :
  StronglySorted R l -> StronglySorted R (base.filter P l).
Proof.
  induction 1 as [|x l Hl IH Hx]; [constructor |].
  rewrite filter_cons. destruct (decide (P x)); [| exact IH].
  constructor; [exact IH |].
  apply Forall_forall. intros y Hy. apply list_elem_of_filter in Hy as [_ Hy].
  rewrite Forall_forall in Hx. now apply Hx.
Qed.

Lemma filter_all {A : Type} (P : A -> Prop) `{forall x, Decision (P x)} (l : list A) :
  Forall P l -> base.filter P l = l.
Proof.
  induction 1 as [|x l Hx Hl IH]; [reflexivity |].
  rewrite filter_cons_True by exact Hx. now rewrite IH.
Qed.

(** What the exclusion step leaves, as a filter of the input. *)
Lemma kept_filter (c : Client) (servers : list Server) (filter : GetServerListFilter) :
  kept c servers filter =
  if NoHidden filter || NoDefaultServers filter
  then base.filter (fun s => removeAddrs_of c filter servers !! Server.Addr s = None)
         servers
  else servers.
Proof.
  unfold kept. destruct (NoHidden filter || NoDefaultServers filter); [| reflexivity].
  apply removeFilteredServers_filter.
Qed.

Lemma kept_sublist (c : Client) (servers : list Server) (filter : GetServerListFilter) :
  kept c servers filter `sublist_of` servers.
Proof.
  rewrite kept_filter. destruct (NoHidden filter || NoDefaultServers filter);
    [apply sublist_filter | reflexivity].
Qed.

Lemma kept_descending (c : Client) (servers : list Server)
    (filter : GetServerListFilter) :
  descending servers -> descending (kept c servers filter).
Proof.
  intros H. rewrite kept_filter.
  destruct (NoHidden filter || NoDefaultServers filter); [| exact H].
  now apply StronglySorted_filter.
Qed.

(** A list without a server under an active custom filter passes the
    exclusion step as it is. *)
Lemma kept_without_match (c : Client) (servers : list Server)
    (filter : GetServerListFilter) :
  Forall (fun s => matches_customb c filter s = false) servers ->
  kept c servers filter = servers.
Proof.
  intros Hno. rewrite kept_filter.
  destruct (NoHidden filter || NoDefaultServers filter); [| reflexivity].
  apply filter_all, Forall_forall. intros s Hs.
  apply eq_None_not_Some. intros Hsome.
  apply removeAddrs_of_spec in Hsome as (s' & Hs' & _ & Hm).
  apply matches_customb_spec in Hm.
  rewrite Forall_forall in Hno. specialize (Hno s' Hs'). congruence.
Qed.

(** No server of the result is under an active custom filter. *)
Lemma filterServers_no_match (c : Client) (servers : list Server)
    (filter : GetServerListFilter) :
  Forall (fun s => matches_customb c filter s = false)
         (filterServers c servers filter).
Proof.
  apply Forall_forall. intros s Hs.
  apply elem_of_filterServers in Hs as [Hin Hnone].
  destruct (matches_customb c filter s) eqn:Hm; [| reflexivity].
  exfalso.
  assert (Hflag : NoHidden filter || NoDefaultServers filter = true).
  { unfold matches_customb in Hm.
    destruct (NoHidden filter), (NoDefaultServers filter); try reflexivity.
    cbn in Hm. discriminate. }
  specialize (Hnone Hflag).
  assert (Hsome : is_Some (removeAddrs_of c filter servers !! Server.Addr s)).
  { apply removeAddrs_of_spec. exists s. repeat split; [exact Hin |].
    now apply matches_customb_spec. }
  rewrite Hnone in Hsome. now destruct Hsome.
Qed.

Lemma filterServers_without_custom (c : Client) (servers : list Server)
    (filter : GetServerListFilter) :
  filterServers c servers (with_custom filter false false)
  = sort.Slice morePlayers servers.
Proof. reflexivity. Qed.

(** X14: [filterServers] neither invents nor duplicates a server: its result
    is a rearrangement of the servers left by the exclusion step, hence a
    sub-multiset of the input and never longer than it; with both custom
    filters off it is a rearrangement of the whole input. *)
Theorem filterServers_submseteq (c : Client) (servers : list Server)
    (filter : GetServerListFilter) :
  filterServers c servers filter ≡ₚ kept c servers filter /\
  filterServers c servers filter ⊆+ servers /\
  (length (filterServers c servers filter) <= length servers)%nat /\
  filterServers c servers (with_custom filter false false) ≡ₚ servers.
Proof.
  assert (H1 : filterServers c servers filter ≡ₚ kept c servers filter).
  { rewrite filterServers_kept. apply Slice_Permutation. }
  assert (H2 : filterServers c servers filter ⊆+ servers).
  { rewrite H1. apply sublist_submseteq, kept_sublist. }
  split; [exact H1 |]. split; [exact H2 |]. split.
  - now apply submseteq_length.
  - rewrite filterServers_without_custom. apply Slice_Permutation.
Qed.

(** X15: The custom filters act on the response only.  Whatever the values of
    [NoHidden] and [NoDefaultServers], [GetServerList] issues the same request
    and leaves the same state as with both of them off, returns the same
    error, and returns a sub-multiset of the servers it returns with both of
    them off. *)
Theorem custom_filters_are_client_side (w : World) (g : GetServerListFilter)
    (noHidden noDefaultServers : bool) (st : State) :
  let plain := GetServerList w (with_custom g false false) st in
  let r := GetServerList w (with_custom g noHidden noDefaultServers) st in
  snd r = snd plain /\
  snd (fst r) = snd (fst plain) /\
  fst (fst r) ⊆+ fst (fst plain).
Proof.
  cbv zeta. rewrite !GetServerList_unfold.
  destruct (Config.Disabled _); [repeat split; reflexivity |].
  assert (Huri : GetServerList_uri (self st) (with_custom g noHidden noDefaultServers)
                 = GetServerList_uri (self st) (with_custom g false false)).
  { unfold GetServerList_uri. rewrite !String_custom_fields. reflexivity. }
  rewrite Huri.
  destruct (sendRequest _ _ _ st) as [[body [err|]] st']; [repeat split; reflexivity |].
  destruct (Unmarshal_GetServerListResponse w body) as [servers [err|]];
    [repeat split; reflexivity |].
  cbn [fst snd]. split; [reflexivity |]. split; [reflexivity |].
  rewrite (filterServers_without_custom (self st) servers g).
  rewrite Slice_Permutation.
  rewrite filterServers_kept, Slice_Permutation.
  apply sublist_submseteq, kept_sublist.
Qed.

(** X16: When no server of the list falls under an active custom filter (no
    [GameType] contains [hidden] while [NoHidden] is set, no [Name] is a
    configured default name while [NoDefaultServers] is set), the custom
    filters remove nothing: the result is the one obtained with both of them
    off.  In particular [NoDefaultServers] alone has no effect on a client
    with no default server names configured. *)
Theorem custom_filter_without_match (c : Client) (servers : list Server)
    (filter : GetServerListFilter) :
  Forall (fun s => matches_customb c filter s = false) servers ->
  filterServers c servers filter
  = filterServers c servers (with_custom filter false false).
Proof.
  intros H. rewrite filterServers_without_custom, filterServers_kept.
  now rewrite kept_without_match.
Qed.

Lemma custom_filter_without_match_witness :
  Forall (fun s => matches_customb (self testState)
                     (with_custom emptyFilter true false) s = false)
         exampleServers /\
  filterServers (self testState) exampleServers (with_custom emptyFilter true false)
  = filterServers (self testState) exampleServers
      (with_custom (with_custom emptyFilter true false) false false).
Proof.
  assert (H : Forall (fun s => matches_customb (self testState)
                                 (with_custom emptyFilter true false) s = false)
                     exampleServers)
    by (repeat constructor).
  split; [exact H |].
  exact (custom_filter_without_match (self testState) exampleServers
           (with_custom emptyFilter true false) H).
Defined.

(** X17: [filterServers] is idempotent: applied to its own result, with the
    same client and filter, it removes nothing more and changes no position,
    whatever the number of servers and of ties. *)
Theorem filterServers_idempotent (c : Client) (servers : list Server)
    (filter : GetServerListFilter) :
  filterServers c (filterServers c servers filter) filter
  = filterServers c servers filter.
Proof.
  rewrite (filterServers_kept c (filterServers c servers filter)).
  rewrite kept_without_match by apply filterServers_no_match.
  apply Slice_descending, filterServers_descending.
Qed.

(** X18: A response that is already in descending order of player count
    keeps its order: the result is the list left by the exclusion step, the
    servers with equal counts in the order of the response, whatever the
    number of servers. *)
Theorem filterServers_of_descending (c : Client) (servers : list Server)
    (filter : GetServerListFilter) :
  descending servers ->
  filterServers c servers filter
  = (if NoHidden filter || NoDefaultServers filter
     then base.filter
            (fun s => removeAddrs_of c filter servers !! Server.Addr s = None) servers
     else servers).
Proof.
  intros H. rewrite <- kept_filter, filterServers_kept.
  now apply Slice_descending, kept_descending.
Qed.

Lemma rankedServers_descending : descending rankedServers.
Proof.
  unfold descending, rankedServers.
  repeat (constructor; [| repeat (constructor; [cbn; lia |]); constructor]).
  constructor.
Qed.

Lemma filterServers_of_descending_witness :
  descending rankedServers /\
  filterServers (self testState) rankedServers (with_custom emptyFilter true true)
  = [exServer "r00" "Top" 40; exServer "r02" "C" 31; exServer "r03" "D" 20;
     exServer "r05" "F" 20; exServer "r06" "G" 9; exServer "r07" "H" 9;
     exServer "r08" "I" 5; exServer "r09" "J" 5; exServer "r11" "L" 2;
     exServer "r12" "M" 0].
Proof.
  split; [exact rankedServers_descending |].
  pose proof (filterServers_of_descending (self testState) rankedServers
                (with_custom emptyFilter true true) rankedServers_descending) as H.
  rewrite H. vm_compute. reflexivity.
Defined.

(** X19: For a response of at most twelve servers the result is the stable
    insertion sort of the servers left by the exclusion step: servers with
    equal player counts keep the relative order of the response. *)
Theorem filterServers_stable_up_to_12 (c : Client) (servers : list Server)
    (filter : GetServerListFilter) :
  (length servers <= 12)%nat ->
  filterServers c servers filter = insertion_sorted morePlayers (kept c servers filter) /\
  forall n, with_players n (filterServers c servers filter)
            = with_players n (kept c servers filter).
Proof.
  intros Hlen. apply filterServers_small.
  pose proof (sublist_length _ _ (kept_sublist c servers filter)). lia.
Qed.

Lemma filterServers_stable_up_to_12_witness :
  (length testServers <= 12)%nat /\
  filterServers (self testState) testServers emptyFilter
    = insertion_sorted morePlayers (kept (self testState) testServers emptyFilter) /\
  forall n, with_players n (filterServers (self testState) testServers emptyFilter)
            = with_players n (kept (self testState) testServers emptyFilter).
Proof.
  split; [cbn; lia |].
  exact (filterServers_stable_up_to_12 (self testState) testServers emptyFilter
           ltac:(cbn; lia)).
Defined.

(** ** What the encoding determines *)

Lemma nonempty_true (s : string) : s <> "" -> nonempty s = true.
Proof.
  intros H. unfold nonempty. apply negb_true_iff, String.eqb_neq, H.
Qed.

Lemma nonempty_append (s t : string) : s <> "" -> nonempty (s +:+ t) = true.
Proof.
  intros H. destruct s as [|c s]; [contradiction |]. reflexivity.
Qed.

(** X20: [String] copies [GameDir] and [Map] into the query without escaping
    the backslash that separates segments: a filter whose [GameDir] is
    [dir\map\m] and whose [Map] is empty encodes to the same string as the
    filter with [GameDir] [dir] and [Map] [m].  The encoding is not
    injective. *)
Theorem String_does_not_escape (g : GetServerListFilter) (dir map : string) :
  dir <> "" -> map <> "" ->
  String_ (with_GameDir_Map g (dir +:+ "\map\" +:+ map) "")
  = String_ (with_GameDir_Map g dir map).
Proof.
  intros Hdir Hmap. rewrite !String_segments.
  unfold with_GameDir_Map, optional_segments.
  cbn [Dedicated Secure GameDir Map Linux NoPassword NotEmpty NotFull Proxy AppID
       NotAppID NoPlayers Whitelisted GameTypeTags GameDataTags GameDataOrTags
       NameMatch].
  rewrite (nonempty_append dir _ Hdir), (nonempty_true dir Hdir),
    (nonempty_true map Hmap).
  change (nonempty "") with false.
  f_equal. f_equal.
  rewrite !concat_strings_app. cbn [seg_if concat_strings].
  repeat (rewrite append_assoc || rewrite append_empty_l || rewrite append_empty_r).
  reflexivity.
Qed.

Lemma String_does_not_escape_witness :
  "zomboid" <> "" /\ "Muldraugh, KY" <> "" /\
  String_ (with_GameDir_Map (appFilter 108600) "zomboid\map\Muldraugh, KY" "")
  = String_ (with_GameDir_Map (appFilter 108600) "zomboid" "Muldraugh, KY").
Proof.
  split; [discriminate |]. split; [discriminate |].
  exact (String_does_not_escape (appFilter 108600) "zomboid" "Muldraugh, KY"
           ltac:(discriminate) ltac:(discriminate)).
Defined.

Lemma append_inj_l (s x y : string) : s +:+ x = s +:+ y -> x = y.
Proof.
  induction s as [|c s IH]; [trivial |].
  rewrite !append_cons. intros [= H]. now apply IH.
Qed.

Lemma digit_char_not_backslash (n : N) : (n < 10)%N -> digit_char n <> "\"%char.
Proof.
  intros H Heq. apply (f_equal N_of_ascii) in Heq.
  unfold digit_char in Heq. rewrite N_ascii_embedding in Heq by lia.
  cbn in Heq. lia.
Qed.

Lemma digits_no_backslash (fuel : nat) (n : N) (acc : string) :
  no_backslash acc -> no_backslash (digits fuel n acc).
Proof.
  revert n acc. induction fuel as [|fuel IH]; intros n acc Hacc; [exact Hacc |].
  cbn [digits].
  assert (Hacc' : no_backslash (String (digit_char (n mod 10)) acc)).
  { split; [| exact Hacc]. apply digit_char_not_backslash.
    apply N.mod_lt. discriminate. }
  destruct (n / 10 =? 0)%N; [exact Hacc' | now apply IH].
Qed.

Lemma Itoa_no_backslash (i : Z) : no_backslash (Itoa i).
Proof.
  destruct i as [|p|p]; unfold Itoa.
  - split; [discriminate | exact I].
  - now apply digits_no_backslash.
  - rewrite append_cons, append_empty_l.
    split; [discriminate | now apply digits_no_backslash].
Qed.

(** A prefix without backslash is determined by the whole, when what follows
    is empty or begins with a backslash. *)
Lemma no_backslash_prefix (d d' rest rest' : string) :
  no_backslash d -> no_backslash d' -> segment_start rest -> segment_start rest' ->
  d +:+ rest = d' +:+ rest' -> d = d'.
Proof.
  revert d'. induction d as [|c d IH]; intros d' Hd Hd' Hr Hr' Heq.
  - destruct d' as [|c' d']; [reflexivity |].
    rewrite append_empty_l, append_cons in Heq. destruct Hd' as [Hc' _].
    destruct Hr as [-> | [r ->]]; [discriminate |].
    injection Heq as Hc _. congruence.
  - destruct d' as [|c' d'].
    + rewrite append_empty_l, append_cons in Heq. destruct Hd as [Hc _].
      destruct Hr' as [-> | [r ->]]; [discriminate |].
      injection Heq as Hc' _. congruence.
    + rewrite !append_cons in Heq. injection Heq as -> Heq.
      destruct Hd as [_ Hd], Hd' as [_ Hd']. f_equal.
      now apply (IH d').
Qed.

Lemma segment_start_seg_if (cond : bool) (seg r : string) (l : list string) :
  seg = String "\"%char r ->
  segment_start (concat_strings l) ->
  segment_start (concat_strings (seg_if cond seg ++ l)).
Proof.
  intros -> Hl. destruct cond; [| exact Hl].
  right. cbn [seg_if app concat_strings]. rewrite append_cons. eauto.
Qed.

Lemma optional_segments_start (g : GetServerListFilter) :
  segment_start (concat_strings (optional_segments g)).
Proof.
  unfold optional_segments.
  repeat (eapply segment_start_seg_if; [reflexivity |]).
  destruct (nonempty (NameMatch g)); [right | left]; cbn [seg_if concat_strings].
  - rewrite append_empty_r. eexists. reflexivity.
  - reflexivity.
Qed.

(** X21: The application identifier can be read back from the encoding: two
    filters with the same encoding have the same [AppID] (also when their
    other fields differ, as the encoding does not determine those). *)
Theorem String_determines_AppID (g g' : GetServerListFilter) :
  String_ g = String_ g' -> AppID g = AppID g'.
Proof.
  rewrite !String_segments. intros H.
  apply append_inj_l in H.
  apply no_backslash_prefix in H;
    [| apply Itoa_no_backslash | apply Itoa_no_backslash
     | apply optional_segments_start | apply optional_segments_start].
  rewrite <- (Itoa_value (AppID g)), <- (Itoa_value (AppID g')).
  now rewrite H.
Qed.

Lemma String_determines_AppID_witness :
  String_ (with_GameDir_Map (appFilter 108600) "zomboid\map\Muldraugh, KY" "")
  = String_ (with_GameDir_Map (appFilter 108600) "zomboid" "Muldraugh, KY") /\
  AppID (with_GameDir_Map (appFilter 108600) "zomboid\map\Muldraugh, KY" "")
  = AppID (with_GameDir_Map (appFilter 108600) "zomboid" "Muldraugh, KY").
Proof.
  assert (H : String_ (with_GameDir_Map (appFilter 108600) "zomboid\map\Muldraugh, KY" "")
              = String_ (with_GameDir_Map (appFilter 108600) "zomboid" "Muldraugh, KY"))
    by (vm_compute; reflexivity).
  split; [exact H |].
  exact (String_determines_AppID _ _ H).
Defined.

(** ** The two custom filters together *)

Lemma matches_custom_both (c : Client) (g : GetServerListFilter) (s : Server) :
  matches_custom c (with_custom g true true) s <->
  matches_custom c (with_custom g true false) s \/
  matches_custom c (with_custom g false true) s.
Proof.
  unfold matches_custom. cbn [NoHidden NoDefaultServers with_custom].
  split.
  - intros [[_ H] | [_ H]]; [left; left | right; right]; split; auto.
  - intros [[[_ H] | [H _]] | [[H _] | [_ H]]]; try discriminate;
      [left | right]; split; auto.
Qed.

Lemma removeAddrs_of_both (c : Client) (g : GetServerListFilter)
    (servers : list Server) (addr : string) :
  removeAddrs_of c (with_custom g true true) servers !! addr = None <->
  removeAddrs_of c (with_custom g true false) servers !! addr = None /\
  removeAddrs_of c (with_custom g false true) servers !! addr = None.
Proof.
  rewrite !eq_None_not_Some, !removeAddrs_of_spec.
  split.
  - intros H. split; intros (s & Hs & Ha & Hm); apply H; exists s;
      (split; [exact Hs | split; [exact Ha |]]); apply matches_custom_both; auto.
  - intros [H1 H2] (s & Hs & Ha & Hm). apply matches_custom_both in Hm as [Hm | Hm];
      [apply H1 | apply H2]; exists s; auto.
Qed.

(** X22: The two custom filters are independent: a server is in the result
    with both [NoHidden] and [NoDefaultServers] set exactly when it is in the
    result with [NoHidden] alone and in the result with [NoDefaultServers]
    alone. *)
Theorem custom_filters_intersect (c : Client) (servers : list Server)
    (g : GetServerListFilter) (s : Server) :
  s ∈ filterServers c servers (with_custom g true true) <->
  s ∈ filterServers c servers (with_custom g true false) /\
  s ∈ filterServers c servers (with_custom g false true).
Proof.
  rewrite !elem_of_filterServers. cbn [NoHidden NoDefaultServers with_custom orb].
  pose proof (removeAddrs_of_both c g servers (Server.Addr s)) as H.
  split.
  - intros [Hin Hr]. apply H in Hr as [H1 H2]; [| reflexivity].
    split; split; auto.
  - intros [[Hin H1] [_ H2]]. split; [exact Hin |]. intros _. apply H. auto.
Qed.

(** ** Servers with pairwise distinct player counts *)

Section unique_order.
Context {A : Type}.
Variable key : A -> Z.

(** A list with pairwise distinct keys has one arrangement in order. *)
Lemma sorted_Permutation_unique (l1 l2 : list A) :
  NoDup (map key l1) ->
  l1 ≡ₚ l2 ->
  StronglySorted (fun y z => key y <= key z) l1 ->
  StronglySorted (fun y z => key y <= key z) l2 ->
  l1 = l2.
Proof.
  revert l2. induction l1 as [|x t IH]; intros l2 Hnd Hp H1 H2.
  - now apply Permutation_nil in Hp.
  - destruct l2 as [|y u].
    { symmetry in Hp. now apply Permutation_nil in Hp. }
    inversion H1 as [|? ? Ht Hx]; subst. inversion H2 as [|? ? Hu Hy]; subst.
    cbn [map] in Hnd. apply NoDup_cons in Hnd as [Hxt Hndt].
    assert (Hyin : y ∈ x :: t) by (rewrite Hp; left).
    assert (Hxin : x ∈ y :: u) by (rewrite <- Hp; left).
    assert (Heq : y = x).
    { apply elem_of_cons in Hyin as [-> | Hyt]; [reflexivity |].
      exfalso. apply Hxt.
      assert (Hk : key x = key y).
      { apply elem_of_cons in Hxin as [-> | Hxu]; [reflexivity |].
        rewrite Forall_forall in Hx, Hy.
        specialize (Hx y Hyt). specialize (Hy x Hxu). lia. }
      rewrite Hk. exact (list_elem_of_fmap_2 key t y Hyt). }
    subst y. f_equal. apply IH; try assumption.
    now apply Permutation_cons_inv in Hp.
Qed.
End unique_order.

Lemma NoDup_map_sublist {A B : Type} (f : A -> B) (l l' : list A) :
  l' `sublist_of` l -> NoDup (map f l) -> NoDup (map f l').
Proof.
  intros Hs Hnd. apply (sublist_NoDup _ (map f l)); [exact Hnd |].
  exact (fmap_sublist f _ _ Hs).
Qed.

(** X23: When the servers of the response have pairwise distinct player
    counts, the result is the one arrangement of the kept servers in
    descending order: every descending rearrangement of the servers left by
    the exclusion step is the result itself. *)
Theorem filterServers_distinct_counts (c : Client) (servers : list Server)
    (filter : GetServerListFilter) :
  NoDup (map Server.Players servers) ->
  forall l, l ≡ₚ kept c servers filter -> descending l ->
            filterServers c servers filter = l.
Proof.
  intros Hnd l Hp Hl.
  pose proof (NoDup_map_sublist Server.Players servers _
                (kept_sublist c servers filter) Hnd) as Hk.
  apply (sorted_Permutation_unique (fun s => - Server.Players s)).
  - change (NoDup ((Z.opp ∘ Server.Players) <$> filterServers c servers filter)).
    rewrite list_fmap_compose. apply NoDup_fmap_2; [intros a b Hab; lia |].
    assert (Hperm : Server.Players <$> filterServers c servers filter
                    ≡ₚ Server.Players <$> kept c servers filter).
    { apply fmap_Permutation. rewrite filterServers_kept. apply Slice_Permutation. }
    rewrite Hperm. exact Hk.
  - rewrite Hp, filterServers_kept. apply Slice_Permutation.
  - apply descending_key, filterServers_descending.
  - now apply descending_key.
Qed.

Lemma filterServers_distinct_counts_witness :
  NoDup (map Server.Players twinServers) /\
  forall l, l ≡ₚ kept (self testState) twinServers emptyFilter -> descending l ->
            filterServers (self testState) twinServers emptyFilter = l.
Proof.
  assert (H : NoDup (map Server.Players twinServers)).
  { apply (bool_decide_unpack (NoDup (map Server.Players twinServers))).
    vm_compute. exact I. }
  split; [exact H |].
  exact (filterServers_distinct_counts (self testState) twinServers emptyFilter H).
Defined.

(** ** What the order of the response can change *)

Section sorted_values.
Context {A : Type}.
Variable R : A -> A -> Prop.
Hypothesis R_antisym : forall x y, R x y -> R y x -> x = y.

(** Two arrangements in order of the same elements are equal, for an
    antisymmetric order. *)
Lemma StronglySorted_Permutation_eq (l1 l2 : list A) :
  l1 ≡ₚ l2 -> StronglySorted R l1 -> StronglySorted R l2 -> l1 = l2.
Proof.
  revert l2. induction l1 as [|x t IH]; intros l2 Hp H1 H2.
  - now apply Permutation_nil in Hp.
  - destruct l2 as [|y u].
    { symmetry in Hp. now apply Permutation_nil in Hp. }
    inversion H1 as [|? ? Ht Hx]; subst. inversion H2 as [|? ? Hu Hy]; subst.
    assert (Hyin : y ∈ x :: t) by (rewrite Hp; left).
    assert (Hxin : x ∈ y :: u) by (rewrite <- Hp; left).
    assert (Heq : y = x).
    { apply elem_of_cons in Hyin as [-> | Hyt]; [reflexivity |].
      apply elem_of_cons in Hxin as [-> | Hxu]; [reflexivity |].
      rewrite Forall_forall in Hx, Hy. symmetry. apply R_antisym; auto. }
    subst y. f_equal. apply IH; try assumption.
    now apply Permutation_cons_inv in Hp.
Qed.
End sorted_values.

Lemma StronglySorted_map {A B : Type} (R : B -> B -> Prop) (f : A -> B) (l : list A) :
  StronglySorted (fun x y => R (f x) (f y)) l -> StronglySorted R (map f l).
Proof.
  induction 1 as [|x l Hl IH Hx]; cbn [map]; constructor; [exact IH |].
  rewrite List.Forall_forall in *. intros b Hb.
  apply in_map_iff in Hb as (a & <- & Ha). now apply Hx.
Qed.

Lemma filter_Permutation_bool {A : Type} (f : A -> bool) (l l' : list A) :
  l ≡ₚ l' -> List.filter f l ≡ₚ List.filter f l'.
Proof.
  induction 1 as [|x l l' Hp IH|x y l|l l' l'' H1 IH1 H2 IH2]; cbn [List.filter].
  - reflexivity.
  - destruct (f x); [now constructor | exact IH].
  - destruct (f x), (f y); try reflexivity. apply perm_swap.
  - now transitivity (List.filter f l').
Qed.

(** Two descending arrangements of the same servers show the same player
    counts, position by position. *)
Lemma descending_counts_unique (l1 l2 : list Server) :
  l1 ≡ₚ l2 -> descending l1 -> descending l2 ->
  map Server.Players l1 = map Server.Players l2.
Proof.
  intros Hp H1 H2.
  apply (StronglySorted_Permutation_eq (fun a b => b <= a)).
  - intros x y Hxy Hyx. lia.
  - now apply Permutation_map.
  - now apply StronglySorted_map.
  - now apply StronglySorted_map.
Qed.

(** X24: every descending arrangement of the servers left by the exclusion
    step (the stable sort of them, for one) shows the same player counts as
    the result, position by position, and for each player count the same
    servers; the result can differ from it only in the order among servers
    with equal player counts. *)
Theorem filterServers_only_ties_vary (c : Client) (servers : list Server)
    (filter : GetServerListFilter) (l : list Server) :
  l ≡ₚ kept c servers filter -> descending l ->
  map Server.Players (filterServers c servers filter) = map Server.Players l /\
  forall n, with_players n (filterServers c servers filter) ≡ₚ with_players n l.
Proof.
  intros Hp Hl.
  assert (Hperm : filterServers c servers filter ≡ₚ l).
  { rewrite Hp, filterServers_kept. apply Slice_Permutation. }
  split.
  - apply descending_counts_unique;
      [exact Hperm | apply filterServers_descending | exact Hl].
  - intros n. unfold with_players. now apply filter_Permutation_bool.
Qed.

Lemma tieServers_stable_descending : descending tieServers_stable.
Proof.
  unfold descending, tieServers_stable. cbn [map].
  repeat (constructor; [| repeat (constructor; [cbn; lia |]); constructor]).
  constructor.
Qed.

Lemma filterServers_only_ties_vary_witness :
  tieServers_stable ≡ₚ kept (self testState) tieServers emptyFilter /\
  descending tieServers_stable /\
  map Server.Players (filterServers (self testState) tieServers emptyFilter)
    = map Server.Players tieServers_stable /\
  forall n, with_players n (filterServers (self testState) tieServers emptyFilter)
            ≡ₚ with_players n tieServers_stable.
Proof.
  assert (Hp : tieServers_stable ≡ₚ kept (self testState) tieServers emptyFilter).
  { change (kept (self testState) tieServers emptyFilter) with tieServers.
    unfold tieServers_stable, tieServers. apply Permutation_cons_append. }
  split; [exact Hp |]. split; [exact tieServers_stable_descending |].
  exact (filterServers_only_ties_vary (self testState) tieServers emptyFilter
           tieServers_stable Hp tieServers_stable_descending).
Defined.

(** The exclusion map of a rearranged list excludes the same addresses. *)
Lemma removeAddrs_of_Permutation (c : Client) (filter : GetServerListFilter)
    (servers servers' : list Server) (addr : string) :
  servers ≡ₚ servers' ->
  removeAddrs_of c filter servers !! addr = None <->
  removeAddrs_of c filter servers' !! addr = None.
Proof.
  intros Hp. rewrite !eq_None_not_Some, !removeAddrs_of_spec.
  split; intros H (s & Hs & Ha & Hm); apply H; exists s;
    (split; [| split; [exact Ha | exact Hm]]).
  - now rewrite Hp.
  - now rewrite <- Hp.
Qed.

Lemma kept_Permutation (c : Client) (filter : GetServerListFilter)
    (servers servers' : list Server) :
  servers ≡ₚ servers' -> kept c servers filter ≡ₚ kept c servers' filter.
Proof.
  intros Hp. rewrite !kept_filter.
  destruct (NoHidden filter || NoDefaultServers filter); [| exact Hp].
  rewrite (list_filter_iff _
             (fun s => removeAddrs_of c filter servers' !! Server.Addr s = None)).
  - now apply filter_Permutation.
  - intros s. now apply removeAddrs_of_Permutation.
Qed.

(** X25: the order of the servers in the response influences only the order
    among servers with equal player counts: for two responses holding the
    same servers in different orders, the results hold the same servers, and
    the same player counts position by position. *)
Theorem filterServers_Permutation (c : Client) (servers servers' : list Server)
    (filter : GetServerListFilter) :
  servers ≡ₚ servers' ->
  filterServers c servers filter ≡ₚ filterServers c servers' filter /\
  map Server.Players (filterServers c servers filter)
    = map Server.Players (filterServers c servers' filter).
Proof.
  intros Hp.
  assert (H : filterServers c servers filter ≡ₚ filterServers c servers' filter).
  { rewrite !filterServers_kept, !Slice_Permutation. now apply kept_Permutation. }
  split; [exact H |].
  apply descending_counts_unique; [exact H | |]; apply filterServers_descending.
Qed.

Lemma filterServers_Permutation_witness :
  testServers ≡ₚ rev testServers /\
  filterServers (self testState) testServers (with_custom emptyFilter false true)
    ≡ₚ filterServers (self testState) (rev testServers)
         (with_custom emptyFilter false true) /\
  map Server.Players
      (filterServers (self testState) testServers (with_custom emptyFilter false true))
    = map Server.Players
        (filterServers (self testState) (rev testServers)
           (with_custom emptyFilter false true)).
Proof.
  split; [apply Permutation_rev |].
  exact (filterServers_Permutation (self testState) testServers (rev testServers)
           (with_custom emptyFilter false true) (Permutation_rev testServers)).
Defined.
